(** * ink-stroke-modeler: numeric utilities and input validation

    A shallow embedding of [ink_stroke_modeler/internal/utils.h] and
    [ink_stroke_modeler/types.cc].

    C++ [float] and [double] values are IEEE-754 binary32 and binary64
    numbers.  They are represented by [spec_float], the format-independent
    datatype of the standard library's [SpecFloat], and every arithmetic
    operation is the correctly rounded (round-to-nearest-even) operation of
    [SpecFloat] at the precision the C++ expression is evaluated in: [float]
    operands give a binary32 operation, an operand of type [double] (the
    macro [M_PI]) promotes the other one and gives a binary64 operation whose
    result is narrowed when it is stored in a [float].

    An expression is evaluated operation by operation, each one rounded.
    A compiler may instead contract a product and the sum that uses it into
    one fused multiply-add, which rounds once; where a property depends on
    it, the evaluation is a parameter ([AbsoluteAngleTo_under]). *)

From Stdlib Require Import ZArith Bool String List Lia.
From Stdlib Require Import SpecFloat.

Local Open Scope Z_scope.

(** ** IEEE-754 layer *)

Definition float := spec_float.
Definition double := spec_float.

Module F32.
Definition prec : Z := 24.
Definition emax : Z := 128.
Definition valid (f : float) : bool := valid_binary prec emax f.
Definition add : float -> float -> float := SFadd prec emax.
Definition sub : float -> float -> float := SFsub prec emax.
Definition mul : float -> float -> float := SFmul prec emax.
Definition div : float -> float -> float := SFdiv prec emax.
(** The literals [0.f] and [1.f], also the values of the integer
    literals [0] and [1] converted to [float]. *)
Definition zero : float := S754_zero false.
Definition one : float := S754_finite false 8388608 (-23).
(** The value of an integer, rounded to binary32. *)
Definition of_Z (n : Z) : float := binary_normalize prec emax n 0 false.
End F32.

Module F64.
Definition prec : Z := 53.
Definition emax : Z := 1024.
Definition valid (d : double) : bool := valid_binary prec emax d.
Definition add : double -> double -> double := SFadd prec emax.
Definition sub : double -> double -> double := SFsub prec emax.
Definition mul : double -> double -> double := SFmul prec emax.
Definition opp : double -> double := SFopp.
(** The value of an integer, rounded to binary64. *)
Definition of_Z (n : Z) : double := binary_normalize prec emax n 0 false.
End F64.

(** Comparisons do not depend on the format. *)
Definition ltb : spec_float -> spec_float -> bool := SFltb.
Definition leb : spec_float -> spec_float -> bool := SFleb.
Definition eqb : spec_float -> spec_float -> bool := SFeqb.
(** [a > b] is [b < a]. *)
Definition gtb (a b : spec_float) : bool := SFltb b a.

(** Implicit conversion [float -> double] (exact) and the narrowing
    conversion [double -> float] (rounding to nearest even). *)
Definition to_double (f : float) : double :=
  match f with
  | S754_finite s m e =>
      binary_normalize F64.prec F64.emax (cond_Zopp s (Zpos m)) e s
  | _ => f
  end.

Definition to_float (d : double) : float :=
  match d with
  | S754_finite s m e =>
      binary_normalize F32.prec F32.emax (cond_Zopp s (Zpos m)) e s
  | _ => d
  end.

(** [std::isnan], [std::isinf] and [std::isfinite]. *)
Definition is_nan (f : spec_float) : bool :=
  match f with S754_nan => true | _ => false end.

Definition is_inf (f : spec_float) : bool :=
  match f with S754_infinity _ => true | _ => false end.

Definition is_finite (f : spec_float) : bool :=
  match f with
  | S754_zero _ | S754_finite _ _ _ => true
  | _ => false
  end.

(** The macro [M_PI], [3.14159265358979323846]: the double
    [0x1.921fb54442d18p+1]. *)
Definition M_PI : double := S754_finite false 7074237752028440 (-51).

(** [2 * M_PI], evaluated in binary64. *)
Definition two_pi : double := F64.mul (F64.of_Z 2) M_PI.

(** [-M_PI]. *)
Definition neg_pi : double := F64.opp M_PI.

(** ** utils.h *)

(** [Clamp01], utils.h:49-53. *)
Definition Clamp01 (value : float) : float :=
  if ltb value F32.zero then F32.zero
  else if gtb value F32.one then F32.one
  else value.

(** [Normalize01], utils.h:58-63. *)
Definition Normalize01 (start end_ value : float) : float :=
  if eqb start end_ then
    (if gtb value start then F32.one else F32.zero)
  else Clamp01 (F32.div (F32.sub value start) (F32.sub end_ start)).

(** The operations the template [Interp] needs from its [ValueType]. *)
Class Interpolable (V : Type) : Type := {
  v_add : V -> V -> V;
  v_sub : V -> V -> V;
  v_scale : V -> float -> V
}.

#[export] Instance Interpolable_float : Interpolable float := {
  v_add := F32.add;
  v_sub := F32.sub;
  v_scale := F32.mul
}.

(** [Interp], utils.h:67-70. *)
Definition Interp {V : Type} `{Interpolable V}
    (start end_ : V) (interp_amount : float) : V :=
  v_add start (v_scale (v_sub end_ start) (Clamp01 interp_amount)).

(** The two [while] loops of the lambda [normalize_angle], utils.h:78-79.
    [fuel] bounds the number of times the loop condition is tested; [None]
    means the bound was reached with the condition still true. *)
Definition add_two_pi (angle : float) : float :=
  to_float (F64.add (to_double angle) two_pi).

Definition sub_two_pi (angle : float) : float :=
  to_float (F64.sub (to_double angle) two_pi).

Fixpoint raise_angle (fuel : nat) (angle : float) : option float :=
  match fuel with
  | O => None
  | S fuel' =>
      if ltb angle F32.zero then raise_angle fuel' (add_two_pi angle)
      else Some angle
  end.

Fixpoint lower_angle (fuel : nat) (angle : float) : option float :=
  match fuel with
  | O => None
  | S fuel' =>
      if gtb (to_double angle) two_pi then lower_angle fuel' (sub_two_pi angle)
      else Some angle
  end.

Definition bind {A B : Type} (o : option A) (k : A -> option B) : option B :=
  match o with
  | Some a => k a
  | None => None
  end.

Notation "x <- o ;; k" := (bind o (fun x => k))
  (at level 61, o at next level, right associativity).

(** [normalize_angle], utils.h:77-81. *)
Definition normalize_angle (fuel : nat) (angle : float) : option float :=
  a <- raise_angle fuel angle ;;
  lower_angle fuel a.

(** The adjustment of [end] by one turn, utils.h:85-90. *)
Definition shorter_arc_end (start end_ : float) : float :=
  let delta := F32.sub end_ start in
  if ltb (to_double delta) neg_pi then add_two_pi end_
  else if gtb (to_double delta) M_PI then sub_two_pi end_
  else end_.

(** [InterpAngle], utils.h:76-92. *)
Definition InterpAngle (fuel : nat) (start end_ interp_amount : float)
    : option float :=
  start' <- normalize_angle fuel start ;;
  end' <- normalize_angle fuel end_ ;;
  normalize_angle fuel
    (Interp start' (shorter_arc_end start' end') interp_amount).


(** ** types.h: the parts of [Vec2] and [Input] the two files use *)

Record Vec2 : Type := mkVec2 { x : float; y : float }.

(** Modelled from the spec: [operator-] on [Vec2] is declared in types.h,
    which is not part of the sources; the spec calls it component-wise
    subtraction. *)
Definition vec_sub (lhs rhs : Vec2) : Vec2 :=
  mkVec2 (F32.sub (x lhs) (x rhs)) (F32.sub (y lhs) (y rhs)).

(** Modelled from the spec: [operator==] on [Vec2] (types.h), equality of
    both components, with the equality of [float]. *)
Definition vec_eqb (lhs rhs : Vec2) : bool :=
  eqb (x lhs) (x rhs) && eqb (y lhs) (y rhs).

(** Modelled from the spec: [Vec2::IsFinite] (types.h): [x] and [y] are both
    neither NaN nor infinite. *)
Definition IsFinite (v : Vec2) : bool :=
  is_finite (x v) && is_finite (y v).

Section Distance.
(** [Vec2::Magnitude] is declared in types.h, which is not part of the
    sources: it is a parameter here. *)
Variable Magnitude : Vec2 -> float.

(** [Distance], utils.h:95-97. *)
Definition Distance (start end_ : Vec2) : float :=
  Magnitude (vec_sub end_ start).
End Distance.

(** The lambda [dot_product], utils.h:106-108. *)
Definition dot_product (lhs rhs : Vec2) : float :=
  F32.add (F32.mul (x lhs) (x rhs)) (F32.mul (y lhs) (y rhs)).

(** [NearestPointOnSegment], utils.h:102-113. *)
Definition NearestPointOnSegment (segment_start segment_end point : Vec2)
    : float :=
  if vec_eqb segment_start segment_end then F32.zero
  else
    let segment_vector := vec_sub segment_end segment_start in
    let projection_vector := vec_sub point segment_start in
    Clamp01 (F32.div (dot_product projection_vector segment_vector)
                     (dot_product segment_vector segment_vector)).

(** ** absl::Status *)

Inductive StatusCode : Type := kOk | kInvalidArgument.

Record Status : Type := mkStatus { code : StatusCode; message : string }.

Definition OkStatus : Status := mkStatus kOk EmptyString.

Definition InvalidArgumentError (msg : string) : Status :=
  mkStatus kInvalidArgument msg.

Definition ok (s : Status) : bool :=
  match code s with kOk => true | kInvalidArgument => false end.

Inductive StatusOr (A : Type) : Type :=
  | Value (v : A)
  | Failure (status : Status).
Arguments Value {A} v.
Arguments Failure {A} status.

(** The macro [RETURN_IF_ERROR], types.cc:12-15. *)
Definition RETURN_IF_ERROR (expr : Status) (rest : Status) : Status :=
  if ok expr then rest else expr.

(** ** types.cc *)

Section AbsoluteAngleTo.
(** [std::atan2] on [float], from the C library. *)
Variable atan2 : float -> float -> float.
(** [operator<<] on [Vec2], declared in types.h. *)
Variable show : Vec2 -> string.

(** [Vec2::AbsoluteAngleTo], types.cc:20-29, with every operation of
    [dot] and [det] rounded on its own (no contraction). *)
Definition AbsoluteAngleTo (self other : Vec2) : StatusOr float :=
  if negb (IsFinite self) || negb (IsFinite other) then
    Failure (InvalidArgumentError
               ("Non-finite inputs: this=" ++ show self
                ++ "; other=" ++ show other)%string)
  else
    let dot := F32.add (F32.mul (x self) (x other))
                       (F32.mul (y self) (y other)) in
    let det := F32.sub (F32.mul (x self) (y other))
                       (F32.mul (y self) (x other)) in
    Value (SFabs (atan2 det dot)).
End AbsoluteAngleTo.

(** *** Contraction of [dot] and [det]

    Lines 26 and 27 of types.cc each write two products and their sum or
    difference as one expression.  C++ lets a compiler contract such an
    expression: one of the two products is then not rounded but enters the
    sum exactly, in a fused multiply-add. *)

(** [std::fma] on [float]: [a * b + c] with one rounding.  The product of
    two finite numbers is exact with the mantissa [ma * mb] and the exponent
    [ea + eb], and the sum with [c] is rounded; when [c] is a zero the sum
    is the product, rounded.  In the other cases the product is a zero, an
    infinity or NaN, which [F32.mul] gives without rounding. *)
Definition fma (a b c : float) : float :=
  match a, b, c with
  | S754_finite sa ma ea, S754_finite sb mb eb, S754_zero _ => F32.mul a b
  | S754_finite sa ma ea, S754_finite sb mb eb, _ =>
      F32.add (S754_finite (xorb sa sb) (ma * mb) (ea + eb)) c
  | _, _, _ => F32.add (F32.mul a b) c
  end.

(** How [p * q + r * s] or [p * q - r * s] is evaluated: both products
    rounded ([Separate]), or one of them fused with the sum, the first
    ([FuseFirst]) or the second ([FuseSecond]). *)
Inductive Contraction : Type := Separate | FuseFirst | FuseSecond.

(** [x * other.x + y * other.y], types.cc:26. *)
Definition dot_under (c : Contraction) (lhs rhs : Vec2) : float :=
  match c with
  | Separate => F32.add (F32.mul (x lhs) (x rhs)) (F32.mul (y lhs) (y rhs))
  | FuseFirst => fma (x lhs) (x rhs) (F32.mul (y lhs) (y rhs))
  | FuseSecond => fma (y lhs) (y rhs) (F32.mul (x lhs) (x rhs))
  end.

(** [x * other.y - y * other.x], types.cc:27; [a - b] is [a + (-b)]. *)
Definition det_under (c : Contraction) (lhs rhs : Vec2) : float :=
  match c with
  | Separate => F32.sub (F32.mul (x lhs) (y rhs)) (F32.mul (y lhs) (x rhs))
  | FuseFirst => fma (x lhs) (y rhs) (SFopp (F32.mul (y lhs) (x rhs)))
  | FuseSecond => fma (SFopp (y lhs)) (x rhs) (F32.mul (x lhs) (y rhs))
  end.

Section AbsoluteAngleTo_under.
Variable atan2 : float -> float -> float.
Variable show : Vec2 -> string.

(** [Vec2::AbsoluteAngleTo], types.cc:20-29, for a given evaluation of
    [dot] and of [det]; with [Separate] for both it is [AbsoluteAngleTo]. *)
Definition AbsoluteAngleTo_under (cdot cdet : Contraction)
    (self other : Vec2) : StatusOr float :=
  if negb (IsFinite self) || negb (IsFinite other) then
    Failure (InvalidArgumentError
               ("Non-finite inputs: this=" ++ show self
                ++ "; other=" ++ show other)%string)
  else
    let dot := dot_under cdot self other in
    let det := det_under cdet self other in
    Value (SFabs (atan2 det dot)).
End AbsoluteAngleTo_under.

(** Modelled from the spec: the enumeration [Input::EventType] is declared
    in types.h, which is not part of the sources.  An object of the
    enumeration holds an integer; the spec lists the enumerators as Down,
    Move, Up, and any other integer is an unknown tag. *)
Definition EventType : Type := Z.
Definition kDown : EventType := 0.
Definition kMove : EventType := 1.
Definition kUp : EventType := 2.

(** Modelled from the spec: the struct [Input] of types.h, with the fields
    the spec lists.  [time] holds what [Time::Value()] returns. *)
Record Input : Type := mkInput {
  event_type : EventType;
  position : Vec2;
  time : double;
  pressure : float;
  tilt : float;
  orientation : float
}.

(** Modelled from the spec: [ValidateIsFiniteNumber] is defined in
    internal/validation.h, which is not part of the sources.  The spec says
    the value must be finite (not NaN, not infinite) and that the failure is
    an invalid-argument error with a message identifying the field; the
    message starts with the label the caller passes, the wording after it is
    not specified. *)
Definition ValidateIsFiniteNumber (value : spec_float) (label : string)
    : Status :=
  if is_finite value then OkStatus
  else InvalidArgumentError (label ++ " is not finite.")%string.

(** [ValidateInput], types.cc:31-47. *)
Definition ValidateInput (input : Input) : Status :=
  if Z.eqb (event_type input) kUp || Z.eqb (event_type input) kMove
     || Z.eqb (event_type input) kDown
  then
    RETURN_IF_ERROR
      (ValidateIsFiniteNumber (x (position input)) "Input.position.x"%string)
      (RETURN_IF_ERROR
         (ValidateIsFiniteNumber (y (position input)) "Input.position.y"%string)
         (RETURN_IF_ERROR
            (ValidateIsFiniteNumber (time input) "Input.time"%string)
            OkStatus))
  else InvalidArgumentError "Unknown Input.event_type."%string.

(** ** Vocabulary of the properties *)

(** Number of binary digits *)
Definition digits (p : positive) : Z := Zpos (digits2_pos p).

(** [mrs] holds the quotient of [M] by [2^k]. *)
Definition quotient_of (M : Z) (k : Z) (mrs : shr_record) : Prop :=
  0 <= shr_m mrs /\
  shr_m mrs * 2 ^ k <= M < (shr_m mrs + 1) * 2 ^ k.

(** The value [binary_round_aux] builds from the final mantissa. *)
Definition pack (prec emax : Z) (s : bool) (m e : Z) : spec_float :=
  match m with
  | Z0 => S754_zero s
  | Zpos p =>
      if e <=? emax - prec then S754_finite s p e else S754_infinity s
  | Zneg _ => S754_nan
  end.

(** Membership in the closed interval [[0, 1]]. *)
Definition in_unit_interval (f : float) : bool :=
  leb F32.zero f && leb f F32.one.

Definition known_event_type (t : EventType) : Prop :=
  t = kDown \/ t = kMove \/ t = kUp.

(** A status that is an invalid-argument error whose message starts with
    [label]. *)
Definition invalid_argument_naming (label : string) (s : Status) : Prop :=
  code s = kInvalidArgument /\ String.prefix label (message s) = true.

(** The two quantities [det] and [dot] of types.cc:26-27; [dot] is
    [dot_product]. *)
Definition cross_product (lhs rhs : Vec2) : float :=
  F32.sub (F32.mul (x lhs) (y rhs)) (F32.mul (y lhs) (x rhs)).

(** [(float) M_PI], the largest value [atan2] returns on [float]. *)
Definition pi_f : float := to_float M_PI.

(** [(float) M_PI_2]. *)
Definition half_pi_f : float := F32.div pi_f (F32.of_Z 2).

Definition sign_bit (f : spec_float) : bool :=
  match f with
  | S754_zero s | S754_infinity s | S754_finite s _ _ => s
  | S754_nan => false
  end.

Definition is_zero (f : spec_float) : bool :=
  match f with S754_zero _ => true | _ => false end.

(** [std::copysign] restricted to a non-negative first argument. *)
Definition with_sign_of (magnitude y : float) : float :=
  if sign_bit y then SFopp magnitude else magnitude.

(** A coarse stand-in for [std::atan2], used only to show that the
    assumptions made about [std::atan2] below can be met.  It follows Annex F
    of the C standard where [y] is a zero (the result is a zero or [pi] with
    the sign of [y]) and for NaN arguments, and returns [pi/2] with the sign
    of [y] everywhere else. *)
Definition atan2_axes (y x : float) : float :=
  if is_nan y || is_nan x then S754_nan
  else if is_zero y then
    (if sign_bit x then with_sign_of pi_f y else with_sign_of F32.zero y)
  else with_sign_of half_pi_f y.

Definition no_show (v : Vec2) : string := EmptyString.

(** The finite vectors [(2^127, 2^127)] and [(2, 2)]: both products
    overflow. *)
Definition two_pow_127 : float := S754_finite false 8388608 104.
Definition v_huge : Vec2 := mkVec2 two_pow_127 two_pow_127.
Definition v_two : Vec2 := mkVec2 (F32.of_Z 2) (F32.of_Z 2).

(** The nearly parallel vectors [(1, 1 + 2^-13)] and [(1 - 2^-13, 1)],
    whose exact cross product is [2^-26], and the float [2^-26]. *)
Definition a_skew : Vec2 := mkVec2 F32.one (S754_finite false 8389632 (-23)).
Definition b_skew : Vec2 := mkVec2 (S754_finite false 16775168 (-24)) F32.one.
Definition two_pow_m26 : float := S754_finite false 8388608 (-49).

(** The quotient [Normalize01] clamps, utils.h:62. *)
Definition fraction_of (start end_ value : float) : float :=
  F32.div (F32.sub value start) (F32.sub end_ start).

(** [FLT_MAX]. *)
Definition flt_max : float := SFmax_float F32.prec F32.emax.

(** The quotient [NearestPointOnSegment] clamps, utils.h:109-112. *)
Definition projection_fraction (segment_start segment_end point : Vec2)
    : float :=
  F32.div
    (dot_product (vec_sub point segment_start)
                 (vec_sub segment_end segment_start))
    (dot_product (vec_sub segment_end segment_start)
                 (vec_sub segment_end segment_start)).

(** The normal [float] [2^-100]. *)
Definition two_pow_m100 : float := S754_finite false 8388608 (-123).

(** The [float] [2^100]. *)
Definition two_pow_100 : float := S754_finite false 8388608 77.

(** The direct evaluation of the Euclidean norm [sqrt (x * x + y * y)] in
    [float], one of the functions [Vec2::Magnitude] may be; it is used only
    to run [Distance] on examples. *)
Definition Magnitude_sqrt (v : Vec2) : float :=
  SFsqrt F32.prec F32.emax
    (F32.add (F32.mul (x v) (x v)) (F32.mul (y v) (y v))).

(** What the claims about [Distance] need from a norm, at the vector [v]:
    it is not negative when [v] has no NaN coordinate, and it is zero
    exactly when both coordinates of [v] are zeros. *)
Definition norm_at (Magnitude : Vec2 -> float) (v : Vec2) : Prop :=
  (is_nan (x v) = false -> is_nan (y v) = false ->
     leb F32.zero (Magnitude v) = true) /\
  (eqb (Magnitude v) F32.zero = true <->
     is_zero (x v) = true /\ is_zero (y v) = true).

Definition valid_vec (v : Vec2) : bool := F32.valid (x v) && F32.valid (y v).

(** The value of a finite number, multiplied by [2^1074]: an integer for
    every binary32 and every binary64 number. *)
Definition scaled (f : spec_float) : Z :=
  match f with
  | S754_finite s m e => cond_Zopp s (Zpos m * 2 ^ (e + 1074))
  | _ => 0
  end.

(** The bound on the rounding error of a result below [2^B] in absolute
    value, in the same unit. *)
Definition ulp_bound (prec B : Z) : Z := 2 ^ (B - prec + 1 + 1074).

(** A finite number in canonical form. *)
Definition fin (prec emax : Z) (f : spec_float) : Prop :=
  valid_binary prec emax f = true /\ is_finite f = true.

Definition fin32 (f : float) : Prop := fin F32.prec F32.emax f.
Definition fin64 (d : double) : Prop := fin F64.prec F64.emax d.

(** The value 1 in the unit of [scaled]. *)
Definition unit_scaled : Z := 2 ^ 1074.

(** Error bounds, in the same unit, of one binary32 and one binary64
    operation whose result is below 32 in absolute value. *)
Definition err32 : Z := ulp_bound F32.prec 5.
Definition err64 : Z := ulp_bound F64.prec 5.

(** [2 * M_PI] and [M_PI] in the unit of [scaled]. *)
Definition two_pi_scaled : Z := scaled two_pi.
Definition pi_scaled : Z := scaled M_PI.

(** The largest distance between the normalized start and the adjusted
    end: [pi], and the rounding errors of the three operations involved. *)
Definition span_bound : Z := pi_scaled + 2 * err32 + err64.

(** * Floating-point arithmetic *)

(** ** Rounding *)

Lemma digits_pos (p : positive) : 0 < digits p.
Proof. unfold digits. lia. Qed.

Lemma digits_bounds (p : positive) :
  2 ^ (digits p - 1) <= Zpos p < 2 ^ digits p.
Proof.
  unfold digits. induction p as [p IH|p IH|]; simpl digits2_pos.
  - rewrite Pos2Z.inj_succ.
    replace (Z.succ (Zpos (digits2_pos p)) - 1) with (Z.succ (Zpos (digits2_pos p) - 1)) by lia.
    rewrite !Z.pow_succ_r by lia. lia.
  - rewrite Pos2Z.inj_succ.
    replace (Z.succ (Zpos (digits2_pos p)) - 1) with (Z.succ (Zpos (digits2_pos p) - 1)) by lia.
    rewrite !Z.pow_succ_r by lia. lia.
  - simpl. lia.
Qed.

Lemma digits_unique (p : positive) (k : Z) :
  2 ^ (k - 1) <= Zpos p < 2 ^ k -> digits p = k.
Proof.
  intros [Hlo Hhi]. pose proof (digits_bounds p) as [Dlo Dhi].
  pose proof (digits_pos p) as Dp.
  assert (Hk : 0 < k).
  { destruct (Z.ltb_spec 0 k) as [|Hk]; [assumption|].
    destruct (Z.eq_dec k 0) as [->|]; [simpl in Hhi; lia|].
    rewrite Z.pow_neg_r in Hhi by lia. lia. }
  destruct (Z.lt_trichotomy (digits p) k) as [Hlt|[Heq|Hgt]]; [|assumption|].
  - assert (2 ^ digits p <= 2 ^ (k - 1)) by (apply Z.pow_le_mono_r; lia). lia.
  - assert (2 ^ k <= 2 ^ (digits p - 1)) by (apply Z.pow_le_mono_r; lia). lia.
Qed.

Lemma iter_xO_spec (k : positive) (p : positive) :
  Zpos (Pos.iter xO p k) = Zpos p * 2 ^ Zpos k.
Proof.
  revert p. induction k using Pos.peano_ind; intros p.
  - simpl. lia.
  - rewrite Pos.iter_succ, Pos2Z.inj_xO, IHk.
    rewrite Pos2Z.inj_succ, Z.pow_succ_r by lia. lia.
Qed.

Lemma digits_shift (p : positive) (k : positive) :
  digits (Pos.iter xO p k) = digits p + Zpos k.
Proof.
  apply digits_unique. rewrite iter_xO_spec.
  pose proof (digits_bounds p) as [Dlo Dhi].
  pose proof (digits_pos p).
  replace (digits p + Zpos k - 1) with ((digits p - 1) + Zpos k) by lia.
  rewrite !Z.pow_add_r by lia.
  assert (0 < 2 ^ Zpos k) by (apply Z.pow_pos_nonneg; lia).
  nia.
Qed.

Lemma iter_pos_invariant {A : Type} (f : A -> A) (P : Z -> A -> Prop) :
  (forall k x, 0 <= k -> P k x -> P (k + 1) (f x)) ->
  forall (p : positive) (k : Z) (x : A),
    0 <= k -> P k x -> P (k + Zpos p) (iter_pos f p x).
Proof.
  intros Hstep. induction p as [p IH|p IH|]; intros k x Hk Hx; simpl.
  - replace (k + Zpos p~1) with ((k + 1 + Zpos p) + Zpos p) by lia.
    apply IH; [lia|]. apply IH; [lia|]. now apply Hstep.
  - replace (k + Zpos p~0) with ((k + Zpos p) + Zpos p) by lia.
    apply IH; [lia|]. now apply IH.
  - now apply Hstep.
Qed.

Lemma shr_1_quotient (M k : Z) (mrs : shr_record) :
  0 <= k -> quotient_of M k mrs -> quotient_of M (k + 1) (shr_1 mrs).
Proof.
  intros Hk [Hm [Hlo Hhi]]. unfold quotient_of.
  rewrite Z.pow_add_r by lia. change (2 ^ 1) with 2.
  assert (0 < 2 ^ k) by (apply Z.pow_pos_nonneg; lia).
  destruct mrs as [m r s]. cbn [shr_m] in *.
  set (q := 2 ^ k) in *.
  destruct m as [|[p|p|]|p]; cbn [shr_1 shr_m]; lia.
Qed.

Lemma shr_record_of_loc_m (m : Z) (l : location) :
  shr_m (shr_record_of_loc m l) = m.
Proof. now destruct l as [|[]]. Qed.

Lemma shr_quotient (m : Z) (l : location) (e n : Z) :
  0 <= m ->
  quotient_of m (Z.max 0 n) (fst (shr (shr_record_of_loc m l) e n)) /\
  snd (shr (shr_record_of_loc m l) e n) = e + Z.max 0 n.
Proof.
  intros Hm.
  assert (Q0 : quotient_of m 0 (shr_record_of_loc m l)).
  { unfold quotient_of. rewrite shr_record_of_loc_m. simpl. lia. }
  destruct n as [|p|p]; simpl.
  - split; [exact Q0 | lia].
  - split; [|reflexivity].
    replace (Zpos p) with (0 + Zpos p) by lia.
    apply (iter_pos_invariant shr_1 (quotient_of m)); try lia; try assumption.
    intros k x Hk Hx. now apply shr_1_quotient.
  - split; [exact Q0 | lia].
Qed.

Lemma round_nearest_even_cases (m : Z) (l : location) :
  round_nearest_even m l = m \/ round_nearest_even m l = m + 1.
Proof.
  destruct l as [|[]]; simpl; auto. destruct (Z.even m); auto.
Qed.

Lemma pow2_pos (k : Z) : 0 <= k -> 0 < 2 ^ k.
Proof. intros. apply Z.pow_pos_nonneg; lia. Qed.

Lemma pow2_split (a b : Z) : 0 <= a -> 0 <= b -> 2 ^ (a + b) = 2 ^ a * 2 ^ b.
Proof. intros. apply Z.pow_add_r; assumption. Qed.

Lemma pow2_le (a b : Z) : 0 <= a <= b -> 2 ^ a <= 2 ^ b.
Proof. intros. apply Z.pow_le_mono_r; lia. Qed.

(** Digits of a non-negative integer. *)
Lemma Zdigits2_pos (p : positive) : Zdigits2 (Zpos p) = digits p.
Proof. reflexivity. Qed.

Lemma Zdigits2_unique (q k : Z) :
  0 < k -> 2 ^ (k - 1) <= q < 2 ^ k -> Zdigits2 q = k.
Proof.
  intros Hk H. assert (0 < 2 ^ (k - 1)) by (apply pow2_pos; lia).
  destruct q as [|p|p]; try lia. now apply digits_unique.
Qed.

Lemma quotient_positive (m : positive) (n q : Z) :
  0 <= n < digits m -> 0 <= q ->
  q * 2 ^ n <= Zpos m < (q + 1) * 2 ^ n ->
  2 ^ (digits m - n - 1) <= q < 2 ^ (digits m - n).
Proof.
  intros Hn Hq [Hlo Hhi]. pose proof (digits_bounds m) as [Dlo Dhi].
  assert (E1 : 2 ^ (digits m - 1) = 2 ^ (digits m - n - 1) * 2 ^ n).
  { rewrite <- pow2_split by lia. f_equal. lia. }
  assert (E2 : 2 ^ (digits m - n) = 2 ^ (digits m - n - 1) * 2).
  { change 2 with (2 ^ 1) at 3. rewrite <- pow2_split by lia. f_equal. lia. }
  assert (E3 : 2 ^ digits m = 2 ^ (digits m - n) * 2 ^ n).
  { rewrite <- pow2_split by lia. f_equal. lia. }
  rewrite E3, E2 in Dhi. rewrite E1 in Dlo. rewrite E2.
  assert (0 < 2 ^ n) by (apply pow2_pos; lia).
  assert (0 < 2 ^ (digits m - n - 1)) by (apply pow2_pos; lia).
  set (a := 2 ^ (digits m - n - 1)) in *. set (b := 2 ^ n) in *.
  nia.
Qed.

Lemma quotient_zero (m : positive) (n q : Z) :
  digits m <= n -> 0 <= q ->
  q * 2 ^ n <= Zpos m < (q + 1) * 2 ^ n -> q = 0.
Proof.
  intros Hn Hq [Hlo Hhi]. pose proof (digits_bounds m) as [Dlo Dhi].
  pose proof (digits_pos m).
  assert (2 ^ digits m <= 2 ^ n) by (apply pow2_le; lia).
  assert (0 < 2 ^ n) by (apply pow2_pos; lia). nia.
Qed.

Section Round.
Variables prec emax : Z.
Hypothesis Hprec : 0 < prec.
Hypothesis Hemax : 3 <= emax.

Local Abbreviation fexp := (SpecFloat.fexp prec emax).

Lemma fexp_spec (k : Z) : fexp k = Z.max (k - prec) (3 - emax - prec).
Proof. reflexivity. Qed.

Lemma binary_round_aux_pack (s : bool) (m e : Z) (l : location) :
  binary_round_aux prec emax s m e l
  = pack prec emax s
      (shr_m (fst (shr_fexp prec emax
                     (round_nearest_even
                        (shr_m (fst (shr_fexp prec emax m e l)))
                        (loc_of_shr_record (fst (shr_fexp prec emax m e l))))
                     (snd (shr_fexp prec emax m e l)) loc_Exact)))
      (snd (shr_fexp prec emax
              (round_nearest_even
                 (shr_m (fst (shr_fexp prec emax m e l)))
                 (loc_of_shr_record (fst (shr_fexp prec emax m e l))))
              (snd (shr_fexp prec emax m e l)) loc_Exact)).
Proof.
  unfold binary_round_aux.
  destruct (shr_fexp prec emax m e l) as [mrs' e']. cbn [fst snd].
  destruct (shr_fexp prec emax _ e' loc_Exact) as [mrs'' e'']. reflexivity.
Qed.

Lemma shr_no_shift (mrs : shr_record) (e n : Z) :
  n <= 0 -> shr mrs e n = (mrs, e).
Proof. intros H. destruct n; try reflexivity. lia. Qed.

Lemma binary_round_aux_no_shift (s : bool) (m : positive) (e : Z) :
  fexp (digits m + e) <= e ->
  binary_round_aux prec emax s (Zpos m) e loc_Exact = pack prec emax s (Zpos m) e.
Proof.
  intros H. rewrite binary_round_aux_pack.
  assert (E1 : shr_fexp prec emax (Zpos m) e loc_Exact
               = (shr_record_of_loc (Zpos m) loc_Exact, e)).
  { unfold shr_fexp. apply shr_no_shift.
    change (Zdigits2 (Zpos m)) with (digits m). lia. }
  rewrite E1. cbn [fst snd shr_record_of_loc shr_m loc_of_shr_record
                   round_nearest_even].
  rewrite E1. reflexivity.
Qed.

Lemma fexp_le_succ (k : Z) : fexp k <= fexp (k + 1) <= fexp k + 1.
Proof. unfold SpecFloat.fexp. lia. Qed.

Lemma canonical_iff (p : positive) (e : Z) :
  canonical_mantissa prec emax p e = true <-> fexp (digits p + e) = e.
Proof. unfold canonical_mantissa. apply Z.eqb_eq. Qed.

Lemma shr_fexp_zero (E : Z) :
  SpecFloat.emin prec emax <= E ->
  shr_fexp prec emax 0 E loc_Exact = (shr_record_of_loc 0 loc_Exact, E).
Proof.
  intros H. unfold shr_fexp. apply shr_no_shift.
  cbn [Zdigits2]. unfold SpecFloat.fexp, SpecFloat.emin in *. lia.
Qed.

Lemma shr_fexp_fits (p : positive) (E : Z) :
  fexp (digits p + E) <= E ->
  shr_fexp prec emax (Zpos p) E loc_Exact
  = (shr_record_of_loc (Zpos p) loc_Exact, E).
Proof.
  intros H. unfold shr_fexp. apply shr_no_shift.
  rewrite Zdigits2_pos. lia.
Qed.

Lemma shr_fexp_carry (j E : Z) :
  1 <= j -> fexp (j + 1 + E) = E + 1 ->
  shr_m (fst (shr_fexp prec emax (2 ^ j) E loc_Exact)) = 2 ^ (j - 1) /\
  snd (shr_fexp prec emax (2 ^ j) E loc_Exact) = E + 1.
Proof.
  intros Hj Hf. unfold shr_fexp.
  assert (D : Zdigits2 (2 ^ j) = j + 1).
  { apply Zdigits2_unique; [lia|].
    replace (j + 1 - 1) with j by lia. rewrite pow2_split by lia.
    change (2 ^ 1) with 2. assert (0 < 2 ^ j) by (apply pow2_pos; lia).
    lia. }
  rewrite D, Hf. replace (E + 1 - E) with 1 by lia.
  assert (P : 0 <= 2 ^ j) by (apply Z.lt_le_incl, pow2_pos; lia).
  destruct (shr_quotient (2 ^ j) loc_Exact E 1 P) as [[Q0 [Qlo Qhi]] Qe].
  split; [|rewrite Qe; lia].
  change (Z.max 0 1) with 1 in *. change (2 ^ 1) with 2 in *.
  assert (Ej : 2 ^ j = 2 ^ (j - 1) * 2).
  { change 2 with (2 ^ 1) at 3. rewrite <- pow2_split by lia.
    f_equal. lia. }
  set (q := shr_m (fst (shr (shr_record_of_loc (2 ^ j) loc_Exact) E 1))) in *.
  lia.
Qed.

Lemma pack_shr_record (s : bool) (m E : Z) :
  pack prec emax s (shr_m (fst (shr_record_of_loc m loc_Exact, E)))
         (snd (shr_record_of_loc m loc_Exact, E)) = pack prec emax s m E.
Proof. reflexivity. Qed.

(** Rounding a mantissa that has to be shifted right. *)
Lemma binary_round_aux_shift (s : bool) (m : positive) (e : Z) :
  e < fexp (digits m + e) ->
  exists m' e' : Z,
    binary_round_aux prec emax s (Zpos m) e loc_Exact = pack prec emax s m' e' /\
    0 <= m' /\
    fexp (digits m + e) <= e' <= fexp (digits m + e) + 1 /\
    (m' - 1) * 2 ^ (e' - e) <= Zpos m <= (m' + 1) * 2 ^ (e' - e) /\
    (forall p : positive,
       m' = Zpos p -> canonical_mantissa prec emax p e' = true) /\
    (fexp (digits m + e) - e < digits m ->
       2 ^ (digits m - 1) <= m' * 2 ^ (e' - e) <= 2 ^ digits m).
Proof.
  intros Hn. rewrite binary_round_aux_pack.
  set (d := digits m) in *. set (E := fexp (d + e)) in *.
  set (n := E - e) in *.
  assert (Hn' : 0 < n) by (unfold n; lia).
  assert (Hd : 0 < d) by apply digits_pos.
  assert (HE : SpecFloat.emin prec emax <= E)
    by (unfold E, SpecFloat.fexp, SpecFloat.emin; lia).
  assert (S1 : shr_fexp prec emax (Zpos m) e loc_Exact
               = shr (shr_record_of_loc (Zpos m) loc_Exact) e n)
    by reflexivity.
  rewrite S1.
  destruct (shr_quotient (Zpos m) loc_Exact e n ltac:(lia))
    as [[Q0 [Qlo Qhi]] Qe].
  replace (Z.max 0 n) with n in * by lia.
  replace (e + n) with E in Qe by (unfold n; lia).
  rewrite Qe.
  set (mrs1 := fst (shr (shr_record_of_loc (Zpos m) loc_Exact) e n)) in *.
  set (q1 := shr_m mrs1) in *.
  assert (Pn : 0 < 2 ^ n) by (apply pow2_pos; lia).
  destruct (Z_lt_le_dec n d) as [Hnd|Hnd].
  - (* the quotient is positive *)
    destruct (quotient_positive m n q1 ltac:(fold d; lia) Q0 (conj Qlo Qhi))
      as [Plo Phi]. fold d in Plo, Phi.
    assert (E1 : 2 ^ (d - 1) = 2 ^ (d - n - 1) * 2 ^ n).
    { rewrite <- pow2_split by lia. f_equal. lia. }
    assert (E2 : 2 ^ d = 2 ^ (d - n) * 2 ^ n).
    { rewrite <- pow2_split by lia. f_equal. lia. }
    assert (E3 : 2 ^ (d - n) = 2 ^ (d - n - 1) * 2).
    { change 2 with (2 ^ 1) at 3. rewrite <- pow2_split by lia.
      f_equal. lia. }
    assert (Pa : 0 < 2 ^ (d - n - 1)) by (apply pow2_pos; lia).
    assert (Hfit : forall m2 : Z,
               2 ^ (d - n - 1) <= m2 < 2 ^ (d - n) ->
               q1 <= m2 <= q1 + 1 ->
               exists m' e' : Z,
                 pack prec emax s (shr_m (fst (shr_fexp prec emax m2 E loc_Exact)))
                        (snd (shr_fexp prec emax m2 E loc_Exact))
                 = pack prec emax s m' e' /\
                 0 <= m' /\ E <= e' <= E + 1 /\
                 (m' - 1) * 2 ^ (e' - e) <= Zpos m
                   <= (m' + 1) * 2 ^ (e' - e) /\
                 (forall p : positive,
                    m' = Zpos p ->
                    canonical_mantissa prec emax p e' = true) /\
                 (n < d -> 2 ^ (d - 1) <= m' * 2 ^ (e' - e) <= 2 ^ d)).
    { intros m2 Hm2 Hq. destruct m2 as [|p2|p2]; try lia.
      assert (D2 : digits p2 = d - n).
      { apply digits_unique. replace (d - n - 1) with (d - n - 1) by lia.
        exact Hm2. }
      assert (F2 : fexp (digits p2 + E) = E).
      { rewrite D2. replace (d - n + E) with (d + e) by (unfold n; lia).
        reflexivity. }
      rewrite shr_fexp_fits by lia. rewrite pack_shr_record.
      exists (Zpos p2), E. replace (E - e) with n by reflexivity.
      split; [reflexivity|]. split; [lia|]. split; [lia|].
      split; [nia|]. split.
      - intros p [= <-]. now apply canonical_iff.
      - intros _. nia. }
    destruct (round_nearest_even_cases q1 (loc_of_shr_record mrs1))
      as [R|R]; rewrite R.
    + apply Hfit; lia.
    + destruct (Z_lt_le_dec (q1 + 1) (2 ^ (d - n))) as [Hc|Hc].
      * apply Hfit; lia.
      * (* the mantissa carries into a new digit *)
        assert (Eq1 : q1 + 1 = 2 ^ (d - n)) by lia. rewrite Eq1.
        destruct (fexp_le_succ (d + e)) as [Flo Fhi]. fold E in Flo, Fhi.
        destruct (Z.eq_dec (fexp (d + e + 1)) E) as [Fe|Fe].
        -- assert (Dp : Zdigits2 (2 ^ (d - n)) = d - n + 1).
           { apply Zdigits2_unique; [lia|].
             replace (d - n + 1 - 1) with (d - n) by lia.
             replace (d - n + 1) with ((d - n) + 1) by lia.
             rewrite (pow2_split (d - n) 1) by lia. change (2 ^ 1) with 2.
             lia. }
           assert (P2 : 0 < 2 ^ (d - n)) by (apply pow2_pos; lia).
           destruct (2 ^ (d - n)) as [|p2|p2] eqn:Ep; try lia.
           rewrite Zdigits2_pos in Dp.
           rewrite shr_fexp_fits
             by (rewrite Dp; replace (d - n + 1 + E) with (d + e + 1)
                   by (unfold n; lia); lia).
           rewrite pack_shr_record.
           exists (Zpos p2), E. replace (E - e) with n by reflexivity.
           split; [reflexivity|]. split; [lia|]. split; [lia|].
           split; [nia|]. split.
           ++ intros p [= <-]. apply canonical_iff. rewrite Dp.
              replace (d - n + 1 + E) with (d + e + 1) by (unfold n; lia).
              exact Fe.
           ++ intros _. nia.
        -- assert (Fe' : fexp (d - n + 1 + E) = E + 1).
           { replace (d - n + 1 + E) with (d + e + 1) by (unfold n; lia).
             lia. }
           destruct (shr_fexp_carry (d - n) E ltac:(lia) Fe') as [Cm Ce].
           rewrite Cm, Ce.
           exists (2 ^ (d - n - 1)), (E + 1).
           replace (E + 1 - e) with (n + 1) by (unfold n; lia).
           rewrite (pow2_split n 1) by lia. change (2 ^ 1) with 2.
           split; [reflexivity|]. split; [lia|]. split; [lia|].
           split; [nia|]. split.
           ++ intros p Hp. apply canonical_iff.
              assert (Dp : digits p = d - n).
              { apply digits_unique. rewrite <- Hp.
                replace (d - n - 1) with (d - n - 1) by lia. lia. }
              rewrite Dp.
              replace (d - n + (E + 1)) with (d + e + 1) by (unfold n; lia).
              lia.
           ++ intros _. nia.
  - (* everything is shifted out *)
    assert (Hq1 : q1 = 0)
      by (apply (quotient_zero m n q1); [fold d; lia | lia | lia]).
    assert (Emin : E = SpecFloat.emin prec emax).
    { unfold E, SpecFloat.fexp, SpecFloat.emin in *. unfold n in Hnd. lia. }
    destruct (round_nearest_even_cases q1 (loc_of_shr_record mrs1))
      as [R|R]; rewrite R, Hq1.
    + rewrite shr_fexp_zero by lia. rewrite pack_shr_record.
      exists 0, E. replace (E - e) with n by reflexivity.
      split; [reflexivity|]. split; [lia|]. split; [lia|].
      split; [lia|]. split; [discriminate | lia].
    + change (0 + 1) with (Zpos 1).
      assert (F1 : fexp (digits 1 + E) = E).
      { rewrite Emin. unfold SpecFloat.fexp, SpecFloat.emin, digits.
        simpl digits2_pos. lia. }
      rewrite shr_fexp_fits by lia. rewrite pack_shr_record.
      exists 1, E. replace (E - e) with n by reflexivity.
      split; [reflexivity|]. split; [lia|]. split; [lia|].
      split; [lia|]. split.
      * intros p [= <-]. now apply canonical_iff.
      * lia.
Qed.

Lemma pack_not_nan (s : bool) (m e : Z) :
  0 <= m ->
  pack prec emax s m e = S754_zero s \/ pack prec emax s m e = S754_infinity s \/
  exists p : positive, m = Zpos p /\ e <= emax - prec /\
                       pack prec emax s m e = S754_finite s p e.
Proof.
  intros Hm. destruct m as [|p|p]; [now left| |lia]. right. simpl.
  destruct (Z.leb_spec e (emax - prec)); [right; now exists p | now left].
Qed.

(** Rounding never produces a NaN and keeps the sign it is given. *)
Lemma binary_round_aux_not_nan (s : bool) (m e : Z) (l : location) :
  0 <= m ->
  exists m' e' : Z,
    0 <= m' /\ binary_round_aux prec emax s m e l = pack prec emax s m' e'.
Proof.
  intros Hm. rewrite binary_round_aux_pack.
  destruct (shr_quotient m l e (fexp (Zdigits2 m + e) - e) Hm)
    as [[Q0 _] _].
  change (shr (shr_record_of_loc m l) e (fexp (Zdigits2 m + e) - e))
    with (shr_fexp prec emax m e l) in Q0.
  set (sh1 := shr_fexp prec emax m e l) in *.
  assert (H2 : 0 <= round_nearest_even (shr_m (fst sh1))
                      (loc_of_shr_record (fst sh1))).
  { destruct (round_nearest_even_cases (shr_m (fst sh1))
                (loc_of_shr_record (fst sh1))) as [R|R]; rewrite R; lia. }
  set (m2 := round_nearest_even _ _) in *.
  destruct (shr_quotient m2 loc_Exact (snd sh1)
              (fexp (Zdigits2 m2 + snd sh1) - snd sh1) H2) as [[Q3 _] _].
  eexists _, _. split; [exact Q3 | reflexivity].
Qed.

(** [binary_round]: the result is canonical, of the sign given, and within
    one unit of its last place of the value given. *)
Lemma binary_round_spec (s : bool) (m : positive) (e : Z) :
  exists m' e' : Z,
    binary_round prec emax s m e = pack prec emax s m' e' /\
    0 <= m' /\
    fexp (digits m + e) <= e' <= fexp (digits m + e) + 1 /\
    (forall p : positive,
       m' = Zpos p -> canonical_mantissa prec emax p e' = true) /\
    (e' <= e -> m' = Zpos m * 2 ^ (e - e')) /\
    (e < e' ->
       (m' - 1) * 2 ^ (e' - e) <= Zpos m <= (m' + 1) * 2 ^ (e' - e)) /\
    (e < e' -> fexp (digits m + e) - e < digits m ->
       2 ^ (digits m - 1) <= m' * 2 ^ (e' - e) <= 2 ^ digits m).
Proof.
  unfold binary_round, shl_align.
  change (Zpos (digits2_pos m)) with (digits m).
  set (d := digits m). set (E := fexp (d + e)).
  assert (Hd : 0 < d) by apply digits_pos.
  destruct (E - e) as [|k|k] eqn:Ek; cbv beta iota.
  - (* already aligned *)
    rewrite binary_round_aux_no_shift by (fold d E; lia).
    exists (Zpos m), e. replace (e - e) with 0 by lia.
    split; [reflexivity|]. split; [lia|]. split; [lia|]. split.
    + intros p [= <-]. apply canonical_iff. fold d E. lia.
    + split; [simpl; lia|]. split; lia.
  - (* to be shifted right *)
    destruct (binary_round_aux_shift s m e ltac:(fold d E; lia))
      as (m' & e' & Hr & H0 & He & Herr & Hcan & Hb).
    fold d E in He, Hb.
    exists m', e'. split; [exact Hr|]. split; [exact H0|].
    split; [exact He|]. split; [exact Hcan|].
    split; [lia|]. split; [intros _; exact Herr|].
    intros _ Hk. apply Hb. lia.
  - (* shifted left: exact *)
    assert (Dz : digits (Pos.iter xO m k) + E = d + e).
    { rewrite digits_shift. fold d. lia. }
    rewrite binary_round_aux_no_shift by (rewrite Dz; fold E; lia).
    exists (Zpos (Pos.iter xO m k)), E.
    split; [reflexivity|]. split; [lia|]. split; [lia|]. split.
    + intros p [= <-]. apply canonical_iff. rewrite Dz. reflexivity.
    + split; [|split; lia].
      intros _. rewrite iter_xO_spec. f_equal. f_equal. lia.
Qed.
End Round.

(** ** Order on floating-point values *)

Lemma SFcompare_antisym (a b : spec_float) :
  SFcompare a b = option_map CompOpp (SFcompare b a).
Proof.
  destruct a as [sa|sa| |sa ma ea], b as [sb|sb| |sb mb eb];
    try destruct sa; try destruct sb; simpl; try reflexivity;
    rewrite (Z.compare_antisym ea eb);
    destruct (ea ?= eb); simpl; try reflexivity;
    now rewrite (ZC4 ma mb).
Qed.

Lemma SFcompare_nan_iff (a b : spec_float) :
  SFcompare a b = None <-> is_nan a = true \/ is_nan b = true.
Proof.
  destruct a as [sa|sa| |sa ma ea], b as [sb|sb| |sb mb eb]; simpl;
    split; intros H; try discriminate; auto;
    try (destruct H; discriminate).
Qed.

Lemma not_ltb_leb (a b : spec_float) :
  is_nan a = false -> is_nan b = false ->
  ltb a b = false -> leb b a = true.
Proof.
  intros Ha Hb. unfold ltb, leb, SFltb, SFleb.
  rewrite (SFcompare_antisym b a).
  destruct (SFcompare a b) as [c|] eqn:E.
  - destruct c; simpl; congruence.
  - apply SFcompare_nan_iff in E. destruct E; congruence.
Qed.

Lemma ltb_nan_l (b : spec_float) : ltb S754_nan b = false.
Proof. reflexivity. Qed.

Lemma ltb_nan_r (a : spec_float) : ltb a S754_nan = false.
Proof. now destruct a. Qed.

Lemma leb_nan_r (a : spec_float) : leb a S754_nan = false.
Proof. now destruct a. Qed.

Lemma is_finite_not_nan (f : spec_float) :
  is_finite f = true -> is_nan f = false.
Proof. now destruct f. Qed.

Lemma SFcompare_eq_finite (a : spec_float) (s : bool) (m : positive) (e : Z) :
  SFcompare a (S754_finite s m e) = Some Eq -> a = S754_finite s m e.
Proof.
  destruct a as [sa|sa| |sa ma ea]; simpl;
    try (destruct s; discriminate); try (destruct sa; discriminate).
  destruct sa, s; try discriminate;
    destruct (Z.compare_spec ea e) as [->|L|G]; try discriminate;
    intros [= H].
  - apply (f_equal CompOpp) in H. rewrite CompOpp_involutive in H.
    simpl in H. apply Pos.compare_eq in H. now subst.
  - apply Pos.compare_eq in H. now subst.
Qed.

(** ** Algebra of the rounded operations *)

Lemma SFcompare_opp (a b : spec_float) :
  SFcompare (SFopp a) (SFopp b) = SFcompare b a.
Proof.
  rewrite (SFcompare_antisym b a).
  destruct a as [sa|sa| |sa ma ea], b as [sb|sb| |sb mb eb];
    try destruct sa; try destruct sb; simpl; try reflexivity;
    destruct (ea ?= eb); simpl; try reflexivity;
    now rewrite ?CompOpp_involutive.
Qed.

Lemma SFabs_opp (v : spec_float) : SFabs (SFopp v) = SFabs v.
Proof. now destruct v. Qed.

Lemma SFmul_comm (prec emax : Z) (a b : spec_float) :
  SFmul prec emax a b = SFmul prec emax b a.
Proof.
  destruct a as [sa|sa| |sa ma ea], b as [sb|sb| |sb mb eb]; simpl;
    rewrite ?(xorb_comm sa sb); try reflexivity.
  now rewrite (Pos.mul_comm ma mb), (Z.add_comm ea eb).
Qed.

Lemma binary_round_aux_opp (prec emax : Z) (s : bool) (m e : Z) (l : location) :
  SFopp (binary_round_aux prec emax s m e l)
  = binary_round_aux prec emax (negb s) m e l.
Proof.
  unfold binary_round_aux.
  destruct (shr_fexp prec emax m e l) as [mrs' e'].
  destruct (shr_fexp prec emax _ e' loc_Exact) as [mrs'' e''].
  destruct (shr_m mrs''); try reflexivity.
  now destruct (e'' <=? emax - prec).
Qed.

Lemma binary_round_opp (prec emax : Z) (s : bool) (m : positive) (e : Z) :
  SFopp (binary_round prec emax s m e) = binary_round prec emax (negb s) m e.
Proof.
  unfold binary_round.
  destruct (shl_align m e _) as [mz ez].
  apply binary_round_aux_opp.
Qed.

Lemma binary_normalize_opp (prec emax : Z) (z e : Z) :
  z <> 0 ->
  binary_normalize prec emax (- z) e false
  = SFopp (binary_normalize prec emax z e false).
Proof.
  intros Hz. destruct z as [|p|p]; [congruence| |]; simpl;
    now rewrite binary_round_opp.
Qed.

(** Exchanging the operands of a subtraction negates the result, except that
    a difference that is exactly zero is [+0] both ways. *)
Lemma SFsub_swap (prec emax : Z) (a b : spec_float) :
  SFsub prec emax b a = SFopp (SFsub prec emax a b) \/
  (SFsub prec emax a b = S754_zero false /\
   SFsub prec emax b a = S754_zero false).
Proof.
  destruct a as [sa|sa| |sa ma ea], b as [sb|sb| |sb mb eb];
    try (destruct sa, sb; simpl; auto; fail);
    try (destruct sa; simpl; auto; fail);
    try (destruct sb; simpl; auto; fail);
    try (simpl; rewrite ?negb_involutive; auto; fail).
  unfold SFsub. rewrite (Z.min_comm eb ea).
  set (ez := Z.min ea eb).
  set (za := cond_Zopp sa (Z.pos (fst (shl_align ma ea ez)))).
  set (zb := cond_Zopp sb (Z.pos (fst (shl_align mb eb ez)))).
  destruct (Z.eq_dec (za - zb) 0) as [E|N].
  - right. replace (zb - za) with 0 by lia. rewrite E. now split.
  - left. replace (zb - za) with (- (za - zb)) by lia.
    now apply binary_normalize_opp.
Qed.

(** ** The operations return canonical representations *)

Section Valid.
Variables prec emax : Z.
Hypothesis Hprec : 0 < prec.
Hypothesis Hemax : 3 <= emax.

Local Abbreviation fexp := (SpecFloat.fexp prec emax).
Local Abbreviation valid := (valid_binary prec emax).

Lemma pack_valid (s : bool) (m e : Z) :
  0 <= m ->
  (forall p : positive,
     m = Zpos p -> canonical_mantissa prec emax p e = true) ->
  valid (pack prec emax s m e) = true.
Proof.
  intros Hm Hc. destruct m as [|p|p]; [reflexivity| |lia]. simpl.
  destruct (Z.leb_spec e (emax - prec)) as [Hle|Hgt]; [|reflexivity].
  simpl. unfold bounded. rewrite (Hc p eq_refl). simpl.
  now apply Z.leb_le.
Qed.

Lemma binary_round_valid (s : bool) (m : positive) (e : Z) :
  valid (binary_round prec emax s m e) = true.
Proof.
  destruct (binary_round_spec prec emax Hprec Hemax s m e)
    as (m' & e' & -> & H0 & _ & Hc & _).
  now apply pack_valid.
Qed.

Lemma binary_normalize_valid (z e : Z) (szero : bool) :
  valid (binary_normalize prec emax z e szero) = true.
Proof.
  destruct z as [|p|p]; simpl; [reflexivity| |]; apply binary_round_valid.
Qed.

Lemma SFopp_valid (a : spec_float) : valid a = true -> valid (SFopp a) = true.
Proof. now destruct a. Qed.

Lemma SFadd_valid (a b : spec_float) :
  valid a = true -> valid b = true -> valid (SFadd prec emax a b) = true.
Proof.
  intros Ha Hb.
  destruct a as [sa|sa| |sa ma ea], b as [sb|sb| |sb mb eb];
    try (destruct sa, sb; simpl; trivial; fail);
    try (simpl; trivial; fail).
  apply binary_normalize_valid.
Qed.

Lemma SFsub_valid (a b : spec_float) :
  valid a = true -> valid b = true -> valid (SFsub prec emax a b) = true.
Proof.
  intros Ha Hb.
  destruct a as [sa|sa| |sa ma ea], b as [sb|sb| |sb mb eb];
    try (destruct sa, sb; simpl; trivial; fail);
    try (simpl; trivial; fail).
  apply binary_normalize_valid.
Qed.

Lemma digits_mul (p q : positive) :
  digits p + digits q - 1 <= digits (p * q).
Proof.
  pose proof (digits_bounds p) as [Plo Phi].
  pose proof (digits_bounds q) as [Qlo Qhi].
  pose proof (digits_bounds (p * q)) as [_ Rhi].
  pose proof (digits_pos p). pose proof (digits_pos q).
  pose proof (digits_pos (p * q)).
  destruct (Z_lt_le_dec (digits (p * q)) (digits p + digits q - 1))
    as [Hlt|]; [exfalso|assumption].
  assert (2 ^ digits (p * q) <= 2 ^ (digits p - 1 + (digits q - 1)))
    by (apply pow2_le; lia).
  rewrite pow2_split in * by lia.
  rewrite Pos2Z.inj_mul in Rhi.
  assert (0 < 2 ^ (digits p - 1)) by (apply pow2_pos; lia).
  assert (0 < 2 ^ (digits q - 1)) by (apply pow2_pos; lia).
  nia.
Qed.

Lemma SFmul_valid (a b : spec_float) :
  valid a = true -> valid b = true -> valid (SFmul prec emax a b) = true.
Proof.
  intros Ha Hb.
  destruct a as [sa|sa| |sa ma ea], b as [sb|sb| |sb mb eb];
    try (simpl; trivial; fail).
  simpl in Ha, Hb. unfold bounded in Ha, Hb.
  apply andb_prop in Ha, Hb. destruct Ha as [Ca _], Hb as [Cb _].
  apply canonical_iff in Ca, Cb.
  unfold SFmul.
  pose proof (digits_mul ma mb) as Hd.
  pose proof (digits_pos ma). pose proof (digits_pos mb).
  destruct (Z_lt_le_dec (ea + eb) (fexp (digits (ma * mb) + (ea + eb))))
    as [Hs|Hs].
  - destruct (binary_round_aux_shift prec emax Hprec Hemax
                (xorb sa sb) (ma * mb) (ea + eb) Hs)
      as (m' & e' & -> & Hm' & _ & _ & Hc & _).
    now apply pack_valid.
  - rewrite binary_round_aux_no_shift by assumption.
    apply pack_valid; [lia|]. intros p [= <-]. apply canonical_iff.
    unfold SpecFloat.fexp, SpecFloat.emin in *. lia.
Qed.
End Valid.

(** ** Comparison of canonical representations *)

Lemma shl_align_spec (m : positive) (e ez : Z) :
  ez <= e -> Zpos (fst (shl_align m e ez)) = Zpos m * 2 ^ (e - ez).
Proof.
  intros H. unfold shl_align.
  destruct (ez - e) as [|k|k] eqn:Ek; cbn [fst].
  - replace (e - ez) with 0 by lia. simpl. lia.
  - lia.
  - rewrite iter_xO_spec. f_equal. f_equal. lia.
Qed.

Section Compare.
Variables prec emax : Z.
Hypothesis Hprec : 0 < prec.
Hypothesis Hemax : 3 <= emax.

Local Abbreviation fexp := (SpecFloat.fexp prec emax).

Lemma canonical_digits (m : positive) (e : Z) :
  canonical_mantissa prec emax m e = true ->
  digits m <= prec /\ SpecFloat.emin prec emax <= e /\
  (SpecFloat.emin prec emax < e -> digits m = prec).
Proof.
  intros H. apply canonical_iff in H.
  unfold SpecFloat.fexp, SpecFloat.emin in *. lia.
Qed.

Lemma aligned_lt (ma mb : positive) (ea eb : Z) :
  canonical_mantissa prec emax ma ea = true ->
  canonical_mantissa prec emax mb eb = true ->
  ea < eb -> Zpos ma < Zpos mb * 2 ^ (eb - ea).
Proof.
  intros Ca Cb Hlt.
  destruct (canonical_digits ma ea Ca) as (Da & Ea & _).
  destruct (canonical_digits mb eb Cb) as (_ & _ & Db).
  specialize (Db ltac:(lia)).
  pose proof (digits_bounds ma) as [_ Ahi].
  pose proof (digits_bounds mb) as [Blo _]. rewrite Db in Blo.
  pose proof (digits_pos ma).
  assert (2 ^ digits ma <= 2 ^ prec) by (apply pow2_le; lia).
  assert (2 ^ 1 <= 2 ^ (eb - ea)) by (apply pow2_le; lia).
  assert (E : 2 ^ prec = 2 ^ (prec - 1) * 2 ^ 1).
  { rewrite <- pow2_split by lia. f_equal. lia. }
  assert (0 < 2 ^ (prec - 1)) by (apply pow2_pos; lia).
  change (2 ^ 1) with 2 in *. nia.
Qed.

(** On canonical representations [SFcompare] compares the values. *)
Lemma SFcompare_aligned (ma mb : positive) (ea eb : Z) :
  canonical_mantissa prec emax ma ea = true ->
  canonical_mantissa prec emax mb eb = true ->
  SFcompare (S754_finite false ma ea) (S754_finite false mb eb)
  = Some (Zpos ma * 2 ^ (ea - Z.min ea eb)
          ?= Zpos mb * 2 ^ (eb - Z.min ea eb)).
Proof.
  intros Ca Cb. cbn [SFcompare]. f_equal.
  destruct (Z.compare_spec ea eb) as [E|L|G].
  - subst eb. rewrite Z.min_id, Z.sub_diag.
    change (2 ^ 0) with 1. rewrite !Z.mul_1_r.
    change (PosDef.Pos.compare_cont Eq ma mb) with (Pos.compare ma mb).
    reflexivity.
  - rewrite Z.min_l by lia. rewrite Z.sub_diag.
    change (2 ^ 0) with 1. rewrite Z.mul_1_r.
    symmetry. apply Z.compare_lt_iff. now apply aligned_lt.
  - rewrite Z.min_r by lia. rewrite Z.sub_diag.
    change (2 ^ 0) with 1. rewrite Z.mul_1_r.
    symmetry. apply Z.compare_gt_iff. now apply aligned_lt.
Qed.
End Compare.

Lemma F32_valid_digits (s : bool) (m : positive) (e : Z) :
  F32.valid (S754_finite s m e) = true -> digits m <= 24 /\ -149 <= e.
Proof.
  intros V. simpl in V. unfold bounded in V. apply andb_prop in V.
  destruct V as [C _].
  destruct (canonical_digits F32.prec F32.emax m e C) as (D & E & _).
  unfold F32.prec, F32.emax, SpecFloat.emin in *. lia.
Qed.

(** ** Signs of rounded results *)

Section Sign.
Variables prec emax : Z.
Hypothesis Hprec : 0 < prec.
Hypothesis Hemax : 3 <= emax.

Lemma pack_sign (s : bool) (m e : Z) :
  0 <= m ->
  is_nan (pack prec emax s m e) = false /\
  sign_bit (pack prec emax s m e) = s.
Proof.
  intros Hm. destruct m as [|p|p]; [now split| |lia]. simpl.
  destruct (e <=? emax - prec); now split.
Qed.

Lemma binary_round_sign (s : bool) (m : positive) (e : Z) :
  is_nan (binary_round prec emax s m e) = false /\
  sign_bit (binary_round prec emax s m e) = s.
Proof.
  destruct (binary_round_spec prec emax Hprec Hemax s m e)
    as (m' & e' & -> & Hm & _).
  now apply pack_sign.
Qed.

Lemma binary_normalize_cond_Zopp (s : bool) (m : positive) (e : Z) :
  binary_normalize prec emax (cond_Zopp s (Zpos m)) e s
  = binary_round prec emax s m e.
Proof. now destruct s. Qed.

(** The difference [a - b] of a positive [b] and a larger [a] is not
    negative. *)
Lemma SFsub_gt_sign (a : spec_float) (mb : positive) (eb : Z) :
  valid_binary prec emax a = true ->
  valid_binary prec emax (S754_finite false mb eb) = true ->
  SFltb (S754_finite false mb eb) a = true ->
  is_nan (SFsub prec emax a (S754_finite false mb eb)) = false /\
  sign_bit (SFsub prec emax a (S754_finite false mb eb)) = false.
Proof.
  intros Va Vb Hlt. unfold SFltb in Hlt.
  destruct a as [sa|sa| |sa ma ea]; try discriminate.
  - destruct sa; [discriminate | now split].
  - destruct sa; [discriminate|].
    simpl in Va, Vb. unfold bounded in Va, Vb.
    apply andb_prop in Va, Vb. destruct Va as [Ca _], Vb as [Cb _].
    rewrite (SFcompare_aligned prec emax Hprec mb ma eb ea Cb Ca) in Hlt.
    destruct (_ ?= _) eqn:Ec in Hlt; try discriminate.
    unfold SFsub. cbn [cond_Zopp].
    rewrite !shl_align_spec by lia. rewrite (Z.min_comm ea eb).
    set (A := Zpos ma * 2 ^ (ea - Z.min eb ea)) in *.
    set (B := Zpos mb * 2 ^ (eb - Z.min eb ea)) in *.
    change (B < A) in Ec.
    destruct (A - B) as [|z|z] eqn:Ez; try lia.
    simpl. apply binary_round_sign.
Qed.
End Sign.

(** ** A difference is zero only for equal operands *)

Section Difference.
Variables prec emax : Z.
Hypothesis Hprec : 0 < prec.
Hypothesis Hemax : 3 <= emax.

Lemma binary_round_nonzero (s : bool) (m : positive) (e : Z) :
  SpecFloat.emin prec emax <= e ->
  is_zero (binary_round prec emax s m e) = false.
Proof.
  intros He.
  destruct (binary_round_spec prec emax Hprec Hemax s m e)
    as (m' & e' & -> & Hm & Hb & _ & Hex & _ & Hlo).
  pose proof (digits_pos m) as Dp.
  assert (Hpos : 0 < m').
  { destruct (Z_le_gt_dec e' e) as [Hle|Hgt].
    - rewrite (Hex Hle).
      assert (0 < 2 ^ (e - e')) by (apply pow2_pos; lia). lia.
    - assert (Hc : SpecFloat.fexp prec emax (digits m + e) - e < digits m)
        by (unfold SpecFloat.fexp, SpecFloat.emin in *; lia).
      destruct (Hlo ltac:(lia) Hc) as [L _].
      assert (0 < 2 ^ (digits m - 1)) by (apply pow2_pos; lia).
      assert (0 < 2 ^ (e' - e)) by (apply pow2_pos; lia).
      nia. }
  destruct m' as [|p|p]; try lia. simpl.
  now destruct (e' <=? emax - prec).
Qed.

Lemma SFeqb_refl_finite (s : bool) (m : positive) (e : Z) :
  SFeqb (S754_finite s m e) (S754_finite s m e) = true.
Proof.
  unfold SFeqb. simpl. rewrite Z.compare_refl.
  change (PosDef.Pos.compare_cont Eq m m) with (Pos.compare m m).
  rewrite Pos.compare_refl. now destruct s.
Qed.

Lemma SFeqb_finite_eq (sa sb : bool) (ma mb : positive) (ea eb : Z) :
  SFeqb (S754_finite sa ma ea) (S754_finite sb mb eb) = true ->
  S754_finite sa ma ea = S754_finite sb mb eb.
Proof.
  unfold SFeqb. intros H.
  destruct (SFcompare _ _) as [[| |]|] eqn:E; try discriminate.
  now apply SFcompare_eq_finite.
Qed.

(** The difference of two finite numbers is a zero exactly when they are
    equal: subtraction never underflows to zero. *)
Lemma SFsub_zero_iff (a b : spec_float) :
  valid_binary prec emax a = true -> valid_binary prec emax b = true ->
  is_finite a = true -> is_finite b = true ->
  (is_zero (SFsub prec emax a b) = true <-> SFeqb a b = true).
Proof.
  intros Va Vb Fa Fb.
  destruct a as [sa|sa| |sa ma ea], b as [sb|sb| |sb mb eb];
    try discriminate.
  - destruct sa, sb; simpl; tauto.
  - simpl. split; [discriminate | destruct sb; discriminate].
  - simpl. split; [discriminate | destruct sa; discriminate].
  - simpl in Va, Vb. unfold bounded in Va, Vb.
    apply andb_prop in Va, Vb. destruct Va as [Ca _], Vb as [Cb _].
    destruct (canonical_digits prec emax ma ea Ca) as (_ & Ea & _).
    destruct (canonical_digits prec emax mb eb Cb) as (_ & Eb & _).
    split.
    + intros Hz. unfold SFsub in Hz.
      rewrite !shl_align_spec in Hz by lia.
      set (A := Zpos ma * 2 ^ (ea - Z.min ea eb)) in *.
      set (B := Zpos mb * 2 ^ (eb - Z.min ea eb)) in *.
      assert (PA : 0 < A).
      { unfold A. assert (0 < 2 ^ (ea - Z.min ea eb))
          by (apply pow2_pos; lia). lia. }
      assert (PB : 0 < B).
      { unfold B. assert (0 < 2 ^ (eb - Z.min ea eb))
          by (apply pow2_pos; lia). lia. }
      assert (Z0 : cond_Zopp sa A - cond_Zopp sb B = 0).
      { destruct (cond_Zopp sa A - cond_Zopp sb B) as [|z|z];
          [reflexivity| |]; simpl in Hz;
          rewrite binary_round_nonzero in Hz by lia; discriminate. }
      assert (Hs : sa = sb /\ A = B)
        by (destruct sa, sb; simpl in Z0; lia).
      destruct Hs as [-> HAB].
      pose proof (SFcompare_aligned prec emax Hprec ma mb ea eb Ca Cb) as Hc.
      fold A B in Hc. rewrite HAB, Z.compare_refl in Hc.
      apply SFcompare_eq_finite in Hc. injection Hc as -> ->.
      apply SFeqb_refl_finite.
    + intros He. apply SFeqb_finite_eq in He. injection He as -> -> ->.
      unfold SFsub. rewrite Z.sub_diag. reflexivity.
Qed.

(** The difference of two finite numbers is not a NaN. *)
Lemma SFsub_finite_not_nan (a b : spec_float) :
  is_finite a = true -> is_finite b = true ->
  is_nan (SFsub prec emax a b) = false.
Proof.
  intros Fa Fb.
  destruct a as [sa|sa| |sa ma ea], b as [sb|sb| |sb mb eb];
    try discriminate; try (destruct sa, sb; reflexivity);
    try reflexivity.
  unfold SFsub.
  destruct (_ - _) as [|z|z]; [reflexivity| |]; simpl;
    apply binary_round_sign; assumption.
Qed.
End Difference.

Lemma eqb_sym (a b : spec_float) : eqb a b = eqb b a.
Proof.
  unfold eqb, SFeqb. rewrite (SFcompare_antisym a b).
  now destruct (SFcompare b a) as [[| |]|].
Qed.

Lemma F32_sub_zero_iff (a b : float) :
  F32.valid a = true -> F32.valid b = true ->
  is_finite a = true -> is_finite b = true ->
  (is_zero (F32.sub a b) = true <-> eqb a b = true).
Proof. apply SFsub_zero_iff; [reflexivity | now compute]. Qed.

Lemma F32_sub_not_nan (a b : float) :
  is_finite a = true -> is_finite b = true -> is_nan (F32.sub a b) = false.
Proof. apply SFsub_finite_not_nan; [reflexivity | now compute]. Qed.

Lemma F32_add_not_nan (a b : float) :
  is_finite a = true -> is_finite b = true -> is_nan (F32.add a b) = false.
Proof.
  intros Fa Fb.
  destruct a as [sa|sa| |sa ma ea], b as [sb|sb| |sb mb eb];
    try discriminate; try (destruct sa, sb; reflexivity);
    try reflexivity.
  unfold F32.add, SFadd.
  destruct (_ + _) as [|z|z]; [reflexivity| |]; simpl;
    apply binary_round_sign; (reflexivity || now compute).
Qed.

(** ** Division *)

Lemma SFdiv_core_binary_nonneg (prec emax : Z) (m1 m2 : positive) (e1 e2 : Z) :
  0 <= fst (fst (SFdiv_core_binary prec emax (Zpos m1) e1 (Zpos m2) e2)).
Proof.
  unfold SFdiv_core_binary.
  set (s := e1 - e2 - _).
  set (m' := match s with
             | Zpos _ => Z.shiftl (Zpos m1) s
             | Z0 => Zpos m1
             | Zneg _ => 0
             end).
  assert (Hm : 0 <= m').
  { unfold m'. destruct s; try lia. apply Z.shiftl_nonneg. lia. }
  pose proof (Z_div_mod m' (Zpos m2) ltac:(lia)) as H.
  destruct (Z.div_eucl m' (Zpos m2)) as [q r]. cbn [fst].
  destruct H as [E R]. nia.
Qed.

(** A quotient is NaN only for a NaN operand, for [0 / 0] and for
    [inf / inf]. *)
Lemma SFdiv_not_nan (prec emax : Z) (a b : spec_float) :
  is_nan a = false -> is_finite b = true -> is_zero b = false ->
  is_nan (SFdiv prec emax a b) = false.
Proof.
  intros Na Fb Zb.
  destruct a as [sa|sa| |sa ma ea], b as [sb|sb| |sb mb eb];
    try discriminate; try reflexivity.
  unfold SFdiv.
  pose proof (SFdiv_core_binary_nonneg prec emax ma mb ea eb) as H.
  destruct (SFdiv_core_binary prec emax (Zpos ma) ea (Zpos mb) eb)
    as [[mz ez] lz]. cbn [fst] in H.
  destruct (binary_round_aux_not_nan prec emax (xorb sa sb) mz ez lz H)
    as (m' & e' & Hm & ->).
  destruct m' as [|p|p]; [reflexivity| |lia]. simpl.
  now destruct (e' <=? emax - prec).
Qed.

(** ** Values of floating-point numbers *)

Lemma digits_le (m : positive) (k : Z) :
  0 <= k -> Zpos m < 2 ^ k -> digits m <= k.
Proof.
  intros Hk H. pose proof (digits_bounds m) as [Lo _].
  pose proof (digits_pos m).
  destruct (Z_le_gt_dec (digits m) k) as [|G]; [assumption|exfalso].
  assert (2 ^ k <= 2 ^ (digits m - 1)) by (apply pow2_le; lia). lia.
Qed.

Lemma cond_Zopp_abs (s : bool) (z : Z) : Z.abs (cond_Zopp s z) = Z.abs z.
Proof. destruct s; simpl; lia. Qed.

Lemma cond_Zopp_mul (s : bool) (a b : Z) :
  cond_Zopp s a * b = cond_Zopp s (a * b).
Proof. destruct s; simpl; lia. Qed.

Lemma cond_Zopp_sub (s : bool) (a b : Z) :
  cond_Zopp s a - cond_Zopp s b = cond_Zopp s (a - b).
Proof. destruct s; simpl; lia. Qed.

Section Scaled.
Variables prec emax : Z.
Hypothesis Hprec : 0 < prec.
Hypothesis Hemax : 3 <= emax.
Hypothesis Hemin : -1074 <= SpecFloat.emin prec emax.

Lemma fin_exponent (s : bool) (m : positive) (e : Z) :
  fin prec emax (S754_finite s m e) -> -1074 <= e.
Proof.
  intros [V _]. simpl in V. unfold bounded in V. apply andb_prop in V.
  destruct V as [C _].
  destruct (canonical_digits prec emax m e C) as (_ & E & _). lia.
Qed.

(** Rounding a value below [2^B]: the result is finite and within
    [ulp_bound] of the value. *)
Lemma binary_round_scaled (s : bool) (m : positive) (e B : Z) :
  -1074 <= e ->
  SpecFloat.emin prec emax <= B - prec -> B < emax ->
  Zpos m * 2 ^ (e + 1074) < 2 ^ (B + 1074) ->
  fin prec emax (binary_round prec emax s m e) /\
  Z.abs (scaled (binary_round prec emax s m e)
         - cond_Zopp s (Zpos m * 2 ^ (e + 1074))) <= ulp_bound prec B.
Proof.
  intros He HB HBe Hv.
  assert (Pe : 0 < 2 ^ (e + 1074)) by (apply pow2_pos; lia).
  assert (Hd : digits m + e <= B).
  { assert (Zpos m < 2 ^ (B - e)).
    { assert (E : 2 ^ (B + 1074) = 2 ^ (B - e) * 2 ^ (e + 1074)).
      { destruct (Z_le_gt_dec e B).
        - rewrite <- pow2_split by lia. f_equal. lia.
        - exfalso. assert (2 ^ (B + 1074) <= 2 ^ (e + 1074))
            by (apply pow2_le; unfold SpecFloat.emin in *; lia).
          nia. }
      rewrite E in Hv. nia. }
    destruct (Z_le_gt_dec e B).
    - assert (digits m <= B - e) by (apply digits_le; lia). lia.
    - rewrite Z.pow_neg_r in H by lia. lia. }
  destruct (binary_round_spec prec emax Hprec Hemax s m e)
    as (m' & e' & Hr & Hm & Hb & Hc & Hex & Herr & _).
  rewrite Hr.
  assert (He' : e' <= B - prec + 1)
    by (unfold SpecFloat.fexp, SpecFloat.emin in *; lia).
  assert (He'' : -1074 <= e')
    by (unfold SpecFloat.fexp, SpecFloat.emin in *; lia).
  assert (Pu : 2 ^ (e' + 1074) <= ulp_bound prec B)
    by (apply pow2_le; lia).
  assert (Pe' : 0 < 2 ^ (e' + 1074)) by (apply pow2_pos; lia).
  assert (Hval : Z.abs (m' * 2 ^ (e' + 1074) - Zpos m * 2 ^ (e + 1074))
                 <= 2 ^ (e' + 1074)).
  { destruct (Z_le_gt_dec e' e) as [Hle|Hgt].
    - rewrite (Hex Hle). rewrite <- Z.mul_assoc, <- pow2_split by lia.
      replace (e - e' + (e' + 1074)) with (e + 1074) by lia. lia.
    - destruct (Herr ltac:(lia)) as [E1 E2].
      assert (E : 2 ^ (e' + 1074) = 2 ^ (e' - e) * 2 ^ (e + 1074)).
      { rewrite <- pow2_split by lia. f_equal. lia. }
      rewrite E. set (u := 2 ^ (e' - e)) in *. set (v := 2 ^ (e + 1074)) in *.
      nia. }
  destruct m' as [|p|p]; [| |lia].
  - split; [split; reflexivity|]. cbn [pack scaled].
    rewrite Z.sub_0_l, Z.abs_opp, cond_Zopp_abs. lia.
  - cbn [pack].
    destruct (Z.leb_spec e' (emax - prec)) as [_|Hov]; [|lia].
    split.
    + split; [|reflexivity]. simpl. unfold bounded.
      rewrite (Hc p eq_refl). simpl. apply Z.leb_le. lia.
    + cbn [scaled]. rewrite cond_Zopp_sub, cond_Zopp_abs. lia.
Qed.

Lemma binary_normalize_scaled (z e B : Z) (szero : bool) :
  -1074 <= e ->
  SpecFloat.emin prec emax <= B - prec -> B < emax ->
  Z.abs z * 2 ^ (e + 1074) < 2 ^ (B + 1074) ->
  fin prec emax (binary_normalize prec emax z e szero) /\
  Z.abs (scaled (binary_normalize prec emax z e szero)
         - z * 2 ^ (e + 1074)) <= ulp_bound prec B.
Proof.
  intros He HB HBe Hv.
  assert (0 < ulp_bound prec B) by (apply pow2_pos; lia).
  destruct z as [|p|p]; cbn [binary_normalize].
  - split; [split; reflexivity|]. simpl. lia.
  - apply (binary_round_scaled false p e B); assumption.
  - destruct (binary_round_scaled true p e B He HB HBe Hv) as [F E].
    split; [exact F|]. cbn [cond_Zopp] in E.
    replace (Z.neg p * 2 ^ (e + 1074)) with (- (Zpos p * 2 ^ (e + 1074)))
      by lia.
    exact E.
Qed.
End Scaled.

Lemma compare_mul_pos (a b p : Z) :
  0 < p -> (a * p ?= b * p) = (a ?= b).
Proof.
  intros Hp. destruct (Z.compare_spec a b) as [->|L|G].
  - apply Z.compare_refl.
  - apply Z.compare_lt_iff. nia.
  - apply Z.compare_gt_iff. nia.
Qed.

Section ScaledOps.
Variables prec emax : Z.
Hypothesis Hprec : 0 < prec.
Hypothesis Hemax : 3 <= emax.
Hypothesis Hemin : -1074 <= SpecFloat.emin prec emax.

Local Abbreviation finp := (fin prec emax).

Lemma aligned_scaled (s : bool) (m : positive) (e ez : Z) :
  -1074 <= ez <= e ->
  cond_Zopp s (Zpos (fst (shl_align m e ez))) * 2 ^ (ez + 1074)
  = scaled (S754_finite s m e).
Proof.
  intros H. rewrite shl_align_spec by lia. cbn [scaled].
  rewrite cond_Zopp_mul. f_equal.
  rewrite <- Z.mul_assoc, <- pow2_split by lia. f_equal. f_equal. lia.
Qed.

Lemma scaled_sign (f : spec_float) :
  (sign_bit f = false -> 0 <= scaled f) /\
  (sign_bit f = true -> scaled f <= 0).
Proof.
  destruct f as [s|s| |s m e]; cbn [scaled sign_bit]; try lia.
  assert (0 <= Zpos m * 2 ^ (e + 1074))
    by (apply Z.mul_nonneg_nonneg; [lia | apply Z.pow_nonneg; lia]).
  destruct s; cbn [cond_Zopp]; split; intros; try discriminate; lia.
Qed.

Lemma SFadd_scaled (a b : spec_float) (B : Z) :
  finp a -> finp b ->
  SpecFloat.emin prec emax <= B - prec -> B < emax ->
  Z.abs (scaled a + scaled b) < 2 ^ (B + 1074) ->
  finp (SFadd prec emax a b) /\
  Z.abs (scaled (SFadd prec emax a b) - (scaled a + scaled b))
    <= ulp_bound prec B.
Proof.
  intros Fa Fb HB HBe Hv.
  assert (U : 0 < ulp_bound prec B)
    by (apply pow2_pos; unfold SpecFloat.emin in *; lia).
  destruct a as [sa|sa| |sa ma ea], b as [sb|sb| |sb mb eb];
    try (destruct Fa as [_ Fa]; discriminate);
    try (destruct Fb as [_ Fb]; discriminate).
  - destruct sa, sb; simpl; (split; [split; reflexivity|lia]).
  - cbn [SFadd]. split; [exact Fb|].
    replace (scaled (S754_zero sa)) with 0 by reflexivity. lia.
  - cbn [SFadd]. split; [exact Fa|].
    replace (scaled (S754_zero sb)) with 0 by reflexivity. lia.
  - pose proof (fin_exponent prec emax Hemin sa ma ea Fa) as Ea.
    pose proof (fin_exponent prec emax Hemin sb mb eb Fb) as Eb.
    unfold SFadd.
    assert (E : (cond_Zopp sa (Zpos (fst (shl_align ma ea (Z.min ea eb))))
                 + cond_Zopp sb (Zpos (fst (shl_align mb eb (Z.min ea eb)))))
                * 2 ^ (Z.min ea eb + 1074)
                = scaled (S754_finite sa ma ea) + scaled (S754_finite sb mb eb)).
    { rewrite Z.mul_add_distr_r, !aligned_scaled by lia. reflexivity. }
    rewrite <- E in *.
    assert (P : 0 < 2 ^ (Z.min ea eb + 1074)) by (apply pow2_pos; lia).
    rewrite Z.abs_mul, (Z.abs_eq (2 ^ _)) in Hv by lia.
    apply binary_normalize_scaled; try assumption. lia.
Qed.

Lemma SFsub_scaled (a b : spec_float) (B : Z) :
  finp a -> finp b ->
  SpecFloat.emin prec emax <= B - prec -> B < emax ->
  Z.abs (scaled a - scaled b) < 2 ^ (B + 1074) ->
  finp (SFsub prec emax a b) /\
  Z.abs (scaled (SFsub prec emax a b) - (scaled a - scaled b))
    <= ulp_bound prec B.
Proof.
  intros Fa Fb HB HBe Hv.
  assert (U : 0 < ulp_bound prec B)
    by (apply pow2_pos; unfold SpecFloat.emin in *; lia).
  destruct a as [sa|sa| |sa ma ea], b as [sb|sb| |sb mb eb];
    try (destruct Fa as [_ Fa]; discriminate);
    try (destruct Fb as [_ Fb]; discriminate).
  - destruct sa, sb; simpl; (split; [split; reflexivity|lia]).
  - cbn [SFsub]. split.
    + destruct Fb as [Vb _]. split; [exact Vb | reflexivity].
    + replace (scaled (S754_zero sa)) with 0 by reflexivity.
      cbn [scaled]. destruct sb; simpl; lia.
  - cbn [SFsub]. split; [exact Fa|].
    replace (scaled (S754_zero sb)) with 0 by reflexivity. lia.
  - pose proof (fin_exponent prec emax Hemin sa ma ea Fa) as Ea.
    pose proof (fin_exponent prec emax Hemin sb mb eb Fb) as Eb.
    unfold SFsub.
    assert (E : (cond_Zopp sa (Zpos (fst (shl_align ma ea (Z.min ea eb))))
                 - cond_Zopp sb (Zpos (fst (shl_align mb eb (Z.min ea eb)))))
                * 2 ^ (Z.min ea eb + 1074)
                = scaled (S754_finite sa ma ea) - scaled (S754_finite sb mb eb)).
    { rewrite Z.mul_sub_distr_r, !aligned_scaled by lia. reflexivity. }
    rewrite <- E in *.
    assert (P : 0 < 2 ^ (Z.min ea eb + 1074)) by (apply pow2_pos; lia).
    rewrite Z.abs_mul, (Z.abs_eq (2 ^ _)) in Hv by lia.
    apply binary_normalize_scaled; try assumption. lia.
Qed.

(** On finite canonical numbers [SFcompare] compares the values. *)
Lemma SFcompare_scaled (a b : spec_float) :
  finp a -> finp b -> SFcompare a b = Some (scaled a ?= scaled b).
Proof.
  intros Fa Fb.
  assert (Hpos : forall (m : positive) (e : Z),
             0 < Zpos m * 2 ^ (e + 1074) \/ e + 1074 < 0).
  { intros m e. destruct (Z_lt_le_dec (e + 1074) 0); [now right|left].
    assert (0 < 2 ^ (e + 1074)) by (apply pow2_pos; lia). lia. }
  assert (Hff : forall ma mb ea eb,
             finp (S754_finite false ma ea) ->
             finp (S754_finite false mb eb) ->
             SFcompare (S754_finite false ma ea) (S754_finite false mb eb)
             = Some (Zpos ma * 2 ^ (ea + 1074) ?= Zpos mb * 2 ^ (eb + 1074))).
  { intros ma mb ea eb Fa' Fb'.
    pose proof (fin_exponent prec emax Hemin _ _ _ Fa') as Ea.
    pose proof (fin_exponent prec emax Hemin _ _ _ Fb') as Eb.
    destruct Fa' as [Va _], Fb' as [Vb _]. simpl in Va, Vb.
    unfold bounded in Va, Vb. apply andb_prop in Va, Vb.
    destruct Va as [Ca _], Vb as [Cb _].
    rewrite (SFcompare_aligned prec emax Hprec ma mb ea eb Ca Cb).
    f_equal.
    assert (P : 0 < 2 ^ (Z.min ea eb + 1074)) by (apply pow2_pos; lia).
    rewrite <- (compare_mul_pos _ _ (2 ^ (Z.min ea eb + 1074))) by exact P.
    rewrite <- !Z.mul_assoc, <- !pow2_split by lia.
    replace (ea - Z.min ea eb + (Z.min ea eb + 1074)) with (ea + 1074) by lia.
    replace (eb - Z.min ea eb + (Z.min ea eb + 1074)) with (eb + 1074) by lia.
    reflexivity. }
  destruct a as [sa|sa| |sa ma ea], b as [sb|sb| |sb mb eb];
    try (destruct Fa as [_ Fa]; discriminate);
    try (destruct Fb as [_ Fb]; discriminate).
  - reflexivity.
  - pose proof (fin_exponent prec emax Hemin _ _ _ Fb) as Eb.
    destruct (Hpos mb eb) as [P|P]; [|lia].
    cbn [SFcompare scaled]. f_equal. symmetry.
    destruct sb; cbn [cond_Zopp];
      [apply Z.compare_gt_iff | apply Z.compare_lt_iff]; lia.
  - pose proof (fin_exponent prec emax Hemin _ _ _ Fa) as Ea.
    destruct (Hpos ma ea) as [P|P]; [|lia].
    cbn [SFcompare scaled]. f_equal. symmetry.
    destruct sa; cbn [cond_Zopp];
      [apply Z.compare_lt_iff | apply Z.compare_gt_iff]; lia.
  - pose proof (fin_exponent prec emax Hemin _ _ _ Fa) as Ea.
    pose proof (fin_exponent prec emax Hemin _ _ _ Fb) as Eb.
    destruct (Hpos ma ea) as [Pa|Pa]; [|lia].
    destruct (Hpos mb eb) as [Pb|Pb]; [|lia].
    destruct sa, sb.
    + change (S754_finite true ma ea) with (SFopp (S754_finite false ma ea)).
      change (S754_finite true mb eb) with (SFopp (S754_finite false mb eb)).
      rewrite SFcompare_opp. cbn [SFopp negb scaled cond_Zopp].
      rewrite Hff.
      * f_equal. rewrite Z.compare_opp. reflexivity.
      * destruct Fb as [Vb _]. split; [exact Vb | reflexivity].
      * destruct Fa as [Va _]. split; [exact Va | reflexivity].
    + cbn [SFcompare scaled cond_Zopp]. f_equal. symmetry.
      apply Z.compare_lt_iff. lia.
    + cbn [SFcompare scaled cond_Zopp]. f_equal. symmetry.
      apply Z.compare_gt_iff. lia.
    + rewrite Hff by assumption. reflexivity.
Qed.
End ScaledOps.

(** ** Values in binary32 and binary64 *)

Lemma fin32_intro (f : float) :
  F32.valid f = true -> is_finite f = true -> fin32 f.
Proof. now split. Qed.

Lemma F32_add_scaled (a b : float) :
  fin32 a -> fin32 b -> Z.abs (scaled a + scaled b) < 32 * unit_scaled ->
  fin32 (F32.add a b) /\
  Z.abs (scaled (F32.add a b) - (scaled a + scaled b)) <= err32.
Proof.
  intros Fa Fb H.
  apply (SFadd_scaled F32.prec F32.emax); try assumption;
    try reflexivity; now compute.
Qed.

Lemma F32_sub_scaled (a b : float) :
  fin32 a -> fin32 b -> Z.abs (scaled a - scaled b) < 32 * unit_scaled ->
  fin32 (F32.sub a b) /\
  Z.abs (scaled (F32.sub a b) - (scaled a - scaled b)) <= err32.
Proof.
  intros Fa Fb H.
  apply (SFsub_scaled F32.prec F32.emax); try assumption;
    try reflexivity; now compute.
Qed.

Lemma F64_add_scaled (a b : double) :
  fin64 a -> fin64 b -> Z.abs (scaled a + scaled b) < 32 * unit_scaled ->
  fin64 (F64.add a b) /\
  Z.abs (scaled (F64.add a b) - (scaled a + scaled b)) <= err64.
Proof.
  intros Fa Fb H.
  apply (SFadd_scaled F64.prec F64.emax); try assumption;
    try reflexivity; now compute.
Qed.

Lemma F64_sub_scaled (a b : double) :
  fin64 a -> fin64 b -> Z.abs (scaled a - scaled b) < 32 * unit_scaled ->
  fin64 (F64.sub a b) /\
  Z.abs (scaled (F64.sub a b) - (scaled a - scaled b)) <= err64.
Proof.
  intros Fa Fb H.
  apply (SFsub_scaled F64.prec F64.emax); try assumption;
    try reflexivity; now compute.
Qed.

(** The conversion [float -> double] is exact. *)
Lemma to_double_scaled (f : float) :
  fin32 f -> fin64 (to_double f) /\ scaled (to_double f) = scaled f.
Proof.
  intros [V F]. destruct f as [s|s| |s m e]; try discriminate.
  - split; [split; reflexivity | reflexivity].
  - destruct (F32_valid_digits s m e V) as [Hd He].
    assert (V' : e <= 104).
    { simpl in V. unfold bounded in V. apply andb_prop in V.
      destruct V as [_ V]. apply Z.leb_le in V. exact V. }
    unfold to_double. rewrite binary_normalize_cond_Zopp.
    destruct (binary_round_spec F64.prec F64.emax eq_refl ltac:(now compute)
                s m e) as (m' & e' & Hr & Hm & Hb & Hc & Hex & _).
    rewrite Hr. pose proof (digits_pos m) as Dp.
    unfold SpecFloat.fexp, SpecFloat.emin, F64.prec, F64.emax in Hb.
    specialize (Hex ltac:(lia)).
    assert (P : 0 < 2 ^ (e - e')) by (apply pow2_pos; lia).
    destruct m' as [|p|p]; try lia. cbn [pack].
    destruct (Z.leb_spec e' (F64.emax - F64.prec)) as [_|Hov];
      [|unfold F64.emax, F64.prec in Hov; lia].
    split.
    + split; [|reflexivity]. simpl. unfold bounded.
      rewrite (Hc p eq_refl). simpl. apply Z.leb_le.
      unfold F64.emax, F64.prec. lia.
    + cbn [scaled]. f_equal. rewrite Hex.
      rewrite <- Z.mul_assoc, <- pow2_split by lia. f_equal. f_equal. lia.
Qed.

(** The conversion [double -> float] of a value below 32. *)
Lemma to_float_scaled (d : double) :
  fin64 d -> Z.abs (scaled d) < 32 * unit_scaled ->
  fin32 (to_float d) /\ Z.abs (scaled (to_float d) - scaled d) <= err32.
Proof.
  intros Fd H.
  assert (U : 0 < err32) by now compute.
  destruct d as [s|s| |s m e];
    try (destruct Fd as [_ Fd]; discriminate).
  - split; [split; reflexivity | simpl; lia].
  - pose proof (fin_exponent F64.prec F64.emax ltac:(now compute) s m e Fd)
      as He.
    unfold to_float. rewrite binary_normalize_cond_Zopp.
    cbn [scaled] in *. rewrite cond_Zopp_abs in H.
    assert (P : 0 < 2 ^ (e + 1074)) by (apply pow2_pos; lia).
    rewrite Z.abs_eq in H by lia.
    apply (binary_round_scaled F32.prec F32.emax); try assumption;
      try reflexivity; now compute.
Qed.

Lemma ltb_scaled32 (a b : float) :
  fin32 a -> fin32 b -> ltb a b = (scaled a <? scaled b).
Proof.
  intros Fa Fb. unfold ltb, SFltb.
  rewrite (SFcompare_scaled F32.prec F32.emax eq_refl ltac:(now compute) a b)
    by assumption.
  unfold Z.ltb. now destruct (scaled a ?= scaled b).
Qed.

Lemma ltb_scaled64 (a b : double) :
  fin64 a -> fin64 b -> ltb a b = (scaled a <? scaled b).
Proof.
  intros Fa Fb. unfold ltb, SFltb.
  rewrite (SFcompare_scaled F64.prec F64.emax eq_refl ltac:(now compute) a b)
    by assumption.
  unfold Z.ltb. now destruct (scaled a ?= scaled b).
Qed.

Section Product.
Variables prec emax : Z.
Hypothesis Hprec : 0 < prec.
Hypothesis Hemax : 3 <= emax.

Lemma binary_round_no_align (s : bool) (m : positive) (e : Z) :
  e <= SpecFloat.fexp prec emax (digits m + e) ->
  binary_round prec emax s m e
  = binary_round_aux prec emax s (Zpos m) e loc_Exact.
Proof.
  intros H. unfold binary_round, shl_align.
  change (Zpos (digits2_pos m)) with (digits m).
  destruct (SpecFloat.fexp prec emax (digits m + e) - e) as [|k|k] eqn:E;
    try reflexivity.
  lia.
Qed.

(** The product of two canonical numbers needs no alignment before it is
    rounded. *)
Lemma SFmul_binary_round (sa sb : bool) (ma mb : positive) (ea eb : Z) :
  canonical_mantissa prec emax ma ea = true ->
  canonical_mantissa prec emax mb eb = true ->
  SFmul prec emax (S754_finite sa ma ea) (S754_finite sb mb eb)
  = binary_round prec emax (xorb sa sb) (ma * mb) (ea + eb).
Proof.
  intros Ca Cb. unfold SFmul. symmetry. apply binary_round_no_align.
  apply canonical_iff in Ca, Cb.
  pose proof (digits_mul ma mb) as Hd.
  pose proof (digits_pos ma). pose proof (digits_pos mb).
  unfold SpecFloat.fexp, SpecFloat.emin in *. lia.
Qed.
End Product.

(** The product of a number [d] below 32 in absolute value and a
    coefficient [c] of [[0, 1]] lies between 0 and [d], up to rounding. *)
Lemma F32_mul_scaled_unit (d c : float) :
  fin32 d -> fin32 c -> 0 <= scaled c <= unit_scaled ->
  Z.abs (scaled d) < 32 * unit_scaled ->
  fin32 (F32.mul d c) /\
  (0 <= scaled d -> 0 <= scaled (F32.mul d c) <= scaled d + err32) /\
  (scaled d <= 0 -> scaled d - err32 <= scaled (F32.mul d c) <= 0).
Proof.
  intros Fd Fc Hc Hd.
  assert (U : 0 < err32) by now compute.
  destruct d as [sd|sd| |sd md ed], c as [sc|sc| |sc mc ec];
    try (destruct Fd as [_ Fd]; discriminate);
    try (destruct Fc as [_ Fc]; discriminate);
    try (split; [split; reflexivity | simpl in *; lia]).
  pose proof (fin_exponent F32.prec F32.emax ltac:(now compute) _ _ _ Fd)
    as Ed.
  pose proof (fin_exponent F32.prec F32.emax ltac:(now compute) _ _ _ Fc)
    as Ec.
  destruct Fd as [Vd _], Fc as [Vc _].
  destruct (F32_valid_digits _ _ _ Vd) as [_ Ed'].
  destruct (F32_valid_digits _ _ _ Vc) as [_ Ec'].
  simpl in Vd, Vc. unfold bounded in Vd, Vc. apply andb_prop in Vd, Vc.
  destruct Vd as [Cd _], Vc as [Cc _].
  unfold F32.mul.
  rewrite SFmul_binary_round
    by first [assumption | reflexivity | now compute].
  cbn [scaled] in Hc, Hd. rewrite cond_Zopp_abs in Hd.
  assert (Pd : 0 < 2 ^ (ed + 1074)) by (apply pow2_pos; lia).
  assert (Pc : 0 < 2 ^ (ec + 1074)) by (apply pow2_pos; lia).
  assert (Qd : 0 < Zpos md * 2 ^ (ed + 1074)) by (apply Z.mul_pos_pos; lia).
  assert (Qc : 0 < Zpos mc * 2 ^ (ec + 1074)) by (apply Z.mul_pos_pos; lia).
  assert (Hsc : sc = false)
    by (destruct sc; [cbn [cond_Zopp] in Hc; lia | reflexivity]).
  subst sc. cbn [cond_Zopp] in Hc. rewrite xorb_false_r.
  rewrite Z.abs_eq in Hd by lia.
  set (V := Zpos (md * mc) * 2 ^ (ed + ec + 1074)).
  assert (EV : V * 2 ^ 1074
               = (Zpos md * 2 ^ (ed + 1074)) * (Zpos mc * 2 ^ (ec + 1074))).
  { unfold V. rewrite Pos2Z.inj_mul.
    replace (Zpos md * 2 ^ (ed + 1074) * (Zpos mc * 2 ^ (ec + 1074)))
      with (Zpos md * Zpos mc * (2 ^ (ed + 1074) * 2 ^ (ec + 1074))) by ring.
    rewrite <- pow2_split by lia.
    rewrite <- Z.mul_assoc. f_equal. rewrite <- pow2_split by lia.
    f_equal. lia. }
  assert (HV : 0 <= V <= Zpos md * 2 ^ (ed + 1074)).
  { assert (P : 0 < 2 ^ 1074) by now compute.
    unfold unit_scaled in *.
    assert (0 < 2 ^ (ed + ec + 1074)) by (apply pow2_pos; lia).
    split; [unfold V; lia|].
    set (A := Zpos md * 2 ^ (ed + 1074)) in *.
    set (C := Zpos mc * 2 ^ (ec + 1074)) in *.
    set (W := 2 ^ 1074) in *. nia. }
  destruct (binary_round_scaled F32.prec F32.emax eq_refl ltac:(now compute)
              ltac:(now compute)
              sd (md * mc) (ed + ec) 5 ltac:(lia) ltac:(now compute)
              ltac:(now compute))
    as [Fr Er].
  { fold V. change (2 ^ (5 + 1074)) with (32 * unit_scaled). lia. }
  fold V in Er. fold err32 in Er.
  destruct (binary_round_sign F32.prec F32.emax eq_refl ltac:(now compute)
              sd (md * mc) (ed + ec)) as [_ Sr].
  destruct (scaled_sign (binary_round F32.prec F32.emax sd (md * mc) (ed + ec)))
    as [S0 S1].
  split; [exact Fr|]. cbn [scaled].
  destruct sd; cbn [cond_Zopp] in *.
  - specialize (S1 Sr). split; intros; lia.
  - specialize (S0 Sr). split; intros; lia.
Qed.

(** * Properties of the program *)

(** ** Clamp01 *)

Lemma Clamp01_cases (v : float) :
  (ltb v F32.zero = true /\ Clamp01 v = F32.zero) \/
  (ltb v F32.zero = false /\ gtb v F32.one = true /\ Clamp01 v = F32.one) \/
  (ltb v F32.zero = false /\ gtb v F32.one = false /\ Clamp01 v = v).
Proof.
  unfold Clamp01.
  destruct (ltb v F32.zero); [now left | right].
  destruct (gtb v F32.one); [now left | now right].
Qed.

Lemma Clamp01_unit_interval (v : float) :
  is_nan v = false -> in_unit_interval (Clamp01 v) = true.
Proof.
  intros Hv. unfold in_unit_interval.
  destruct (Clamp01_cases v) as [[_ ->]|[(_ & _ & ->)|(H0 & H1 & ->)]];
    try reflexivity.
  apply andb_true_intro; split.
  - now apply not_ltb_leb.
  - now apply not_ltb_leb.
Qed.

Lemma Clamp01_nan_iff (v : float) :
  is_nan (Clamp01 v) = true <-> is_nan v = true.
Proof.
  destruct (Clamp01_cases v) as [[H ->]|[(_ & H & ->)|(_ & _ & ->)]];
    simpl; [| |tauto]; split; intros E; try discriminate;
    destruct v; try discriminate.
Qed.

(** C9. [Clamp01] is idempotent, its result lies in [[0, 1]] whenever the
    argument is finite, and a NaN argument fails both comparisons and is
    returned unchanged. *)
Theorem Clamp01_idempotent_bounded :
  forall v : float,
    Clamp01 (Clamp01 v) = Clamp01 v /\
    (is_finite v = true ->
       leb F32.zero (Clamp01 v) = true /\ leb (Clamp01 v) F32.one = true) /\
    (is_nan v = true ->
       ltb v F32.zero = false /\ gtb v F32.one = false /\ Clamp01 v = v).
Proof.
  intros v. split; [|split].
  - destruct (Clamp01_cases v) as [[_ ->]|[(_ & _ & ->)|(H0 & H1 & E)]];
      try reflexivity.
    rewrite E. exact E.
  - intros Hf. apply andb_prop.
    apply (Clamp01_unit_interval v). now apply is_finite_not_nan.
  - intros Hn. destruct v; try discriminate. now compute.
Qed.

Lemma Clamp01_idempotent_bounded_witness :
  leb F32.zero (Clamp01 (F32.of_Z 3)) = true /\
  leb (Clamp01 (F32.of_Z 3)) F32.one = true.
Proof.
  apply (proj1 (proj2 (Clamp01_idempotent_bounded (F32.of_Z 3)))).
  reflexivity.
Defined.

(** ** ValidateInput *)

Lemma known_event_type_test (t : EventType) :
  Z.eqb t kUp || Z.eqb t kMove || Z.eqb t kDown = true <-> known_event_type t.
Proof.
  unfold known_event_type, kUp, kMove, kDown.
  rewrite !orb_true_iff, !Z.eqb_eq. tauto.
Qed.

Lemma ValidateIsFiniteNumber_ok (value : spec_float) (label : string) :
  ValidateIsFiniteNumber value label = OkStatus <-> is_finite value = true.
Proof.
  unfold ValidateIsFiniteNumber.
  destruct (is_finite value); split; intros H; try reflexivity;
    discriminate.
Qed.

Lemma prefix_append (s t : string) : String.prefix s (s ++ t) = true.
Proof.
  induction s as [|c s IH]; simpl.
  - now destruct t.
  - destruct (Ascii.ascii_dec c c); [exact IH | congruence].
Qed.

Lemma ValidateIsFiniteNumber_error (value : spec_float) (label : string) :
  is_finite value = false ->
  ok (ValidateIsFiniteNumber value label) = false /\
  invalid_argument_naming label (ValidateIsFiniteNumber value label).
Proof.
  intros H. unfold ValidateIsFiniteNumber. rewrite H.
  split; [reflexivity|]. split; [reflexivity|]. apply prefix_append.
Qed.

(** C1. [ValidateInput] succeeds exactly when the event type is Down, Move
    or Up and [position.x], [position.y] and [time] are finite.  Otherwise it
    returns an invalid-argument error for the first failing check, in the
    order event type, [position.x], [position.y], [time]; pressure, tilt and
    orientation have no influence on the result. *)
Theorem ValidateInput_spec :
  forall input : Input,
    (ValidateInput input = OkStatus <->
       known_event_type (event_type input) /\
       is_finite (x (position input)) = true /\
       is_finite (y (position input)) = true /\
       is_finite (time input) = true) /\
    (~ known_event_type (event_type input) ->
       ValidateInput input
       = InvalidArgumentError "Unknown Input.event_type."%string) /\
    (known_event_type (event_type input) ->
       is_finite (x (position input)) = false ->
       invalid_argument_naming "Input.position.x" (ValidateInput input)) /\
    (known_event_type (event_type input) ->
       is_finite (x (position input)) = true ->
       is_finite (y (position input)) = false ->
       invalid_argument_naming "Input.position.y" (ValidateInput input)) /\
    (known_event_type (event_type input) ->
       is_finite (x (position input)) = true ->
       is_finite (y (position input)) = true ->
       is_finite (time input) = false ->
       invalid_argument_naming "Input.time" (ValidateInput input)) /\
    (forall p t o : float,
       ValidateInput
         (mkInput (event_type input) (position input) (time input) p t o)
       = ValidateInput input).
Proof.
  intros [et [px py] tm pr ti ori]. unfold ValidateInput. simpl.
  destruct (Z.eqb et kUp || Z.eqb et kMove || Z.eqb et kDown) eqn:Het.
  - assert (K : known_event_type et) by now apply known_event_type_test.
    unfold RETURN_IF_ERROR, ValidateIsFiniteNumber.
    destruct (is_finite px), (is_finite py), (is_finite tm); simpl;
      repeat split; intros; try tauto; try discriminate; try reflexivity;
      try (exfalso; intuition discriminate).
  - assert (K : ~ known_event_type et).
    { intros K. apply known_event_type_test in K. congruence. }
    repeat split; intros; try tauto; try discriminate; try reflexivity.
Qed.

Lemma ValidateInput_spec_witness :
  ValidateInput
    (mkInput kDown (mkVec2 F32.one F32.one) F32.zero
       S754_nan S754_nan S754_nan) = OkStatus.
Proof.
  apply (proj1 (ValidateInput_spec _)). simpl.
  split; [left; reflexivity | repeat split].
Defined.

(** ** AbsoluteAngleTo *)

Lemma AbsoluteAngleTo_finite (atan2 : float -> float -> float)
    (show : Vec2 -> string) (self other : Vec2) :
  IsFinite self = true -> IsFinite other = true ->
  AbsoluteAngleTo atan2 show self other
  = Value (SFabs (atan2 (cross_product self other) (dot_product self other))).
Proof.
  intros Hs Ho. unfold AbsoluteAngleTo. now rewrite Hs, Ho.
Qed.

Lemma AbsoluteAngleTo_non_finite (atan2 : float -> float -> float)
    (show : Vec2 -> string) (self other : Vec2) :
  IsFinite self = false \/ IsFinite other = false ->
  exists msg : string,
    AbsoluteAngleTo atan2 show self other = Failure (InvalidArgumentError msg).
Proof.
  intros H. unfold AbsoluteAngleTo.
  destruct (IsFinite self), (IsFinite other); simpl;
    try (eexists; reflexivity).
  destruct H; discriminate.
Qed.

Lemma AbsoluteAngleTo_under_Separate (atan2 : float -> float -> float)
    (show : Vec2 -> string) (self other : Vec2) :
  AbsoluteAngleTo_under atan2 show Separate Separate self other
  = AbsoluteAngleTo atan2 show self other.
Proof. reflexivity. Qed.

Lemma AbsoluteAngleTo_under_finite (atan2 : float -> float -> float)
    (show : Vec2 -> string) (cdot cdet : Contraction) (self other : Vec2) :
  IsFinite self = true -> IsFinite other = true ->
  AbsoluteAngleTo_under atan2 show cdot cdet self other
  = Value (SFabs (atan2 (det_under cdet self other)
                        (dot_under cdot self other))).
Proof.
  intros Hs Ho. unfold AbsoluteAngleTo_under. now rewrite Hs, Ho.
Qed.

Lemma abs_between (p v : spec_float) :
  is_finite p = true -> sign_bit p = false ->
  leb (SFopp p) v = true -> leb v p = true ->
  leb F32.zero (SFabs v) = true /\ leb (SFabs v) p = true.
Proof.
  intros Hp Hs Hlo Hhi. unfold leb, SFleb in *.
  destruct v as [sv|sv| |sv mv ev].
  - destruct p as [sp|sp| |sp mp ep]; try discriminate; simpl in *; subst;
      now split.
  - destruct p as [sp|sp| |sp mp ep], sv; discriminate.
  - destruct p; discriminate.
  - destruct sv.
    + split; [reflexivity|].
      change (S754_finite true mv ev) with (SFopp (S754_finite false mv ev))
        in Hlo.
      rewrite SFcompare_opp in Hlo. exact Hlo.
    + split; [reflexivity | exact Hhi].
Qed.

(** C2, counterexample.  For the finite vectors [(2^127, 2^127)] and
    [(2, 2)] both products in [det] overflow to [+inf], [det] is
    [inf - inf], a NaN, and [atan2], which returns NaN for a NaN argument
    (C17 F.10 par. 11), makes the result NaN, which is not in [[0, pi]]. *)
Lemma AbsoluteAngleTo_overflow_nan :
  IsFinite v_huge = true /\ IsFinite v_two = true /\
  F32.valid (x v_huge) = true /\ F32.valid (x v_two) = true /\
  cross_product v_huge v_two = S754_nan /\
  (forall (atan2 : float -> float -> float) (show : Vec2 -> string),
     (forall x0 : float, atan2 S754_nan x0 = S754_nan) ->
     AbsoluteAngleTo atan2 show v_huge v_two = Value S754_nan) /\
  leb F32.zero S754_nan = false /\ leb S754_nan pi_f = false.
Proof.
  repeat split; try (now vm_compute).
  intros atan2 show Hnan.
  rewrite AbsoluteAngleTo_finite by reflexivity.
  replace (cross_product v_huge v_two) with S754_nan by now vm_compute.
  now rewrite Hnan.
Qed.

Section AbsoluteAngleTo_symmetry.
Variable atan2 : float -> float -> float.
Variable show : Vec2 -> string.

(** [atan2] is odd in its first argument, as the cases of Annex F
    (C17 F.10.1.4) are and as the mathematical function is. *)
Hypothesis atan2_odd :
  forall y x : float, atan2 (SFopp y) x = SFopp (atan2 y x).

Lemma dot_product_comm (a b : Vec2) : dot_product a b = dot_product b a.
Proof.
  unfold dot_product, F32.mul.
  now rewrite (SFmul_comm _ _ (x a)), (SFmul_comm _ _ (y a)).
Qed.

Lemma cross_product_swap (a b : Vec2) :
  cross_product b a = SFopp (cross_product a b) \/
  cross_product b a = cross_product a b.
Proof.
  unfold cross_product, F32.mul, F32.sub.
  rewrite (SFmul_comm _ _ (x b) (y a)), (SFmul_comm _ _ (y b) (x a)).
  destruct (SFsub_swap F32.prec F32.emax
              (SFmul F32.prec F32.emax (x a) (y b))
              (SFmul F32.prec F32.emax (y a) (x b))) as [H|[H1 H2]].
  - now left.
  - right. now rewrite H1, H2.
Qed.

Lemma fma_comm (a b c : float) : fma a b c = fma b a c.
Proof.
  unfold fma.
  destruct a as [sa|sa| |sa ma ea], b as [sb|sb| |sb mb eb];
    try (now rewrite (SFmul_comm F32.prec F32.emax));
    try (unfold F32.mul; now rewrite (SFmul_comm F32.prec F32.emax)).
  rewrite (xorb_comm sa sb), (Pos.mul_comm ma mb), (Z.add_comm ea eb).
  unfold F32.mul.
  rewrite (SFmul_comm F32.prec F32.emax (S754_finite sa ma ea)).
  reflexivity.
Qed.

(** [dot] does not depend on the order of the vectors, however it is
    evaluated. *)
Lemma dot_under_comm (c : Contraction) (a b : Vec2) :
  dot_under c a b = dot_under c b a.
Proof.
  destruct c; cbn [dot_under].
  - apply dot_product_comm.
  - rewrite fma_comm. f_equal. apply SFmul_comm.
  - rewrite fma_comm. f_equal. apply SFmul_comm.
Qed.

(** C8, amended. [AbsoluteAngleTo] is symmetric on finite vectors (zero
    vectors included) when the two products of [det] are each rounded
    before they are subtracted, however [dot] is evaluated: both calls
    return the same value. *)
Theorem AbsoluteAngleTo_symmetric :
  forall (cdot : Contraction) (a b : Vec2),
    IsFinite a = true -> IsFinite b = true ->
    AbsoluteAngleTo_under atan2 show cdot Separate a b
    = AbsoluteAngleTo_under atan2 show cdot Separate b a.
Proof.
  intros cdot a b Ha Hb.
  rewrite !AbsoluteAngleTo_under_finite by assumption.
  rewrite (dot_under_comm cdot b a).
  change (det_under Separate b a) with (cross_product b a).
  change (det_under Separate a b) with (cross_product a b).
  destruct (cross_product_swap a b) as [E|E]; rewrite E.
  - now rewrite atan2_odd, SFabs_opp.
  - reflexivity.
Qed.
End AbsoluteAngleTo_symmetry.

Lemma atan2_axes_odd (y x : float) :
  atan2_axes (SFopp y) x = SFopp (atan2_axes y x).
Proof.
  unfold atan2_axes, with_sign_of.
  destruct y as [sy|sy| |sy my ey]; simpl; try reflexivity;
    destruct (is_nan x); try reflexivity;
    destruct sy, (sign_bit x); reflexivity.
Qed.

Lemma AbsoluteAngleTo_symmetric_witness :
  AbsoluteAngleTo_under atan2_axes no_show FuseFirst Separate
    (mkVec2 F32.one F32.zero) (mkVec2 F32.zero F32.one)
  = AbsoluteAngleTo_under atan2_axes no_show FuseFirst Separate
      (mkVec2 F32.zero F32.one) (mkVec2 F32.one F32.zero).
Proof.
  apply (AbsoluteAngleTo_symmetric atan2_axes no_show atan2_axes_odd);
    reflexivity.
Defined.

(** C8, counterexample.  When [det] is contracted, one product enters the
    subtraction exactly and the other one rounded, and exchanging the
    vectors exchanges which one.  For [a = (1, 1 + 2^-13)] and
    [b = (1 - 2^-13, 1)] the product [1 * 1] is exact and the other one,
    [1 - 2^-26], rounds to 1: [det] is a zero in one order and [2^-26] in
    absolute value in the other, while [dot] is 2 in both.  With
    [atan2 (+0, 2) = +0] (C17 F.10.1.4) and [atan2 (+-2^-26, 2)] not a
    zero, the two calls return different values. *)
Lemma AbsoluteAngleTo_contracted_asymmetric :
  IsFinite a_skew = true /\ IsFinite b_skew = true /\
  F32.valid (x a_skew) = true /\ F32.valid (y a_skew) = true /\
  F32.valid (x b_skew) = true /\ F32.valid (y b_skew) = true /\
  is_zero (x a_skew) = false /\ is_zero (x b_skew) = false /\
  (forall c : Contraction,
     dot_under c a_skew b_skew = F32.of_Z 2 /\
     dot_under c b_skew a_skew = F32.of_Z 2) /\
  det_under FuseFirst a_skew b_skew = F32.zero /\
  det_under FuseFirst b_skew a_skew = SFopp two_pow_m26 /\
  det_under FuseSecond a_skew b_skew = two_pow_m26 /\
  det_under FuseSecond b_skew a_skew = F32.zero /\
  (forall (atan2 : float -> float -> float) (show : Vec2 -> string)
          (cdot cdet : Contraction),
     cdet <> Separate ->
     atan2 F32.zero (F32.of_Z 2) = F32.zero ->
     is_zero (atan2 two_pow_m26 (F32.of_Z 2)) = false ->
     is_zero (atan2 (SFopp two_pow_m26) (F32.of_Z 2)) = false ->
     AbsoluteAngleTo_under atan2 show cdot cdet a_skew b_skew
     <> AbsoluteAngleTo_under atan2 show cdot cdet b_skew a_skew).
Proof.
  assert (D : forall c : Contraction,
             dot_under c a_skew b_skew = F32.of_Z 2 /\
             dot_under c b_skew a_skew = F32.of_Z 2)
    by (intros []; split; vm_compute; reflexivity).
  repeat (split; [vm_compute; reflexivity|]).
  split; [exact D|].
  repeat (split; [vm_compute; reflexivity|]).
  intros atan2 show cdot cdet Hc H0 Hp Hn.
  rewrite !AbsoluteAngleTo_under_finite by reflexivity.
  destruct (D cdot) as [-> ->].
  destruct cdet; [contradiction|..].
  - replace (det_under FuseFirst a_skew b_skew) with F32.zero
      by (vm_compute; reflexivity).
    replace (det_under FuseFirst b_skew a_skew) with (SFopp two_pow_m26)
      by (vm_compute; reflexivity).
    rewrite H0.
    destruct (atan2 (SFopp two_pow_m26) (F32.of_Z 2)); discriminate.
  - replace (det_under FuseSecond a_skew b_skew) with two_pow_m26
      by (vm_compute; reflexivity).
    replace (det_under FuseSecond b_skew a_skew) with F32.zero
      by (vm_compute; reflexivity).
    rewrite H0.
    destruct (atan2 two_pow_m26 (F32.of_Z 2)); discriminate.
Qed.

Section AbsoluteAngleTo_range.
Variable atan2 : float -> float -> float.
Variable show : Vec2 -> string.

(** The range of [atan2]: [[-pi, +pi]] for arguments that are not NaN
    (C17 7.12.4.4; on [float] the bounds are [(float) M_PI]). *)
Hypothesis atan2_range :
  forall y0 x0 : float,
    is_nan y0 = false -> is_nan x0 = false ->
    leb (SFopp pi_f) (atan2 y0 x0) = true /\ leb (atan2 y0 x0) pi_f = true.

(** C2, amended. [AbsoluteAngleTo] returns an invalid-argument error if
    either vector is not finite; otherwise it returns
    [|atan2(det, dot)|] for the rounded [det] and [dot], and this value
    lies in [[0, pi]] whenever neither [det] nor [dot] is NaN, which is the
    case when none of the four products overflows. *)
Theorem AbsoluteAngleTo_spec :
  forall self other : Vec2,
    (IsFinite self = false \/ IsFinite other = false ->
       exists msg : string,
         AbsoluteAngleTo atan2 show self other
         = Failure (InvalidArgumentError msg)) /\
    (IsFinite self = true -> IsFinite other = true ->
       AbsoluteAngleTo atan2 show self other
       = Value (SFabs (atan2 (cross_product self other)
                             (dot_product self other))) /\
       (is_nan (cross_product self other) = false ->
        is_nan (dot_product self other) = false ->
        leb F32.zero
            (SFabs (atan2 (cross_product self other)
                          (dot_product self other))) = true /\
        leb (SFabs (atan2 (cross_product self other)
                          (dot_product self other))) pi_f = true) /\
       (is_finite (F32.mul (x self) (y other)) = true ->
        is_finite (F32.mul (y self) (x other)) = true ->
        is_finite (F32.mul (x self) (x other)) = true ->
        is_finite (F32.mul (y self) (y other)) = true ->
        leb F32.zero
            (SFabs (atan2 (cross_product self other)
                          (dot_product self other))) = true /\
        leb (SFabs (atan2 (cross_product self other)
                          (dot_product self other))) pi_f = true)).
Proof.
  intros self other. split.
  - apply AbsoluteAngleTo_non_finite.
  - intros Hs Ho.
    assert (R : is_nan (cross_product self other) = false ->
                is_nan (dot_product self other) = false ->
                leb F32.zero
                    (SFabs (atan2 (cross_product self other)
                                  (dot_product self other))) = true /\
                leb (SFabs (atan2 (cross_product self other)
                                  (dot_product self other))) pi_f = true).
    { intros Hc Hd. destruct (atan2_range _ _ Hc Hd) as [Hlo Hhi].
      now apply abs_between. }
    split; [now apply AbsoluteAngleTo_finite|]. split; [exact R|].
    intros P1 P2 P3 P4. apply R.
    + now apply F32_sub_not_nan.
    + now apply F32_add_not_nan.
Qed.
End AbsoluteAngleTo_range.

Lemma atan2_axes_range (y0 x0 : float) :
  is_nan y0 = false -> is_nan x0 = false ->
  leb (SFopp pi_f) (atan2_axes y0 x0) = true /\
  leb (atan2_axes y0 x0) pi_f = true.
Proof.
  intros Hy Hx. unfold atan2_axes. rewrite Hy, Hx. simpl.
  unfold with_sign_of.
  destruct (is_zero y0), (sign_bit x0), (sign_bit y0); now vm_compute.
Qed.

Lemma AbsoluteAngleTo_spec_witness :
  AbsoluteAngleTo atan2_axes no_show
    (mkVec2 F32.one F32.zero) (mkVec2 F32.zero F32.one) = Value half_pi_f /\
  leb F32.zero half_pi_f = true /\ leb half_pi_f pi_f = true.
Proof.
  destruct (AbsoluteAngleTo_spec atan2_axes no_show atan2_axes_range
              (mkVec2 F32.one F32.zero) (mkVec2 F32.zero F32.one))
    as [_ H].
  destruct (H eq_refl eq_refl) as (E & _ & R).
  split; [exact E | exact (R eq_refl eq_refl eq_refl eq_refl)].
Defined.

(** ** Normalize01 *)

(** C6, amended. When [start == end], [Normalize01] returns 1 if
    [value > start] and 0 otherwise.  When [start != end] it returns
    [(value - start) / (end - start)], evaluated in [float] and clamped by
    [Clamp01]: NaN when that quotient is NaN, a value of [[0, 1]] otherwise,
    which is the case for all finite arguments whose difference
    [end - start] does not overflow. *)
Theorem Normalize01_spec :
  forall start end_ value : float,
    (eqb start end_ = true ->
       Normalize01 start end_ value
       = if gtb value start then F32.one else F32.zero) /\
    (eqb start end_ = false ->
       Normalize01 start end_ value = Clamp01 (fraction_of start end_ value) /\
       (is_nan (fraction_of start end_ value) = false ->
          leb F32.zero (Normalize01 start end_ value) = true /\
          leb (Normalize01 start end_ value) F32.one = true) /\
       (is_nan (fraction_of start end_ value) = true ->
          Normalize01 start end_ value = S754_nan) /\
       (F32.valid start = true -> F32.valid end_ = true ->
        is_finite start = true -> is_finite end_ = true ->
        is_finite value = true ->
        is_finite (F32.sub end_ start) = true ->
          leb F32.zero (Normalize01 start end_ value) = true /\
          leb (Normalize01 start end_ value) F32.one = true)).
Proof.
  intros start end_ value. unfold Normalize01, fraction_of.
  destruct (eqb start end_) eqn:E; split; intros H; try discriminate.
  - reflexivity.
  - split; [reflexivity|]. split; [|split].
    + intros Hq. apply andb_prop. now apply Clamp01_unit_interval.
    + intros Hq. now destruct (F32.div _ _).
    + intros Vs Ve Fs Fe Fv Fd. apply andb_prop.
      apply Clamp01_unit_interval. apply SFdiv_not_nan.
      * now apply F32_sub_not_nan.
      * exact Fd.
      * destruct (is_zero (F32.sub end_ start)) eqn:Z; [|reflexivity].
        apply (F32_sub_zero_iff end_ start Ve Vs Fe Fs) in Z.
        rewrite eqb_sym in Z. congruence.
Qed.

Lemma Normalize01_spec_witness :
  leb F32.zero (Normalize01 (F32.of_Z 0) (F32.of_Z 10) (F32.of_Z 5)) = true /\
  leb (Normalize01 (F32.of_Z 0) (F32.of_Z 10) (F32.of_Z 5)) F32.one = true.
Proof.
  destruct (Normalize01_spec (F32.of_Z 0) (F32.of_Z 10) (F32.of_Z 5))
    as [_ H].
  destruct (H eq_refl) as (_ & _ & _ & R).
  apply R; vm_compute; reflexivity.
Defined.

(** C6, counterexample.  [Normalize01(0, 1, NaN)] is NaN, which is not in
    [[0, 1]]; so is [Normalize01(-FLT_MAX, FLT_MAX, FLT_MAX)], where both
    differences overflow and the quotient is [inf / inf]. *)
Lemma Normalize01_nan :
  Normalize01 F32.zero F32.one S754_nan = S754_nan /\
  in_unit_interval (Normalize01 F32.zero F32.one S754_nan) = false /\
  F32.valid flt_max = true /\ is_finite flt_max = true /\
  Normalize01 (SFopp flt_max) flt_max flt_max = S754_nan.
Proof. repeat split; now vm_compute. Qed.

(** ** NearestPointOnSegment *)

(** C5, amended. [NearestPointOnSegment] returns 0 when
    [segment_start == segment_end]; otherwise it returns the projection
    fraction, evaluated in [float] and clamped by [Clamp01]: NaN when that
    fraction is NaN, a value of [[0, 1]] otherwise, which is the case
    whenever the rounded dot product in the numerator is not NaN and the
    rounded squared length of the segment is finite and not zero. *)
Theorem NearestPointOnSegment_spec :
  forall segment_start segment_end point : Vec2,
    (vec_eqb segment_start segment_end = true ->
       NearestPointOnSegment segment_start segment_end point = F32.zero) /\
    (vec_eqb segment_start segment_end = false ->
       NearestPointOnSegment segment_start segment_end point
       = Clamp01 (projection_fraction segment_start segment_end point) /\
       (is_nan (projection_fraction segment_start segment_end point) = false ->
          leb F32.zero
              (NearestPointOnSegment segment_start segment_end point) = true /\
          leb (NearestPointOnSegment segment_start segment_end point)
              F32.one = true) /\
       (is_nan (projection_fraction segment_start segment_end point) = true ->
          NearestPointOnSegment segment_start segment_end point = S754_nan) /\
       (is_nan (dot_product (vec_sub point segment_start)
                            (vec_sub segment_end segment_start)) = false ->
        is_finite (dot_product (vec_sub segment_end segment_start)
                               (vec_sub segment_end segment_start)) = true ->
        is_zero (dot_product (vec_sub segment_end segment_start)
                             (vec_sub segment_end segment_start)) = false ->
          leb F32.zero
              (NearestPointOnSegment segment_start segment_end point) = true /\
          leb (NearestPointOnSegment segment_start segment_end point)
              F32.one = true)).
Proof.
  intros s e p. unfold NearestPointOnSegment, projection_fraction.
  destruct (vec_eqb s e); split; intros H; try discriminate.
  - reflexivity.
  - split; [reflexivity|]. split; [|split].
    + intros Hq. apply andb_prop. now apply Clamp01_unit_interval.
    + intros Hq. now destruct (F32.div _ _).
    + intros Hn Hf Hz. apply andb_prop. apply Clamp01_unit_interval.
      now apply SFdiv_not_nan.
Qed.

Lemma NearestPointOnSegment_spec_witness :
  leb F32.zero
    (NearestPointOnSegment (mkVec2 F32.zero F32.zero)
       (mkVec2 (F32.of_Z 10) F32.zero)
       (mkVec2 (F32.of_Z 5) (F32.of_Z 5))) = true /\
  leb (NearestPointOnSegment (mkVec2 F32.zero F32.zero)
         (mkVec2 (F32.of_Z 10) F32.zero)
         (mkVec2 (F32.of_Z 5) (F32.of_Z 5))) F32.one = true.
Proof.
  destruct (NearestPointOnSegment_spec (mkVec2 F32.zero F32.zero)
              (mkVec2 (F32.of_Z 10) F32.zero)
              (mkVec2 (F32.of_Z 5) (F32.of_Z 5))) as [_ H].
  destruct (H eq_refl) as (_ & _ & _ & R).
  apply R; vm_compute; reflexivity.
Defined.

(** C5, counterexample.  With a NaN coordinate in [point] the result is NaN,
    which is not in [[0, 1]].  The same happens for the finite, distinct
    end points [(0, 0)] and [(2^-100, 0)]: the squared length of the segment
    underflows to 0 and the quotient is [0 / 0]. *)
Lemma NearestPointOnSegment_nan :
  NearestPointOnSegment (mkVec2 F32.zero F32.zero) (mkVec2 F32.one F32.zero)
    (mkVec2 S754_nan F32.zero) = S754_nan /\
  in_unit_interval S754_nan = false /\
  F32.valid two_pow_m100 = true /\
  vec_eqb (mkVec2 F32.zero F32.zero) (mkVec2 two_pow_m100 F32.zero) = false /\
  NearestPointOnSegment (mkVec2 F32.zero F32.zero)
    (mkVec2 two_pow_m100 F32.zero) (mkVec2 F32.zero F32.zero) = S754_nan.
Proof. repeat split; now vm_compute. Qed.

(** ** Distance *)

(** C7, amended. [Distance(a, b)] is the magnitude of the rounded
    difference [b - a].  For points with finite coordinates this difference
    has no NaN coordinate, and it is the zero vector exactly when [a == b];
    so, provided [Magnitude] is a norm at that vector, the distance is at
    least 0 and is 0 if and only if [a == b]. *)
Theorem Distance_spec :
  forall (Magnitude : Vec2 -> float) (a b : Vec2),
    valid_vec a = true -> valid_vec b = true ->
    IsFinite a = true -> IsFinite b = true ->
    Distance Magnitude a b = Magnitude (vec_sub b a) /\
    is_nan (x (vec_sub b a)) = false /\
    is_nan (y (vec_sub b a)) = false /\
    (is_zero (x (vec_sub b a)) = true /\ is_zero (y (vec_sub b a)) = true
       <-> vec_eqb a b = true) /\
    (norm_at Magnitude (vec_sub b a) ->
       leb F32.zero (Distance Magnitude a b) = true /\
       (eqb (Distance Magnitude a b) F32.zero = true <-> vec_eqb a b = true)).
Proof.
  intros Magnitude [ax ay] [bx by_] Va Vb Fa Fb.
  unfold valid_vec, IsFinite in *. simpl in Va, Vb, Fa, Fb.
  apply andb_prop in Va, Vb, Fa, Fb.
  destruct Va as [Vax Vay], Vb as [Vbx Vby].
  destruct Fa as [Fax Fay], Fb as [Fbx Fby].
  assert (Nx : is_nan (F32.sub bx ax) = false) by now apply F32_sub_not_nan.
  assert (Ny : is_nan (F32.sub by_ ay) = false) by now apply F32_sub_not_nan.
  assert (Z : is_zero (F32.sub bx ax) = true /\
              is_zero (F32.sub by_ ay) = true
              <-> vec_eqb (mkVec2 ax ay) (mkVec2 bx by_) = true).
  { unfold vec_eqb. cbn [x y]. rewrite andb_true_iff.
    rewrite (eqb_sym ax bx), (eqb_sym ay by_).
    rewrite <- (F32_sub_zero_iff bx ax), <- (F32_sub_zero_iff by_ ay)
      by assumption.
    tauto. }
  unfold Distance, vec_sub. cbn [x y].
  split; [reflexivity|]. split; [exact Nx|]. split; [exact Ny|].
  split; [exact Z|].
  intros [Hnn Hz]. cbn [x y] in Hnn, Hz. split.
  - now apply Hnn.
  - rewrite Hz. exact Z.
Qed.

Lemma Distance_spec_witness :
  leb F32.zero
    (Distance Magnitude_sqrt (mkVec2 F32.zero F32.zero)
       (mkVec2 (F32.of_Z 3) (F32.of_Z 4))) = true /\
  Distance Magnitude_sqrt (mkVec2 F32.zero F32.zero)
    (mkVec2 (F32.of_Z 3) (F32.of_Z 4)) = F32.of_Z 5.
Proof.
  split; [|vm_compute; reflexivity].
  apply (Distance_spec Magnitude_sqrt (mkVec2 F32.zero F32.zero)
           (mkVec2 (F32.of_Z 3) (F32.of_Z 4)));
    try (vm_compute; reflexivity).
  split.
  - intros _ _. vm_compute. reflexivity.
  - split.
    + vm_compute. discriminate.
    + vm_compute. intros [H _]. discriminate.
Defined.

(** C7, counterexample.  With a NaN coordinate the difference has a NaN
    coordinate and the distance is NaN, which is not at least 0; and for
    the equal points [(inf, 0)] and [(inf, 0)] the difference is
    [(inf - inf, 0)], so the distance is not 0. *)
Lemma Distance_nan :
  vec_sub (mkVec2 F32.zero F32.zero) (mkVec2 S754_nan F32.zero)
  = mkVec2 S754_nan F32.zero /\
  Distance Magnitude_sqrt (mkVec2 S754_nan F32.zero)
    (mkVec2 F32.zero F32.zero) = S754_nan /\
  leb F32.zero S754_nan = false /\
  vec_eqb (mkVec2 (S754_infinity false) F32.zero)
          (mkVec2 (S754_infinity false) F32.zero) = true /\
  Distance Magnitude_sqrt (mkVec2 (S754_infinity false) F32.zero)
    (mkVec2 (S754_infinity false) F32.zero) = S754_nan /\
  eqb S754_nan F32.zero = false.
Proof. repeat split; vm_compute; reflexivity. Qed.

(** ** InterpAngle: the loops *)

Lemma raise_angle_done (fuel : nat) (angle : float) :
  ltb angle F32.zero = false -> raise_angle (S fuel) angle = Some angle.
Proof. intros H. simpl. now rewrite H. Qed.

Lemma lower_angle_done (fuel : nat) (angle : float) :
  gtb (to_double angle) two_pi = false ->
  lower_angle (S fuel) angle = Some angle.
Proof. intros H. simpl. now rewrite H. Qed.

Lemma raise_angle_exit (fuel : nat) (angle r : float) :
  raise_angle fuel angle = Some r -> ltb r F32.zero = false.
Proof.
  revert angle. induction fuel as [|fuel IH]; intros angle; simpl.
  - discriminate.
  - destruct (ltb angle F32.zero) eqn:E.
    + apply IH.
    + intros [= <-]. exact E.
Qed.

Lemma lower_angle_exit (fuel : nat) (angle r : float) :
  lower_angle fuel angle = Some r -> gtb (to_double r) two_pi = false.
Proof.
  revert angle. induction fuel as [|fuel IH]; intros angle; simpl.
  - discriminate.
  - destruct (gtb (to_double angle) two_pi) eqn:E.
    + apply IH.
    + intros [= <-]. exact E.
Qed.

Lemma raise_angle_more_fuel (fuel fuel' : nat) (angle r : float) :
  (fuel <= fuel')%nat ->
  raise_angle fuel angle = Some r -> raise_angle fuel' angle = Some r.
Proof.
  revert fuel' angle. induction fuel as [|fuel IH]; intros fuel' angle Hle;
    simpl; [discriminate|].
  destruct fuel' as [|fuel']; [lia|]. simpl.
  destruct (ltb angle F32.zero); [|trivial].
  apply IH. lia.
Qed.

Lemma lower_angle_more_fuel (fuel fuel' : nat) (angle r : float) :
  (fuel <= fuel')%nat ->
  lower_angle fuel angle = Some r -> lower_angle fuel' angle = Some r.
Proof.
  revert fuel' angle. induction fuel as [|fuel IH]; intros fuel' angle Hle;
    simpl; [discriminate|].
  destruct fuel' as [|fuel']; [lia|]. simpl.
  destruct (gtb (to_double angle) two_pi); [|trivial].
  apply IH. lia.
Qed.

Lemma normalize_angle_more_fuel (fuel fuel' : nat) (angle r : float) :
  (fuel <= fuel')%nat ->
  normalize_angle fuel angle = Some r -> normalize_angle fuel' angle = Some r.
Proof.
  intros Hle. unfold normalize_angle, bind.
  destruct (raise_angle fuel angle) as [a|] eqn:E; [|discriminate].
  rewrite (raise_angle_more_fuel fuel fuel' angle a Hle E).
  now apply lower_angle_more_fuel.
Qed.

(** A loop whose body leaves the angle unchanged never ends. *)
Lemma lower_angle_stuck (angle : float) :
  gtb (to_double angle) two_pi = true -> sub_two_pi angle = angle ->
  forall fuel : nat, lower_angle fuel angle = None.
Proof.
  intros Hgt Hfix fuel. induction fuel as [|fuel IH]; simpl.
  - reflexivity.
  - now rewrite Hgt, Hfix.
Qed.

Lemma normalize_angle_stuck (angle : float) :
  ltb angle F32.zero = false ->
  gtb (to_double angle) two_pi = true -> sub_two_pi angle = angle ->
  forall fuel : nat, normalize_angle fuel angle = None.
Proof.
  intros Hneg Hgt Hfix fuel. unfold normalize_angle, bind.
  destruct fuel as [|fuel]; [reflexivity|].
  rewrite raise_angle_done by assumption.
  now apply lower_angle_stuck.
Qed.

Lemma two_pow_100_stuck :
  ltb two_pow_100 F32.zero = false /\
  gtb (to_double two_pow_100) two_pi = true /\
  sub_two_pi two_pow_100 = two_pow_100.
Proof. repeat split; vm_compute; reflexivity. Qed.

Lemma infinity_stuck :
  ltb (S754_infinity false) F32.zero = false /\
  gtb (to_double (S754_infinity false)) two_pi = true /\
  sub_two_pi (S754_infinity false) = S754_infinity false.
Proof. repeat split; vm_compute; reflexivity. Qed.

(** C4, counterexample.  For the finite angle [2^100] the second loop of
    [normalize_angle] never ends: [2^100 - 2 * M_PI] rounds back to [2^100],
    so [InterpAngle] returns for no bound on the iterations.  The same holds
    for [+inf]. *)
Lemma InterpAngle_diverges :
  F32.valid two_pow_100 = true /\ is_finite two_pow_100 = true /\
  sub_two_pi two_pow_100 = two_pow_100 /\
  (forall (fuel : nat) (end_ interp_amount : float),
     InterpAngle fuel two_pow_100 end_ interp_amount = None) /\
  (forall (fuel : nat) (end_ interp_amount : float),
     InterpAngle fuel (S754_infinity false) end_ interp_amount = None).
Proof.
  destruct two_pow_100_stuck as (H1 & H2 & H3).
  destruct infinity_stuck as (I1 & I2 & I3).
  split; [vm_compute; reflexivity|].
  split; [vm_compute; reflexivity|].
  split; [exact H3|].
  split; intros fuel end_ t; unfold InterpAngle.
  - now rewrite (normalize_angle_stuck two_pow_100 H1 H2 H3 fuel).
  - now rewrite (normalize_angle_stuck (S754_infinity false) I1 I2 I3 fuel).
Qed.

(** C3, counterexample.  With a NaN interpolation amount (or a NaN angle)
    [InterpAngle] returns NaN, which is not in [[0, 2 pi)]. *)
Lemma InterpAngle_nan :
  InterpAngle 1 F32.zero F32.zero S754_nan = Some S754_nan /\
  InterpAngle 1 S754_nan F32.zero F32.zero = Some S754_nan /\
  leb F32.zero S754_nan = false /\ ltb (to_double S754_nan) two_pi = false.
Proof. repeat split; vm_compute; reflexivity. Qed.

Lemma normalize_angle_exit (fuel : nat) (angle r : float) :
  normalize_angle fuel angle = Some r -> gtb (to_double r) two_pi = false.
Proof.
  unfold normalize_angle, bind.
  destruct (raise_angle fuel angle) as [a|]; [|discriminate].
  apply lower_angle_exit.
Qed.

Lemma normalize_angle_done (fuel : nat) (angle : float) :
  ltb angle F32.zero = false -> gtb (to_double angle) two_pi = false ->
  normalize_angle (S fuel) angle = Some angle.
Proof.
  intros H0 H1. unfold normalize_angle, bind.
  rewrite raise_angle_done by assumption.
  now apply lower_angle_done.
Qed.

(** When [start] and [end] already lie in [[0, 2 pi]], neither of the first
    two normalizations iterates. *)
Lemma InterpAngle_prenormalized :
  forall (fuel : nat) (start end_ interp_amount : float),
    ltb start F32.zero = false -> gtb (to_double start) two_pi = false ->
    ltb end_ F32.zero = false -> gtb (to_double end_) two_pi = false ->
    InterpAngle (S fuel) start end_ interp_amount
    = normalize_angle (S fuel)
        (Interp start (shorter_arc_end start end_) interp_amount).
Proof.
  intros fuel start end_ t S0 S1 E0 E1. unfold InterpAngle.
  rewrite !normalize_angle_done by assumption. reflexivity.
Qed.

(** ** InterpAngle: signs and canonical forms *)

Lemma ltb_zero_sign (f : spec_float) :
  sign_bit f = false -> ltb f F32.zero = false.
Proof.
  destruct f as [[]|[]| |[] m e]; simpl; intros H; try discriminate;
    reflexivity.
Qed.

Lemma to_float_sign (d : double) :
  is_nan d = false ->
  is_nan (to_float d) = false /\ sign_bit (to_float d) = sign_bit d.
Proof.
  intros H. destruct d as [s|s| |s m e]; try (now split).
  unfold to_float. rewrite binary_normalize_cond_Zopp.
  apply binary_round_sign; [reflexivity | now compute].
Qed.

Lemma to_double_sign (f : float) :
  is_nan f = false ->
  is_nan (to_double f) = false /\ sign_bit (to_double f) = sign_bit f.
Proof.
  intros H. destruct f as [s|s| |s m e]; try (now split).
  unfold to_double. rewrite binary_normalize_cond_Zopp.
  apply binary_round_sign; [reflexivity | now compute].
Qed.

Lemma to_float_valid (d : double) : F32.valid (to_float d) = true.
Proof.
  destruct d as [s|s| |s m e]; try reflexivity.
  apply binary_normalize_valid; [reflexivity | now compute].
Qed.

Lemma to_double_valid (f : float) : F64.valid (to_double f) = true.
Proof.
  destruct f as [s|s| |s m e]; try reflexivity.
  apply binary_normalize_valid; [reflexivity | now compute].
Qed.

Lemma two_pi_eq : two_pi = S754_finite false 7074237752028440 (-50).
Proof. vm_compute. reflexivity. Qed.

Lemma sub_two_pi_sign (angle : float) :
  gtb (to_double angle) two_pi = true ->
  is_nan (sub_two_pi angle) = false /\ sign_bit (sub_two_pi angle) = false.
Proof.
  intros H. unfold sub_two_pi, gtb, F64.sub in *. rewrite two_pi_eq in *.
  destruct (SFsub_gt_sign F64.prec F64.emax eq_refl ltac:(now compute)
              (to_double angle) 7074237752028440 (-50)
              (to_double_valid angle) eq_refl H) as [Hn Hs].
  destruct (to_float_sign _ Hn) as [Hn' Hs'].
  split; [exact Hn'|]. rewrite Hs'. exact Hs.
Qed.

Lemma lower_angle_not_negative (fuel : nat) (angle r : float) :
  lower_angle fuel angle = Some r ->
  ltb angle F32.zero = false -> ltb r F32.zero = false.
Proof.
  revert angle. induction fuel as [|fuel IH]; intros angle; simpl.
  - discriminate.
  - destruct (gtb (to_double angle) two_pi) eqn:E.
    + intros Hr _. apply (IH _ Hr).
      apply ltb_zero_sign. now apply sub_two_pi_sign.
    + now intros [= <-].
Qed.

Lemma normalize_angle_bounds (fuel : nat) (angle r : float) :
  normalize_angle fuel angle = Some r ->
  ltb r F32.zero = false /\ gtb (to_double r) two_pi = false.
Proof.
  intros H. split; [|now apply (normalize_angle_exit fuel angle)].
  unfold normalize_angle, bind in H.
  destruct (raise_angle fuel angle) as [a|] eqn:E; [|discriminate].
  apply (lower_angle_not_negative fuel a r H).
  now apply (raise_angle_exit fuel angle).
Qed.

Lemma Clamp01_valid (v : float) :
  F32.valid v = true -> F32.valid (Clamp01 v) = true.
Proof.
  intros V.
  destruct (Clamp01_cases v) as [[_ ->]|[(_ & _ & ->)|(_ & _ & ->)]];
    trivial.
Qed.

Lemma add_two_pi_valid (angle : float) : F32.valid (add_two_pi angle) = true.
Proof. apply to_float_valid. Qed.

Lemma sub_two_pi_valid (angle : float) : F32.valid (sub_two_pi angle) = true.
Proof. apply to_float_valid. Qed.

Lemma raise_angle_valid (fuel : nat) (angle r : float) :
  F32.valid angle = true -> raise_angle fuel angle = Some r ->
  F32.valid r = true.
Proof.
  revert angle. induction fuel as [|fuel IH]; intros angle V; simpl.
  - discriminate.
  - destruct (ltb angle F32.zero).
    + apply IH. apply add_two_pi_valid.
    + now intros [= <-].
Qed.

Lemma lower_angle_valid (fuel : nat) (angle r : float) :
  F32.valid angle = true -> lower_angle fuel angle = Some r ->
  F32.valid r = true.
Proof.
  revert angle. induction fuel as [|fuel IH]; intros angle V; simpl.
  - discriminate.
  - destruct (gtb (to_double angle) two_pi).
    + apply IH. apply sub_two_pi_valid.
    + now intros [= <-].
Qed.

Lemma normalize_angle_valid (fuel : nat) (angle r : float) :
  F32.valid angle = true -> normalize_angle fuel angle = Some r ->
  F32.valid r = true.
Proof.
  intros V. unfold normalize_angle, bind.
  destruct (raise_angle fuel angle) as [a|] eqn:E; [|discriminate].
  apply lower_angle_valid. now apply (raise_angle_valid fuel angle).
Qed.

Lemma shorter_arc_end_valid (start end_ : float) :
  F32.valid end_ = true -> F32.valid (shorter_arc_end start end_) = true.
Proof.
  intros V. unfold shorter_arc_end.
  destruct (ltb _ neg_pi); [apply add_two_pi_valid|].
  destruct (gtb _ M_PI); [apply sub_two_pi_valid | exact V].
Qed.

Lemma Interp_float_valid (start end_ t : float) :
  F32.valid start = true -> F32.valid end_ = true -> F32.valid t = true ->
  F32.valid (Interp start end_ t) = true.
Proof.
  intros Vs Ve Vt. unfold Interp. cbn [v_add v_sub v_scale Interpolable_float].
  apply SFadd_valid; [reflexivity | now compute | exact Vs |].
  apply SFmul_valid; [reflexivity | now compute | | now apply Clamp01_valid].
  apply SFsub_valid; [reflexivity | now compute | exact Ve | exact Vs].
Qed.

(** A [float] converted to [double] is never the double [2 * M_PI]. *)
Lemma to_double_not_two_pi (f : float) :
  F32.valid f = true -> to_double f <> two_pi.
Proof.
  intros V E. rewrite two_pi_eq in E.
  destruct f as [s|s| |s m e]; try discriminate.
  destruct (F32_valid_digits s m e V) as [Hd He].
  unfold to_double in E. rewrite binary_normalize_cond_Zopp in E.
  destruct (binary_round_spec F64.prec F64.emax eq_refl ltac:(now compute)
              s m e) as (m' & e' & Hr & Hm & Hb & _ & Hex & _).
  rewrite Hr in E. pose proof (digits_pos m) as Dp.
  unfold SpecFloat.fexp, SpecFloat.emin, F64.prec, F64.emax in Hb.
  destruct m' as [|p|p]; [discriminate| |lia]. cbn [pack] in E.
  destruct (e' <=? F64.emax - F64.prec); [|discriminate].
  injection E as _ Ep Ee. subst e'.
  specialize (Hex ltac:(lia)). rewrite Ep in Hex.
  assert (K : 28 <= e - -50) by lia.
  replace (e - -50) with ((e - -50 - 28) + 28) in Hex by lia.
  rewrite pow2_split in Hex by lia. rewrite Z.mul_assoc in Hex.
  assert (M : 7074237752028440 mod 2 ^ 28 = 0).
  { rewrite Hex. apply Z.mod_mul. now compute. }
  now compute in M.
Qed.

(** ** InterpAngle: the loops on values *)

Lemma scaled_constants :
  0 < err32 /\ 0 < err64 /\ 0 < unit_scaled /\
  err32 + err64 < unit_scaled /\
  two_pi_scaled = 2 * pi_scaled /\
  3 * unit_scaled + 6 * err32 + 6 * err64 < pi_scaled /\
  pi_scaled + 6 * err32 + 6 * err64 < 4 * unit_scaled.
Proof. repeat split; vm_compute; reflexivity. Qed.

Lemma fin64_two_pi : fin64 two_pi.
Proof. split; vm_compute; reflexivity. Qed.

Lemma fin64_M_PI : fin64 M_PI.
Proof. split; vm_compute; reflexivity. Qed.

Lemma fin64_neg_pi : fin64 neg_pi /\ scaled neg_pi = - pi_scaled.
Proof. repeat split; vm_compute; reflexivity. Qed.

Lemma fin32_zero : fin32 F32.zero.
Proof. split; reflexivity. Qed.

Lemma add_two_pi_scaled (a : float) :
  fin32 a -> -22 * unit_scaled <= scaled a <= 22 * unit_scaled ->
  fin32 (add_two_pi a) /\
  Z.abs (scaled (add_two_pi a) - (scaled a + two_pi_scaled))
    <= err32 + err64.
Proof.
  intros Fa Ha. unfold add_two_pi.
  destruct scaled_constants as (E32 & E64 & U & EU & TP & P3 & P4).
  destruct (to_double_scaled a Fa) as [Fd Sd].
  destruct (F64_add_scaled (to_double a) two_pi Fd fin64_two_pi) as [F1 S1].
  { rewrite Sd. fold two_pi_scaled. lia. }
  fold two_pi_scaled in S1. rewrite Sd in S1.
  destruct (to_float_scaled _ F1) as [F2 S2]; [lia|].
  split; [exact F2 | lia].
Qed.

Lemma sub_two_pi_scaled (a : float) :
  fin32 a -> -22 * unit_scaled <= scaled a <= 22 * unit_scaled ->
  fin32 (sub_two_pi a) /\
  Z.abs (scaled (sub_two_pi a) - (scaled a - two_pi_scaled))
    <= err32 + err64.
Proof.
  intros Fa Ha. unfold sub_two_pi.
  destruct scaled_constants as (E32 & E64 & U & EU & TP & P3 & P4).
  destruct (to_double_scaled a Fa) as [Fd Sd].
  destruct (F64_sub_scaled (to_double a) two_pi Fd fin64_two_pi) as [F1 S1].
  { rewrite Sd. fold two_pi_scaled. lia. }
  fold two_pi_scaled in S1. rewrite Sd in S1.
  destruct (to_float_scaled _ F1) as [F2 S2]; [lia|].
  split; [exact F2 | lia].
Qed.

Lemma negative_scaled (a : float) :
  fin32 a -> ltb a F32.zero = (scaled a <? 0).
Proof. intros Fa. now rewrite (ltb_scaled32 a F32.zero Fa fin32_zero). Qed.

Lemma above_two_pi_scaled (a : float) :
  fin32 a -> gtb (to_double a) two_pi = (two_pi_scaled <? scaled a).
Proof.
  intros Fa. destruct (to_double_scaled a Fa) as [Fd Sd].
  unfold gtb. change (SFltb two_pi (to_double a)) with (ltb two_pi (to_double a)).
  rewrite (ltb_scaled64 two_pi (to_double a) fin64_two_pi Fd), Sd.
  reflexivity.
Qed.

(** The first loop ends after at most [k] iterations when the angle is at
    least [-6 k]. *)
Lemma raise_angle_terminates (k : nat) (a : float) :
  fin32 a -> (k <= 3)%nat -> - 6 * Z.of_nat k * unit_scaled <= scaled a ->
  exists r : float,
    raise_angle (S k) a = Some r /\ fin32 r /\ 0 <= scaled r /\
    (r = a \/ scaled r <= two_pi_scaled + err32 + err64).
Proof.
  destruct scaled_constants as (E32 & E64 & U & EU & TP & P3 & P4).
  revert a. induction k as [|k IH]; intros a Fa Hk Ha.
  - cbn [raise_angle]. rewrite (negative_scaled a Fa).
    destruct (Z.ltb_spec (scaled a) 0) as [L|G]; [lia|].
    exists a. repeat split; try assumption; try lia; apply Fa || now left.
  - change (raise_angle (S (S k)) a)
      with (if ltb a F32.zero then raise_angle (S k) (add_two_pi a)
            else Some a).
    rewrite (negative_scaled a Fa).
    assert (Hb : Z.of_nat (S k) * unit_scaled <= 3 * unit_scaled)
      by (apply Z.mul_le_mono_nonneg_r; lia).
    destruct (Z.ltb_spec (scaled a) 0) as [L|G].
    + destruct (add_two_pi_scaled a Fa ltac:(lia)) as [F' S'].
      destruct (IH (add_two_pi a) F' ltac:(lia) ltac:(lia))
        as (r & Hr & Fr & R0 & R1).
      exists r. repeat split; try assumption; try apply Fr.
      right. destruct R1 as [->|R1]; lia.
    + exists a. repeat split; try assumption; try lia; apply Fa || now left.
Qed.

(** The second loop ends after at most [k] iterations when the angle is at
    most [2 pi + 6 k]. *)
Lemma lower_angle_terminates (k : nat) (a : float) :
  fin32 a -> (k <= 2)%nat ->
  - unit_scaled <= scaled a <= two_pi_scaled + 6 * Z.of_nat k * unit_scaled ->
  exists r : float, lower_angle (S k) a = Some r /\ fin32 r.
Proof.
  destruct scaled_constants as (E32 & E64 & U & EU & TP & P3 & P4).
  revert a. induction k as [|k IH]; intros a Fa Hk Ha.
  - cbn [lower_angle]. rewrite (above_two_pi_scaled a Fa).
    destruct (Z.ltb_spec two_pi_scaled (scaled a)) as [L|G]; [lia|].
    exists a. split; [reflexivity | exact Fa].
  - change (lower_angle (S (S k)) a)
      with (if gtb (to_double a) two_pi
            then lower_angle (S k) (sub_two_pi a) else Some a).
    rewrite (above_two_pi_scaled a Fa).
    assert (Hb : Z.of_nat (S k) * unit_scaled <= 2 * unit_scaled)
      by (apply Z.mul_le_mono_nonneg_r; lia).
    destruct (Z.ltb_spec two_pi_scaled (scaled a)) as [L|G].
    + destruct (sub_two_pi_scaled a Fa ltac:(lia)) as [F' S'].
      apply (IH (sub_two_pi a) F'); lia.
    + exists a. split; [reflexivity | exact Fa].
Qed.

(** [normalize_angle] needs at most one iteration of each loop for an angle
    of [[-6, 2 pi + 6]]. *)
Lemma normalize_angle_terminates (a : float) :
  fin32 a ->
  - 6 * unit_scaled <= scaled a <= two_pi_scaled + 6 * unit_scaled ->
  exists r : float, normalize_angle 2 a = Some r.
Proof.
  intros Fa Ha.
  destruct scaled_constants as (E32 & E64 & U & EU & TP & P3 & P4).
  destruct (raise_angle_terminates 1 a Fa ltac:(lia) ltac:(lia))
    as (a1 & H1 & F1 & L1 & B1).
  destruct (lower_angle_terminates 1 a1 F1 ltac:(lia)) as (r & Hr & _).
  { destruct B1 as [->|B1]; lia. }
  exists r. unfold normalize_angle, bind. now rewrite H1.
Qed.

(** ** InterpAngle on normalized angles *)

Lemma prenormalized_fin (a : float) :
  F32.valid a = true -> is_nan a = false ->
  ltb a F32.zero = false -> gtb (to_double a) two_pi = false ->
  fin32 a /\ 0 <= scaled a <= two_pi_scaled.
Proof.
  intros V N L G.
  assert (F : is_finite a = true).
  { destruct a as [s|s| |s m e]; try reflexivity; try discriminate.
    destruct s; [discriminate L | discriminate G]. }
  assert (Fa : fin32 a) by now split.
  rewrite (negative_scaled a Fa) in L.
  rewrite (above_two_pi_scaled a Fa) in G.
  apply Z.ltb_ge in L, G. now split.
Qed.

Lemma shorter_arc_end_scaled (s e : float) :
  fin32 s -> fin32 e ->
  0 <= scaled s <= two_pi_scaled -> 0 <= scaled e <= two_pi_scaled ->
  fin32 (shorter_arc_end s e) /\
  Z.abs (scaled (shorter_arc_end s e) - scaled s) <= span_bound.
Proof.
  intros Fs Fe Hs He. unfold span_bound.
  destruct scaled_constants as (E32 & E64 & U & EU & TP & P3 & P4).
  destruct fin64_neg_pi as [Fn Sn].
  destruct (F32_sub_scaled e s Fe Fs ltac:(lia)) as [Fd Sd].
  destruct (to_double_scaled _ Fd) as [Fd' Sd'].
  unfold shorter_arc_end.
  rewrite (ltb_scaled64 _ neg_pi Fd' Fn), Sd', Sn.
  unfold gtb. change (SFltb M_PI ?d) with (ltb M_PI d).
  rewrite (ltb_scaled64 M_PI _ fin64_M_PI Fd'), Sd'. fold pi_scaled.
  destruct (Z.ltb_spec (scaled (F32.sub e s)) (- pi_scaled)) as [L|L].
  - destruct (add_two_pi_scaled e Fe ltac:(lia)) as [F' S'].
    split; [exact F' | lia].
  - destruct (Z.ltb_spec pi_scaled (scaled (F32.sub e s))) as [G|G].
    + destruct (sub_two_pi_scaled e Fe ltac:(lia)) as [F' S'].
      split; [exact F' | lia].
    + split; [exact Fe | lia].
Qed.

Lemma Clamp01_scaled (t : float) :
  F32.valid t = true -> is_nan t = false ->
  fin32 (Clamp01 t) /\ 0 <= scaled (Clamp01 t) <= unit_scaled.
Proof.
  intros V N.
  assert (F1 : fin32 F32.one) by (split; reflexivity).
  assert (S1 : scaled F32.one = unit_scaled) by (vm_compute; reflexivity).
  assert (U : 0 < unit_scaled) by (vm_compute; reflexivity).
  destruct (Clamp01_cases t) as [[_ ->]|[(_ & _ & ->)|(L & G & ->)]].
  - split; [apply fin32_zero | simpl; lia].
  - split; [exact F1 | lia].
  - assert (F : is_finite t = true).
    { destruct t as [s|s| |s m e]; try reflexivity; try discriminate.
      destruct s; [discriminate L | discriminate G]. }
    assert (Ft : fin32 t) by now split.
    rewrite (negative_scaled t Ft) in L.
    unfold gtb in G. change (SFltb F32.one t) with (ltb F32.one t) in G.
    rewrite (ltb_scaled32 F32.one t F1 Ft), S1 in G.
    apply Z.ltb_ge in L, G. now split.
Qed.

Lemma Interp_scaled (s e c : float) :
  fin32 s -> fin32 e -> fin32 c ->
  0 <= scaled c <= unit_scaled ->
  0 <= scaled s <= two_pi_scaled ->
  Z.abs (scaled e - scaled s) <= span_bound ->
  fin32 (F32.add s (F32.mul (F32.sub e s) c)) /\
  - 6 * unit_scaled <= scaled (F32.add s (F32.mul (F32.sub e s) c))
    <= two_pi_scaled + 6 * unit_scaled.
Proof.
  intros Fs Fe Fc Hc Hs Hd. unfold span_bound in Hd.
  destruct scaled_constants as (E32 & E64 & U & EU & TP & P3 & P4).
  destruct (F32_sub_scaled e s Fe Fs ltac:(lia)) as [Fd Sd].
  destruct (F32_mul_scaled_unit _ c Fd Fc Hc ltac:(lia)) as (Fp & Pp & Pn).
  assert (Hp : Z.abs (scaled (F32.mul (F32.sub e s) c))
               <= Z.abs (scaled (F32.sub e s)) + err32) by lia.
  destruct (F32_add_scaled s _ Fs Fp ltac:(lia)) as [Fx Sx].
  split; [exact Fx | lia].
Qed.

Lemma normalize_angle_nan (fuel : nat) :
  normalize_angle (S fuel) S754_nan = Some S754_nan.
Proof. apply normalize_angle_done; reflexivity. Qed.

Lemma F32_add_nan_r (a : float) : F32.add a S754_nan = S754_nan.
Proof. now destruct a. Qed.

Lemma F32_mul_nan_r (a : float) : F32.mul a S754_nan = S754_nan.
Proof. now destruct a. Qed.

Lemma shorter_arc_end_nan (s : float) : shorter_arc_end s S754_nan = S754_nan.
Proof. reflexivity. Qed.

(** [Interp] on angles is NaN as soon as one of its arguments is. *)
Lemma Interp_angle_nan (s e t : float) :
  is_nan s = true \/ is_nan e = true \/ is_nan t = true ->
  Interp s (shorter_arc_end s e) t = S754_nan.
Proof.
  unfold Interp. cbn [v_add v_sub v_scale Interpolable_float].
  intros [H|[H|H]].
  - now destruct s.
  - destruct e; try discriminate. rewrite shorter_arc_end_nan.
    change (F32.sub S754_nan s) with S754_nan.
    change (F32.mul S754_nan (Clamp01 t)) with S754_nan.
    apply F32_add_nan_r.
  - destruct t; try discriminate.
    change (Clamp01 S754_nan) with S754_nan.
    rewrite F32_mul_nan_r. apply F32_add_nan_r.
Qed.

Lemma InterpAngle_more_fuel (fuel fuel' : nat) (s e t r : float) :
  (fuel <= fuel')%nat ->
  InterpAngle fuel s e t = Some r -> InterpAngle fuel' s e t = Some r.
Proof.
  intros Hle. unfold InterpAngle, bind.
  destruct (normalize_angle fuel s) as [s'|] eqn:Es; [|discriminate].
  destruct (normalize_angle fuel e) as [e'|] eqn:Ee; [|discriminate].
  rewrite (normalize_angle_more_fuel fuel fuel' s s' Hle Es).
  rewrite (normalize_angle_more_fuel fuel fuel' e e' Hle Ee).
  now apply normalize_angle_more_fuel.
Qed.

(** C4, amended. When [start] and [end] are [float]s that already lie in
    [[0, 2 pi]] (or are NaN), [InterpAngle] runs to completion whatever the
    interpolation amount is, and each of its loops tests its condition at
    most twice: the first two normalizations do not iterate, the last one
    iterates each loop at most once. *)
Theorem InterpAngle_terminates :
  forall start end_ interp_amount : float,
    F32.valid start = true -> F32.valid end_ = true ->
    F32.valid interp_amount = true ->
    ltb start F32.zero = false -> gtb (to_double start) two_pi = false ->
    ltb end_ F32.zero = false -> gtb (to_double end_) two_pi = false ->
    normalize_angle 1 start = Some start /\
    normalize_angle 1 end_ = Some end_ /\
    exists r : float,
      InterpAngle 2 start end_ interp_amount = Some r /\
      (forall fuel : nat,
         (2 <= fuel)%nat ->
         InterpAngle fuel start end_ interp_amount = Some r).
Proof.
  intros s e t Vs Ve Vt S0 S1 E0 E1.
  split; [now apply normalize_angle_done|].
  split; [now apply normalize_angle_done|].
  assert (H : exists r : float, InterpAngle 2 s e t = Some r).
  { rewrite InterpAngle_prenormalized by assumption.
    destruct (is_nan s) eqn:Ns;
      [rewrite Interp_angle_nan by auto; eexists; apply normalize_angle_nan|].
    destruct (is_nan e) eqn:Ne;
      [rewrite Interp_angle_nan by auto; eexists; apply normalize_angle_nan|].
    destruct (is_nan t) eqn:Nt;
      [rewrite Interp_angle_nan by auto; eexists; apply normalize_angle_nan|].
    destruct (prenormalized_fin s Vs Ns S0 S1) as [Fs Hs].
    destruct (prenormalized_fin e Ve Ne E0 E1) as [Fe He].
    destruct (shorter_arc_end_scaled s e Fs Fe Hs He) as [Fa Ha].
    destruct (Clamp01_scaled t Vt Nt) as [Fc Hc].
    destruct (Interp_scaled s _ _ Fs Fa Fc Hc Hs Ha) as [Fx Hx].
    now apply normalize_angle_terminates. }
  destruct H as [r Hr]. exists r. split; [exact Hr|].
  intros fuel Hf. now apply (InterpAngle_more_fuel 2 fuel).
Qed.

Lemma InterpAngle_terminates_witness :
  exists r : float,
    InterpAngle 2 (S754_finite false 13176795 (-24))
      (S754_finite false 11529695 (-21)) (S754_finite false 8388608 (-24))
    = Some r.
Proof.
  destruct (InterpAngle_terminates
              (S754_finite false 13176795 (-24))
              (S754_finite false 11529695 (-21))
              (S754_finite false 8388608 (-24)))
    as (_ & _ & r & Hr & _); try (vm_compute; reflexivity).
  exists r. exact Hr.
Defined.

Lemma normalize_angle_of_nan (fuel : nat) (r : float) :
  normalize_angle fuel S754_nan = Some r -> r = S754_nan.
Proof.
  destruct fuel as [|fuel]; [discriminate|].
  rewrite normalize_angle_nan. now intros [= <-].
Qed.

(** C3, amended. For [float] arguments, whenever [InterpAngle] returns a
    value that is not NaN, this value lies in [[0, 2 pi)]: it is at least 0
    and strictly below the double [2 * M_PI].  It is the normalized
    interpolation between the normalized [start] and an end point that lies
    within [pi] of it, up to the rounding of the three operations that
    compute it (less than [2^-16]). *)
Theorem InterpAngle_range :
  forall (fuel : nat) (start end_ interp_amount r : float),
    F32.valid start = true -> F32.valid end_ = true ->
    F32.valid interp_amount = true ->
    InterpAngle fuel start end_ interp_amount = Some r ->
    is_nan r = false ->
    (leb F32.zero r = true /\ ltb (to_double r) two_pi = true) /\
    exists start' end' : float,
      normalize_angle fuel start = Some start' /\
      normalize_angle fuel end_ = Some end' /\
      normalize_angle fuel
        (Interp start' (shorter_arc_end start' end') interp_amount) = Some r /\
      Z.abs (scaled (shorter_arc_end start' end') - scaled start')
        <= span_bound /\
      span_bound < pi_scaled + 2 ^ (1074 - 16).
Proof.
  intros fuel start end_ t r Vs Ve Vt H Hn.
  unfold InterpAngle, bind in H.
  destruct (normalize_angle fuel start) as [s'|] eqn:Es; [|discriminate].
  destruct (normalize_angle fuel end_) as [e'|] eqn:Ee; [|discriminate].
  pose proof (normalize_angle_valid fuel start s' Vs Es) as Vs'.
  pose proof (normalize_angle_valid fuel end_ e' Ve Ee) as Ve'.
  assert (Vx : F32.valid (Interp s' (shorter_arc_end s' e') t) = true).
  { apply Interp_float_valid; trivial. now apply shorter_arc_end_valid. }
  pose proof (normalize_angle_valid fuel _ r Vx H) as Vr.
  destruct (normalize_angle_bounds fuel _ r H) as [Hlo Hhi].
  split.
  - split.
    + now apply not_ltb_leb.
    + destruct (to_double_sign r Hn) as [Hnd _].
      unfold gtb, ltb, SFltb in *.
      rewrite (SFcompare_antisym two_pi (to_double r)) in Hhi.
      destruct (SFcompare (to_double r) two_pi) as [[| |]|] eqn:Ec;
        try reflexivity; try discriminate.
      * exfalso. rewrite two_pi_eq in Ec. apply SFcompare_eq_finite in Ec.
        rewrite <- two_pi_eq in Ec. now apply (to_double_not_two_pi r).
      * apply SFcompare_nan_iff in Ec. destruct Ec as [Ec|Ec].
        -- congruence.
        -- now rewrite two_pi_eq in Ec.
  - exists s', e'. split; [reflexivity|]. split; [reflexivity|].
    split; [exact H|].
    assert (N : is_nan s' = false /\ is_nan e' = false).
    { destruct (is_nan s') eqn:Ns.
      - rewrite Interp_angle_nan in H by auto.
        apply normalize_angle_of_nan in H. now subst r.
      - destruct (is_nan e') eqn:Ne; [|now split].
        rewrite Interp_angle_nan in H by auto.
        apply normalize_angle_of_nan in H. now subst r. }
    destruct N as [Ns Ne].
    destruct (normalize_angle_bounds fuel _ _ Es) as [S0 S1].
    destruct (normalize_angle_bounds fuel _ _ Ee) as [E0 E1].
    destruct (prenormalized_fin s' Vs' Ns S0 S1) as [Fs Hs].
    destruct (prenormalized_fin e' Ve' Ne E0 E1) as [Fe He].
    split.
    + now apply shorter_arc_end_scaled.
    + vm_compute. reflexivity.
Qed.

Lemma InterpAngle_range_witness :
  leb F32.zero (S754_finite false 12303662 (-46)) = true /\
  ltb (to_double (S754_finite false 12303662 (-46))) two_pi = true.
Proof.
  apply (InterpAngle_range 5
           (S754_finite false 13176795 (-24))
           (S754_finite false 11529695 (-21))
           (S754_finite false 8388608 (-24))
           (S754_finite false 12303662 (-46)));
    vm_compute; reflexivity.
Defined.

(** * Further properties of the program *)

(** ** Exact operations *)

(** Shifting out zero bits loses nothing: the round and sticky bits stay
    clear. *)
Lemma shr_1_even (z : Z) :
  0 < z ->
  shr_1 (Build_shr_record (2 * z) false false) = Build_shr_record z false false.
Proof. intros H. destruct z as [|p|p]; try lia. reflexivity. Qed.

Lemma shr_exact (q : positive) (e n : Z) :
  0 <= n ->
  shr (shr_record_of_loc (Zpos q * 2 ^ n) loc_Exact) e n
  = (Build_shr_record (Zpos q) false false, e + n).
Proof.
  intros Hn. destruct n as [|p|p]; [| |lia].
  - cbn [shr]. change (2 ^ 0) with 1. rewrite Z.mul_1_r, Z.add_0_r.
    reflexivity.
  - cbn [shr]. f_equal.
    pose proof (iter_pos_invariant shr_1
      (fun k mrs => k <= Zpos p ->
         mrs = Build_shr_record (Zpos q * 2 ^ (Zpos p - k)) false false)) as I.
    replace (Zpos q) with (Zpos q * 2 ^ (Zpos p - (0 + Zpos p))) at 2
      by (replace (Zpos p - (0 + Zpos p)) with 0 by lia; lia).
    apply I; try lia.
    + intros k mrs Hk Hx Hle. rewrite Hx by lia.
      replace (Zpos p - k) with ((Zpos p - (k + 1)) + 1) by lia.
      rewrite pow2_split by lia. change (2 ^ 1) with 2.
      replace (Zpos q * (2 ^ (Zpos p - (k + 1)) * 2))
        with (2 * (Zpos q * 2 ^ (Zpos p - (k + 1)))) by ring.
      apply shr_1_even.
      assert (0 < 2 ^ (Zpos p - (k + 1))) by (apply pow2_pos; lia). lia.
    + intros _. rewrite Z.sub_0_r. reflexivity.
Qed.

Lemma digits_mul_pow2 (q : positive) (n : Z) :
  0 <= n -> Zdigits2 (Zpos q * 2 ^ n) = digits q + n.
Proof.
  intros Hn. pose proof (digits_bounds q) as [Dlo Dhi].
  pose proof (digits_pos q).
  assert (P : 0 < 2 ^ n) by now apply pow2_pos.
  apply Zdigits2_unique; [lia|].
  replace (digits q + n - 1) with ((digits q - 1) + n) by lia.
  rewrite !pow2_split by lia. nia.
Qed.

(** Rounding a canonical mantissa followed by [n] zero bits gives the
    mantissa back. *)
Lemma binary_round_aux_exact (prec emax : Z) (s : bool) (q : positive)
    (e n : Z) :
  0 <= n ->
  canonical_mantissa prec emax q (e + n) = true ->
  binary_round_aux prec emax s (Zpos q * 2 ^ n) e loc_Exact
  = pack prec emax s (Zpos q) (e + n).
Proof.
  intros Hn C. apply canonical_iff in C.
  unfold binary_round_aux, shr_fexp.
  rewrite digits_mul_pow2 by assumption.
  replace (digits q + n + e) with (digits q + (e + n)) by lia.
  rewrite C. replace (e + n - e) with n by lia.
  rewrite shr_exact by assumption.
  cbn [loc_of_shr_record shr_m shr_r shr_s round_nearest_even].
  rewrite Zdigits2_pos, C, Z.sub_diag. reflexivity.
Qed.

(** Multiplication by one is exact. *)
Lemma F32_mul_one (v : float) : F32.valid v = true -> F32.mul v F32.one = v.
Proof.
  intros V. destruct v as [s|s| |s m e];
    [now destruct s | now destruct s | reflexivity |].
  simpl in V. unfold bounded in V. apply andb_prop in V.
  destruct V as [C B]. apply Z.leb_le in B.
  unfold F32.mul, F32.one, SFmul. rewrite xorb_false_r.
  rewrite Pos2Z.inj_mul. change (Zpos 8388608) with (2 ^ 23).
  rewrite (binary_round_aux_exact F32.prec F32.emax s m (e + -23) 23)
    by (try lia; replace (e + -23 + 23) with e by lia; exact C).
  replace (e + -23 + 23) with e by lia. cbn [pack].
  destruct (Z.leb_spec e (F32.emax - F32.prec)); [reflexivity | lia].
Qed.

Lemma div_eucl_mul (a b : Z) : 0 < b -> Z.div_eucl (b * a) b = (a, 0).
Proof.
  intros Hb.
  pose proof (Z.div_mul a b ltac:(lia)) as Hq.
  pose proof (Z.mod_mul a b ltac:(lia)) as Hr.
  rewrite (Z.mul_comm a b) in Hq, Hr.
  unfold Z.div, Z.modulo in Hq, Hr.
  destruct (Z.div_eucl (b * a) b) as [q r]. now subst.
Qed.

Lemma new_location_zero (n : Z) : new_location n 0 = loc_Exact.
Proof. unfold new_location. now destruct (Z.even n). Qed.

(** A finite number that is not zero, divided by itself, is exactly one. *)
Lemma F32_div_self (v : float) :
  is_finite v = true -> is_zero v = false -> F32.div v v = F32.one.
Proof.
  intros F N. destruct v as [s|s| |s m e]; try discriminate.
  unfold F32.div, SFdiv, SFdiv_core_binary.
  replace (Zdigits2 (Zpos m) + e - (Zdigits2 (Zpos m) + e)) with 0 by lia.
  rewrite Z.sub_diag.
  change (Z.min (fexp F32.prec F32.emax 0) 0) with (-24).
  change (0 - -24) with 24.
  cbv beta iota zeta.
  rewrite Z.shiftl_mul_pow2 by lia.
  rewrite div_eucl_mul by lia.
  rewrite new_location_zero, xorb_nilpotent.
  vm_compute. reflexivity.
Qed.

(** A finite number minus itself is [+0]. *)
Lemma F32_sub_self (v : float) :
  is_finite v = true -> F32.sub v v = F32.zero.
Proof.
  intros F. destruct v as [[]| | |s m e]; try discriminate; try reflexivity.
  unfold F32.sub, SFsub. rewrite Z.sub_diag. reflexivity.
Qed.

Lemma F32_div_zero_l (z d : float) :
  is_zero z = true -> is_nan d = false -> is_zero d = false ->
  is_zero (F32.div z d) = true.
Proof.
  destruct z; try discriminate. destruct d; try discriminate; reflexivity.
Qed.

Lemma F32_mul_opp_r (a b : float) :
  F32.mul a (SFopp b) = SFopp (F32.mul a b).
Proof.
  assert (X : forall s t : bool, xorb s (negb t) = negb (xorb s t))
    by (intros [] []; reflexivity).
  destruct a as [sa|sa| |sa ma ea], b as [sb|sb| |sb mb eb];
    try reflexivity; simpl; try (now rewrite X).
  unfold F32.mul, SFmul. rewrite binary_round_aux_opp. now rewrite X.
Qed.

(** ** Signs of squares and sums *)

Lemma F32_mul_self_sign (v : float) :
  is_finite v = true ->
  is_nan (F32.mul v v) = false /\ sign_bit (F32.mul v v) = false.
Proof.
  intros F. destruct v as [[]| | |s m e]; try discriminate; try (now split).
  unfold F32.mul, SFmul. rewrite xorb_nilpotent.
  destruct (binary_round_aux_not_nan F32.prec F32.emax false
              (Zpos (m * m)) (e + e) loc_Exact ltac:(lia))
    as (m' & e' & Hm & ->).
  now apply pack_sign.
Qed.

Lemma F32_mul_self_abs (a b : float) :
  SFabs a = SFabs b -> F32.mul a a = F32.mul b b.
Proof.
  destruct a as [sa|sa| |sa ma ea], b as [sb|sb| |sb mb eb];
    try discriminate; simpl; intros H; try reflexivity.
  - now rewrite !xorb_nilpotent.
  - now rewrite !xorb_nilpotent.
  - injection H as -> ->. unfold F32.mul, SFmul.
    now rewrite !xorb_nilpotent.
Qed.

(** The sum of two numbers of the same sign is not NaN and has that
    sign. *)
Lemma F32_add_same_sign (s : bool) (a b : float) :
  is_nan a = false -> is_nan b = false ->
  sign_bit a = s -> sign_bit b = s ->
  is_nan (F32.add a b) = false /\ sign_bit (F32.add a b) = s.
Proof.
  intros Na Nb Sa Sb.
  destruct a as [sa|sa| |sa ma ea], b as [sb|sb| |sb mb eb];
    try discriminate; simpl in Sa, Sb; destruct s, sa, sb;
    try discriminate; try (now split);
    unfold F32.add, SFadd; cbn [cond_Zopp];
    (destruct (_ + _) as [|z|z] eqn:E; try lia); simpl;
    apply binary_round_sign; (reflexivity || now compute).
Qed.

Lemma F32_sub_swap_abs (a b : float) :
  SFabs (F32.sub b a) = SFabs (F32.sub a b).
Proof.
  destruct (SFsub_swap F32.prec F32.emax a b) as [H|[H1 H2]].
  - unfold F32.sub. rewrite H. apply SFabs_opp.
  - unfold F32.sub. now rewrite H1, H2.
Qed.

(** ** Order of positive numbers *)

Lemma ltb_positive (m1 m2 : positive) (e1 e2 : Z) :
  ltb (S754_finite false m1 e1) (S754_finite false m2 e2) = true <->
  e1 < e2 \/ (e1 = e2 /\ (m1 < m2)%positive).
Proof.
  unfold ltb, SFltb. simpl.
  change (PosDef.Pos.compare_cont Eq m1 m2) with (Pos.compare m1 m2).
  destruct (Z.compare_spec e1 e2).
  - destruct (Pos.compare_spec m1 m2); split; try discriminate; try lia;
      reflexivity.
  - split; [lia | reflexivity].
  - split; [discriminate | lia].
Qed.

Lemma leb_positive (m1 m2 : positive) (e1 e2 : Z) :
  leb (S754_finite false m1 e1) (S754_finite false m2 e2) = true <->
  e1 < e2 \/ (e1 = e2 /\ (m1 <= m2)%positive).
Proof.
  unfold leb, SFleb. simpl.
  change (PosDef.Pos.compare_cont Eq m1 m2) with (Pos.compare m1 m2).
  destruct (Z.compare_spec e1 e2).
  - destruct (Pos.compare_spec m1 m2); split; try discriminate; try lia;
      reflexivity.
  - split; [lia | reflexivity].
  - split; [discriminate | lia].
Qed.

Lemma above_one_trans (a b : float) :
  gtb a F32.one = true -> leb a b = true -> gtb b F32.one = true.
Proof.
  unfold gtb. change SFltb with ltb. unfold F32.one.
  destruct a as [[]|[]| |[] ma ea]; try discriminate;
    destruct b as [[]|[]| |[] mb eb]; try discriminate; try reflexivity.
  rewrite !ltb_positive, leb_positive. lia.
Qed.

Lemma below_zero_trans (a b : float) :
  leb a b = true -> ltb b F32.zero = true -> ltb a F32.zero = true.
Proof.
  destruct a as [[]|[]| |[] ma ea]; try discriminate; try reflexivity;
    destruct b as [[]|[]| |[] mb eb]; try discriminate; try reflexivity.
Qed.

Lemma leb_not_nan (a b : spec_float) :
  leb a b = true -> is_nan a = false /\ is_nan b = false.
Proof.
  destruct a as [[]|[]| |[] ma ea]; try discriminate;
    destruct b as [[]|[]| |[] mb eb]; try discriminate; now split.
Qed.

Lemma eqb_zero_r (v z : float) :
  is_zero z = true -> eqb v z = true -> is_zero v = true.
Proof.
  destruct z; try discriminate.
  destruct v as [[]|[]| |[] m e]; try discriminate; reflexivity.
Qed.

Lemma leb_scaled32 (a b : float) :
  fin32 a -> fin32 b -> leb a b = (scaled a <=? scaled b).
Proof.
  intros Fa Fb. unfold leb, SFleb.
  rewrite (SFcompare_scaled F32.prec F32.emax eq_refl ltac:(now compute) a b)
    by assumption.
  unfold Z.leb. now destruct (scaled a ?= scaled b).
Qed.

(** A number between two finite numbers is finite. *)
Lemma between_finite (lo hi a : float) :
  is_finite lo = true -> is_finite hi = true ->
  leb lo a = true -> leb a hi = true -> is_finite a = true.
Proof.
  intros Fl Fh L H.
  destruct a as [s|[]| |s m e]; try reflexivity.
  - destruct lo as [[]| | |[] ml el]; discriminate.
  - destruct hi as [[]| | |[] mh eh]; discriminate.
  - destruct lo as [[]| | |[] ml el]; discriminate.
Qed.

Lemma between_scaled (lo hi a : float) :
  fin32 lo -> fin32 hi -> F32.valid a = true ->
  leb lo a = true -> leb a hi = true ->
  fin32 a /\ scaled lo <= scaled a <= scaled hi.
Proof.
  intros Fl Fh V L H.
  assert (Fa : fin32 a)
    by (split; [exact V|];
        apply (between_finite lo hi a); try assumption;
        apply Fl || apply Fh).
  rewrite (leb_scaled32 _ _ Fl Fa) in L. rewrite (leb_scaled32 _ _ Fa Fh) in H.
  apply Z.leb_le in L, H. split; [exact Fa | lia].
Qed.

(** ** Clamp01: order *)

Lemma Clamp01_zero (z : float) : is_zero z = true -> Clamp01 z = z.
Proof. destruct z as [[]| | |]; try discriminate; reflexivity. Qed.

Lemma Clamp01_not_positive (t : float) :
  leb t F32.zero = true -> is_zero (Clamp01 t) = true.
Proof. destruct t as [[]|[]| |[] m e]; try discriminate; reflexivity. Qed.

Lemma Clamp01_at_least_one (t : float) :
  leb F32.one t = true -> Clamp01 t = F32.one.
Proof.
  intros H.
  destruct (Clamp01_cases t) as [[L _]|[(_ & _ & E)|(_ & G & E)]].
  - destruct t as [[]|[]| |[] m e]; discriminate.
  - exact E.
  - rewrite E. unfold gtb, leb, SFltb, SFleb in *.
    destruct (SFcompare F32.one t) as [[| |]|] eqn:C; try discriminate.
    rewrite SFcompare_antisym in C.
    destruct (SFcompare t F32.one) as [[| |]|] eqn:C'; try discriminate.
    now apply SFcompare_eq_finite in C'.
Qed.

Lemma Clamp01_finite (t : float) :
  is_nan t = false -> is_finite (Clamp01 t) = true.
Proof.
  intros N.
  destruct (Clamp01_cases t) as [[_ ->]|[(_ & _ & ->)|(L & G & ->)]];
    try reflexivity.
  destruct t as [s|[]| |s m e]; try reflexivity; discriminate.
Qed.

(** X1. [Clamp01] preserves the order: if [a <= b] then
    [Clamp01(a) <= Clamp01(b)], infinite arguments included. *)
Theorem Clamp01_monotone :
  forall a b : float,
    leb a b = true -> leb (Clamp01 a) (Clamp01 b) = true.
Proof.
  intros a b H. destruct (leb_not_nan a b H) as [Na Nb].
  pose proof (Clamp01_unit_interval b Nb) as Ub.
  unfold in_unit_interval in Ub. apply andb_prop in Ub.
  destruct Ub as [Ub0 Ub1].
  destruct (Clamp01_cases a) as [[_ Ea]|[(_ & Ga & Ea)|(La & Ga & Ea)]];
    rewrite Ea.
  - exact Ub0.
  - pose proof (above_one_trans a b Ga H) as Gb.
    destruct (Clamp01_cases b) as [[Lb _]|[(_ & _ & Eb)|(_ & Gb' & _)]].
    + pose proof (below_zero_trans a b H Lb) as La.
      unfold gtb in Ga. change SFltb with ltb in Ga.
      destruct a as [[]|[]| |[] ma ea]; discriminate.
    + rewrite Eb. reflexivity.
    + congruence.
  - destruct (Clamp01_cases b) as [[Lb _]|[(_ & _ & Eb)|(_ & _ & Eb)]].
    + pose proof (below_zero_trans a b H Lb). congruence.
    + rewrite Eb. apply not_ltb_leb; trivial.
    + rewrite Eb. exact H.
Qed.

Lemma Clamp01_monotone_witness :
  leb (Clamp01 (S754_infinity true)) (Clamp01 (S754_finite false 8388608 (-24)))
  = true /\
  leb (Clamp01 (S754_finite false 8388608 (-24))) (Clamp01 (F32.of_Z 7))
  = true.
Proof.
  split; apply Clamp01_monotone; reflexivity.
Defined.

(** ** Normalize01 and NearestPointOnSegment at the end points *)

(** X2. For finite [start != end], [Normalize01] maps [start] to a zero;
    it maps [end] to exactly 1 when [end - start] does not overflow, and to
    NaN when it does. *)
Theorem Normalize01_endpoints :
  forall start end_ : float,
    F32.valid start = true -> F32.valid end_ = true ->
    is_finite start = true -> is_finite end_ = true ->
    eqb start end_ = false ->
    is_zero (Normalize01 start end_ start) = true /\
    (is_finite (F32.sub end_ start) = true ->
       Normalize01 start end_ end_ = F32.one) /\
    (is_finite (F32.sub end_ start) = false ->
       Normalize01 start end_ end_ = S754_nan).
Proof.
  intros start end_ Vs Ve Fs Fe Hne. unfold Normalize01. rewrite Hne.
  pose proof (F32_sub_not_nan end_ start Fe Fs) as Nd.
  assert (Zd : is_zero (F32.sub end_ start) = false).
  { destruct (is_zero (F32.sub end_ start)) eqn:Z; [|reflexivity].
    apply (F32_sub_zero_iff end_ start Ve Vs Fe Fs) in Z.
    rewrite eqb_sym in Z. congruence. }
  split; [|split].
  - rewrite F32_sub_self by assumption.
    pose proof (F32_div_zero_l F32.zero _ eq_refl Nd Zd) as Hz.
    now rewrite Clamp01_zero.
  - intros Fd. now rewrite F32_div_self.
  - intros Fd. destruct (F32.sub end_ start); try discriminate; reflexivity.
Qed.

Lemma Normalize01_endpoints_witness :
  is_zero (Normalize01 (F32.of_Z 2) (F32.of_Z 12) (F32.of_Z 2)) = true /\
  Normalize01 (F32.of_Z 2) (F32.of_Z 12) (F32.of_Z 12) = F32.one /\
  Normalize01 (SFopp flt_max) flt_max flt_max = S754_nan.
Proof.
  destruct (Normalize01_endpoints (F32.of_Z 2) (F32.of_Z 12)
              eq_refl eq_refl eq_refl eq_refl eq_refl) as (H0 & H1 & _).
  destruct (Normalize01_endpoints (SFopp flt_max) flt_max
              eq_refl eq_refl eq_refl eq_refl eq_refl) as (_ & _ & H2).
  split; [exact H0|]. split; [exact (H1 eq_refl) | exact (H2 eq_refl)].
Defined.

(** The squared length of a vector with finite coordinates is not NaN and
    not negative. *)
Lemma dot_product_self_sign (v : Vec2) :
  IsFinite v = true ->
  is_nan (dot_product v v) = false /\ sign_bit (dot_product v v) = false.
Proof.
  intros F. apply andb_prop in F. destruct F as [Fx Fy].
  destruct (F32_mul_self_sign (x v) Fx) as [Nx Sx].
  destruct (F32_mul_self_sign (y v) Fy) as [Ny Sy].
  now apply F32_add_same_sign.
Qed.

Lemma dot_product_zero_l (z v : Vec2) :
  is_zero (x z) = true -> is_zero (y z) = true -> IsFinite v = true ->
  is_zero (dot_product z v) = true.
Proof.
  intros Zx Zy F. apply andb_prop in F. destruct F as [Fx Fy].
  unfold dot_product.
  destruct (x z) as [sx| | |]; try discriminate.
  destruct (y z) as [sy| | |]; try discriminate.
  destruct (x v) as [[]| | |[] mx ex]; try discriminate;
    destruct (y v) as [[]| | |[] my ey]; try discriminate;
    destruct sx, sy; reflexivity.
Qed.

(** X3. For a segment with finite, distinct end points whose difference
    does not overflow and whose squared length does not underflow to zero,
    [NearestPointOnSegment] maps the start of the segment to a zero; it maps
    the end of the segment to exactly 1 when the squared length does not
    overflow. *)
Theorem NearestPointOnSegment_endpoints :
  forall segment_start segment_end : Vec2,
    IsFinite segment_start = true ->
    vec_eqb segment_start segment_end = false ->
    IsFinite (vec_sub segment_end segment_start) = true ->
    is_zero (dot_product (vec_sub segment_end segment_start)
                         (vec_sub segment_end segment_start)) = false ->
    is_zero (NearestPointOnSegment segment_start segment_end segment_start)
      = true /\
    (is_finite (dot_product (vec_sub segment_end segment_start)
                            (vec_sub segment_end segment_start)) = true ->
       NearestPointOnSegment segment_start segment_end segment_end
       = F32.one).
Proof.
  intros segment_start segment_end Fa Hne Fs Zd.
  unfold NearestPointOnSegment. rewrite Hne. cbv zeta. split.
  - destruct (dot_product_self_sign _ Fs) as [Nd _].
    apply andb_prop in Fa. destruct Fa as [Fx Fy].
    assert (Hz : is_zero (dot_product (vec_sub segment_start segment_start)
                            (vec_sub segment_end segment_start)) = true).
    { apply dot_product_zero_l; [| |exact Fs]; unfold vec_sub; cbn [x y];
        now rewrite F32_sub_self. }
    pose proof (F32_div_zero_l _ _ Hz Nd Zd) as Hq.
    now rewrite Clamp01_zero.
  - intros Fd. now rewrite F32_div_self.
Qed.

Lemma NearestPointOnSegment_endpoints_witness :
  is_zero (NearestPointOnSegment (mkVec2 F32.one (F32.of_Z 2))
             (mkVec2 (F32.of_Z 4) (F32.of_Z 6))
             (mkVec2 F32.one (F32.of_Z 2))) = true /\
  NearestPointOnSegment (mkVec2 F32.one (F32.of_Z 2))
    (mkVec2 (F32.of_Z 4) (F32.of_Z 6))
    (mkVec2 (F32.of_Z 4) (F32.of_Z 6)) = F32.one.
Proof.
  destruct (NearestPointOnSegment_endpoints (mkVec2 F32.one (F32.of_Z 2))
              (mkVec2 (F32.of_Z 4) (F32.of_Z 6))
              eq_refl eq_refl eq_refl eq_refl) as [H0 H1].
  split; [exact H0 | exact (H1 eq_refl)].
Defined.

(** ** Normalize01 and NearestPointOnSegment below the start *)

(** The difference [a - b] of two finite numbers with [a < b] is negative:
    it is not NaN, it is not a zero, and its sign bit is set; it may be
    [-inf]. *)
Lemma F32_sub_lt_sign (a b : float) :
  fin32 a -> fin32 b -> ltb a b = true ->
  is_nan (F32.sub a b) = false /\ sign_bit (F32.sub a b) = true /\
  is_zero (F32.sub a b) = false.
Proof.
  intros Fa Fb H. rewrite (ltb_scaled32 a b Fa Fb) in H. apply Z.ltb_lt in H.
  destruct a as [sa|sa| |sa ma ea], b as [sb|sb| |sb mb eb];
    try (destruct Fa as [_ Fa]; discriminate);
    try (destruct Fb as [_ Fb]; discriminate).
  - destruct (scaled_sign (S754_finite sb mb eb)) as [_ S1].
    destruct sb; [specialize (S1 eq_refl); cbn [scaled] in *; lia|].
    repeat split.
  - destruct (scaled_sign (S754_finite sa ma ea)) as [S0 _].
    destruct sa; [|specialize (S0 eq_refl); cbn [scaled] in *; lia].
    repeat split.
  - pose proof (fin_exponent F32.prec F32.emax ltac:(now compute) _ _ _ Fa)
      as Ea.
    pose proof (fin_exponent F32.prec F32.emax ltac:(now compute) _ _ _ Fb)
      as Eb.
    destruct Fa as [Va _], Fb as [Vb _].
    destruct (F32_valid_digits _ _ _ Va) as [_ Ea'].
    destruct (F32_valid_digits _ _ _ Vb) as [_ Eb'].
    unfold F32.sub, SFsub.
    assert (E : (cond_Zopp sa (Zpos (fst (shl_align ma ea (Z.min ea eb))))
                 - cond_Zopp sb (Zpos (fst (shl_align mb eb (Z.min ea eb)))))
                * 2 ^ (Z.min ea eb + 1074)
                = scaled (S754_finite sa ma ea) - scaled (S754_finite sb mb eb)).
    { rewrite Z.mul_sub_distr_r.
      rewrite !aligned_scaled by lia. reflexivity. }
    assert (P : 0 < 2 ^ (Z.min ea eb + 1074)) by (apply pow2_pos; lia).
    destruct (_ - _) as [|z|z] eqn:D in E |- *; try nia.
    cbn [binary_normalize].
    destruct (binary_round_sign F32.prec F32.emax eq_refl ltac:(now compute)
                true z (Z.min ea eb)) as [N S].
    split; [exact N|]. split; [exact S|].
    apply binary_round_nonzero; [reflexivity | now compute |].
    unfold SpecFloat.emin, F32.prec, F32.emax. lia.
Qed.

Lemma SFopp_negative (v : float) :
  is_nan v = false /\ sign_bit v = true /\ is_zero v = false ->
  is_nan (SFopp v) = false /\ sign_bit (SFopp v) = false /\
  is_zero (SFopp v) = false.
Proof.
  destruct v as [[]|[]| |[] m e]; intros (N & S & Z); try discriminate;
    repeat split.
Qed.

(** The difference [b - a] of two finite numbers with [a < b] is
    positive. *)
Lemma F32_sub_gt_sign (a b : float) :
  fin32 a -> fin32 b -> ltb a b = true ->
  is_nan (F32.sub b a) = false /\ sign_bit (F32.sub b a) = false /\
  is_zero (F32.sub b a) = false.
Proof.
  intros Fa Fb H. pose proof (F32_sub_lt_sign a b Fa Fb H) as Hs.
  destruct (SFsub_swap F32.prec F32.emax a b) as [E|[E _]].
  - unfold F32.sub in *. rewrite E. now apply SFopp_negative.
  - unfold F32.sub in Hs. rewrite E in Hs. destruct Hs as (_ & S & _).
    discriminate.
Qed.

Lemma leb_cases (a b : spec_float) :
  leb a b = true -> ltb a b = true \/ eqb a b = true.
Proof.
  unfold leb, ltb, eqb, SFleb, SFltb, SFeqb.
  destruct (SFcompare a b) as [[| |]|]; auto.
Qed.

Lemma ltb_not_eqb (a b : spec_float) : ltb a b = true -> eqb a b = false.
Proof.
  unfold ltb, eqb, SFltb, SFeqb.
  destruct (SFcompare a b) as [[| |]|]; auto; discriminate.
Qed.

(** The sign of a quotient by a finite number that is not zero. *)
Lemma F32_div_sign (n d : float) :
  is_nan n = false -> is_finite d = true -> is_zero d = false ->
  is_nan (F32.div n d) = false /\
  sign_bit (F32.div n d) = xorb (sign_bit n) (sign_bit d).
Proof.
  intros Nn Fd Zd.
  destruct n as [sn|sn| |sn mn en], d as [sd|sd| |sd md ed];
    try discriminate; try (now split).
  unfold F32.div, SFdiv.
  pose proof (SFdiv_core_binary_nonneg F32.prec F32.emax mn md en ed) as H.
  destruct (SFdiv_core_binary F32.prec F32.emax (Zpos mn) en (Zpos md) ed)
    as [[mz ez] lz]. cbn [fst] in H.
  destruct (binary_round_aux_not_nan F32.prec F32.emax (xorb sn sd) mz ez lz H)
    as (m' & e' & Hm & ->).
  now apply pack_sign.
Qed.

Lemma Clamp01_negative (v : float) :
  is_nan v = false -> sign_bit v = true -> is_zero (Clamp01 v) = true.
Proof. destruct v as [[]|[]| |[] m e]; try discriminate; reflexivity. Qed.

(** A quotient whose numerator is a zero or has the sign opposite to the
    sign of its finite denominator is clamped to a zero. *)
Lemma Clamp01_div_opposite (n d : float) :
  is_nan n = false -> is_finite d = true -> is_zero d = false ->
  is_zero n = true \/ sign_bit n = negb (sign_bit d) ->
  is_zero (Clamp01 (F32.div n d)) = true.
Proof.
  intros Nn Fd Zd [Zn|Sn].
  - assert (Nd : is_nan d = false) by now destruct d.
    rewrite Clamp01_zero; now apply F32_div_zero_l.
  - destruct (F32_div_sign n d Nn Fd Zd) as [Nq Sq].
    apply Clamp01_negative; [exact Nq|].
    rewrite Sq, Sn. now destruct (sign_bit d).
Qed.

(** X18. For finite [start != end] whose difference does not overflow,
    [Normalize01] returns a zero for every finite [value] that lies at
    [start] or on the side of [start] away from [end]:
    [value <= start < end] or [end < start <= value]. *)
Theorem Normalize01_before_start :
  forall start end_ value : float,
    F32.valid start = true -> F32.valid end_ = true ->
    F32.valid value = true ->
    is_finite start = true -> is_finite end_ = true ->
    is_finite value = true ->
    is_finite (F32.sub end_ start) = true ->
    (ltb start end_ = true /\ leb value start = true) \/
    (ltb end_ start = true /\ leb start value = true) ->
    is_zero (Normalize01 start end_ value) = true.
Proof.
  intros s e v Vs Ve Vv Fs Fe Fv Fd H.
  assert (Fs' : fin32 s) by now split.
  assert (Fe' : fin32 e) by now split.
  assert (Fv' : fin32 v) by now split.
  pose proof (F32_sub_not_nan v s Fv Fs) as Nn.
  unfold Normalize01. destruct H as [[L1 L2]|[L1 L2]].
  - rewrite (ltb_not_eqb s e L1).
    destruct (F32_sub_gt_sign s e Fs' Fe' L1) as (Nd & Sd & Zd).
    apply Clamp01_div_opposite; trivial. rewrite Sd.
    destruct (leb_cases v s L2) as [L|E].
    + right. now destruct (F32_sub_lt_sign v s Fv' Fs' L) as (_ & S & _).
    + left. now apply (F32_sub_zero_iff v s Vv Vs Fv Fs).
  - assert (Hne : eqb s e = false)
      by (rewrite eqb_sym; now apply ltb_not_eqb).
    rewrite Hne.
    destruct (F32_sub_lt_sign e s Fe' Fs' L1) as (Nd & Sd & Zd).
    apply Clamp01_div_opposite; trivial. rewrite Sd.
    destruct (leb_cases s v L2) as [L|E].
    + right. now destruct (F32_sub_gt_sign s v Fs' Fv' L) as (_ & S & _).
    + left. apply (F32_sub_zero_iff v s Vv Vs Fv Fs). now rewrite eqb_sym.
Qed.

Lemma Normalize01_before_start_witness :
  is_zero (Normalize01 F32.zero (F32.of_Z 10) (F32.of_Z (-5))) = true /\
  is_zero (Normalize01 (F32.of_Z 10) F32.zero (F32.of_Z 15)) = true.
Proof.
  split.
  - apply (Normalize01_before_start F32.zero (F32.of_Z 10) (F32.of_Z (-5)));
      try reflexivity. left. split; reflexivity.
  - apply (Normalize01_before_start (F32.of_Z 10) F32.zero (F32.of_Z 15));
      try reflexivity. right. split; reflexivity.
Defined.

(** X19. For a segment whose difference of end points is finite and whose
    squared length is finite and not zero, [NearestPointOnSegment] returns
    a zero for every point whose projection falls at or before the start
    of the segment: the dot product of [point - segment_start] and the
    segment is a zero or negative. *)
Theorem NearestPointOnSegment_before_start :
  forall segment_start segment_end point : Vec2,
    vec_eqb segment_start segment_end = false ->
    IsFinite (vec_sub segment_end segment_start) = true ->
    is_finite (dot_product (vec_sub segment_end segment_start)
                           (vec_sub segment_end segment_start)) = true ->
    is_zero (dot_product (vec_sub segment_end segment_start)
                         (vec_sub segment_end segment_start)) = false ->
    is_nan (dot_product (vec_sub point segment_start)
                        (vec_sub segment_end segment_start)) = false ->
    is_zero (dot_product (vec_sub point segment_start)
                         (vec_sub segment_end segment_start)) = true \/
    sign_bit (dot_product (vec_sub point segment_start)
                          (vec_sub segment_end segment_start)) = true ->
    is_zero (NearestPointOnSegment segment_start segment_end point) = true.
Proof.
  intros a b p Hne Fs Fd Zd Nn Hn.
  unfold NearestPointOnSegment. rewrite Hne. cbv zeta.
  destruct (dot_product_self_sign _ Fs) as [_ Sd].
  apply Clamp01_div_opposite; trivial. now rewrite Sd.
Qed.

Lemma NearestPointOnSegment_before_start_witness :
  is_zero (NearestPointOnSegment (mkVec2 F32.zero F32.zero)
             (mkVec2 (F32.of_Z 10) F32.zero)
             (mkVec2 (F32.of_Z (-5)) (F32.of_Z 5))) = true.
Proof.
  apply NearestPointOnSegment_before_start; try reflexivity.
  right. reflexivity.
Defined.

(** ** Interp *)

Lemma Interp_float (start end_ t : float) :
  Interp start end_ t
  = F32.add start (F32.mul (F32.sub end_ start) (Clamp01 t)).
Proof. reflexivity. Qed.

(** Adding the product of a finite number and a zero changes nothing, up to
    the sign of a zero. *)
Lemma F32_add_mul_zero (s d z : float) :
  is_finite s = true -> is_finite d = true -> is_zero z = true ->
  eqb (F32.add s (F32.mul d z)) s = true /\
  (is_zero s = false -> F32.add s (F32.mul d z) = s).
Proof.
  intros Fs Fd Hz. destruct z as [sz| | |]; try discriminate.
  destruct d as [sd| | |sd md ed]; try discriminate;
    destruct s as [ss| | |ss ms es]; try discriminate.
  - split; [now destruct ss, sd, sz | discriminate].
  - split; [apply SFeqb_refl_finite | reflexivity].
  - split; [now destruct ss, sd, sz | discriminate].
  - split; [apply SFeqb_refl_finite | reflexivity].
Qed.

Lemma Interp_amount_one (start end_ t : float) :
  F32.valid start = true -> F32.valid end_ = true ->
  leb F32.one t = true ->
  Interp start end_ t = F32.add start (F32.sub end_ start).
Proof.
  intros Vs Ve Ht. rewrite Interp_float, (Clamp01_at_least_one t Ht).
  now rewrite F32_mul_one
    by (apply SFsub_valid; [reflexivity | now compute | exact Ve | exact Vs]).
Qed.

(** [start + (end - start)] is [end], up to the rounding of the two
    operations. *)
Lemma F32_add_sub_scaled (s e : float) :
  fin32 s -> fin32 e ->
  Z.abs (scaled s) <= 10 * unit_scaled ->
  Z.abs (scaled e) <= 10 * unit_scaled ->
  fin32 (F32.add s (F32.sub e s)) /\
  Z.abs (scaled (F32.add s (F32.sub e s)) - scaled e) <= 2 * err32.
Proof.
  intros Fs Fe Hs He.
  destruct scaled_constants as (E32 & E64 & U & EU & TP & P3 & P4).
  destruct (F32_sub_scaled e s Fe Fs ltac:(lia)) as [Fd Sd].
  destruct (F32_add_scaled s _ Fs Fd ltac:(lia)) as [Fx Sx].
  split; [exact Fx | lia].
Qed.

Lemma Interp_scaled_between (s e t : float) :
  fin32 s -> fin32 e -> F32.valid t = true -> is_nan t = false ->
  Z.abs (scaled s) <= 10 * unit_scaled ->
  Z.abs (scaled e) <= 10 * unit_scaled ->
  fin32 (Interp s e t) /\
  Z.min (scaled s) (scaled e) - 3 * err32
    <= scaled (Interp s e t)
    <= Z.max (scaled s) (scaled e) + 3 * err32.
Proof.
  intros Fs Fe Vt Nt Hs He. rewrite Interp_float.
  destruct scaled_constants as (E32 & E64 & U & EU & TP & P3 & P4).
  destruct (Clamp01_scaled t Vt Nt) as [Fc Hc].
  destruct (F32_sub_scaled e s Fe Fs ltac:(lia)) as [Fd Sd].
  destruct (F32_mul_scaled_unit _ _ Fd Fc Hc ltac:(lia)) as (Fp & Pp & Pn).
  assert (Hp : Z.abs (scaled (F32.mul (F32.sub e s) (Clamp01 t)))
               <= Z.abs (scaled (F32.sub e s)) + err32) by lia.
  destruct (F32_add_scaled s _ Fs Fp ltac:(lia)) as [Fx Sx].
  split; [exact Fx | lia].
Qed.

Lemma ten_scaled (a : float) :
  F32.valid a = true ->
  leb (F32.of_Z (-10)) a = true -> leb a (F32.of_Z 10) = true ->
  fin32 a /\ Z.abs (scaled a) <= 10 * unit_scaled.
Proof.
  intros V L H.
  destruct (between_scaled (F32.of_Z (-10)) (F32.of_Z 10) a) as [Fa Ba];
    try assumption; try (split; reflexivity).
  change (scaled (F32.of_Z (-10))) with (-10 * unit_scaled) in Ba.
  change (scaled (F32.of_Z 10)) with (10 * unit_scaled) in Ba.
  split; [exact Fa | lia].
Qed.

(** X4. For finite [start] and [end], [Interp] at an amount that is zero
    or negative returns [start] (a zero of either sign when [start] is a
    zero), unless [end - start] overflows: then the product of an infinity
    and zero makes the result NaN. *)
Theorem Interp_at_start :
  forall start end_ t : float,
    is_finite start = true -> is_finite end_ = true ->
    leb t F32.zero = true ->
    (is_finite (F32.sub end_ start) = true ->
       eqb (Interp start end_ t) start = true /\
       (is_zero start = false -> Interp start end_ t = start)) /\
    (is_finite (F32.sub end_ start) = false ->
       Interp start end_ t = S754_nan).
Proof.
  intros start end_ t Fs Fe Ht. rewrite Interp_float.
  pose proof (Clamp01_not_positive t Ht) as Hc.
  pose proof (F32_sub_not_nan end_ start Fe Fs) as Hd.
  split.
  - intros Fd. now apply F32_add_mul_zero.
  - intros Fd. destruct (Clamp01 t) as [sc| | |]; try discriminate.
    destruct (F32.sub end_ start) as [sd|sd| |sd md ed]; try discriminate.
    destruct start as [ss| | |ss ms es]; try discriminate; reflexivity.
Qed.

Lemma Interp_at_start_witness :
  eqb (Interp (F32.of_Z 3) (F32.of_Z 10) (F32.of_Z (-2))) (F32.of_Z 3) = true /\
  Interp (F32.of_Z 3) (F32.of_Z 10) (F32.of_Z (-2)) = F32.of_Z 3 /\
  Interp (SFopp flt_max) flt_max F32.zero = S754_nan.
Proof.
  destruct (Interp_at_start (F32.of_Z 3) (F32.of_Z 10) (F32.of_Z (-2))
              eq_refl eq_refl eq_refl) as [H1 _].
  destruct (Interp_at_start (SFopp flt_max) flt_max F32.zero
              eq_refl eq_refl eq_refl) as [_ H2].
  destruct (H1 eq_refl) as [H3 H4].
  split; [exact H3|]. split; [exact (H4 eq_refl) | exact (H2 eq_refl)].
Defined.

(** X5. At an amount of at least 1, [Interp] returns
    [start + (end - start)]: the product with the clamped amount is exact.
    For [start] and [end] between -10 and 10 this is [end] up to the
    rounding of the two operations (at most [2^-17]). *)
Theorem Interp_at_end :
  forall start end_ t : float,
    F32.valid start = true -> F32.valid end_ = true ->
    leb F32.one t = true ->
    Interp start end_ t = F32.add start (F32.sub end_ start) /\
    (leb (F32.of_Z (-10)) start = true -> leb start (F32.of_Z 10) = true ->
     leb (F32.of_Z (-10)) end_ = true -> leb end_ (F32.of_Z 10) = true ->
     is_finite (Interp start end_ t) = true /\
     Z.abs (scaled (Interp start end_ t) - scaled end_) <= 2 * err32).
Proof.
  intros start end_ t Vs Ve Ht.
  rewrite (Interp_amount_one start end_ t Vs Ve Ht).
  split; [reflexivity|]. intros Ls Hs Le He.
  destruct (ten_scaled start Vs Ls Hs) as [Fs Bs].
  destruct (ten_scaled end_ Ve Le He) as [Fe Be].
  destruct (F32_add_sub_scaled start end_ Fs Fe Bs Be) as [Fx Sx].
  split; [apply Fx | exact Sx].
Qed.

Lemma Interp_at_end_witness :
  Interp F32.zero (F32.of_Z 10) (F32.of_Z 2) = F32.of_Z 10 /\
  Z.abs (scaled (Interp F32.zero (F32.of_Z 10) (F32.of_Z 2))
         - scaled (F32.of_Z 10)) <= 2 * err32.
Proof.
  destruct (Interp_at_end F32.zero (F32.of_Z 10) (F32.of_Z 2)
              eq_refl eq_refl eq_refl) as [H1 H2].
  split; [rewrite H1; reflexivity|].
  apply H2; reflexivity.
Defined.

(** X6. For [start] and [end] between -10 and 10 and every amount that is
    not NaN, [Interp] returns a finite value that does not leave the
    interval between [start] and [end] by more than the rounding of its
    three operations (at most [3 * 2^-18]). *)
Theorem Interp_between :
  forall start end_ t : float,
    F32.valid start = true -> F32.valid end_ = true ->
    F32.valid t = true -> is_nan t = false ->
    leb (F32.of_Z (-10)) start = true -> leb start (F32.of_Z 10) = true ->
    leb (F32.of_Z (-10)) end_ = true -> leb end_ (F32.of_Z 10) = true ->
    is_finite (Interp start end_ t) = true /\
    Z.min (scaled start) (scaled end_) - 3 * err32
      <= scaled (Interp start end_ t)
      <= Z.max (scaled start) (scaled end_) + 3 * err32.
Proof.
  intros start end_ t Vs Ve Vt Nt Ls Hs Le He.
  destruct (ten_scaled start Vs Ls Hs) as [Fs Bs].
  destruct (ten_scaled end_ Ve Le He) as [Fe Be].
  destruct (Interp_scaled_between start end_ t Fs Fe Vt Nt Bs Be) as [Fx Bx].
  split; [apply Fx | exact Bx].
Qed.

(** The tolerance is needed: [Interp(-1, 3 * 2^-25, 1)] is [2^-23], which
    is above [end]. *)
Lemma Interp_between_witness :
  Z.min (scaled (F32.of_Z (-1))) (scaled (S754_finite false 12582912 (-47)))
    - 3 * err32
    <= scaled (Interp (F32.of_Z (-1)) (S754_finite false 12582912 (-47))
                 F32.one)
    <= Z.max (scaled (F32.of_Z (-1)))
         (scaled (S754_finite false 12582912 (-47))) + 3 * err32 /\
  ltb (S754_finite false 12582912 (-47))
      (Interp (F32.of_Z (-1)) (S754_finite false 12582912 (-47)) F32.one)
  = true.
Proof.
  split; [|reflexivity].
  apply (Interp_between (F32.of_Z (-1)) (S754_finite false 12582912 (-47))
           F32.one); reflexivity.
Defined.

(** ** Distance: symmetry *)

Section Distance_symmetry.
Variable Magnitude : Vec2 -> float.

(** The magnitude of a vector depends on the absolute values of its
    coordinates only, as for [std::hypot] (C17 F.10.4.3). *)
Hypothesis Magnitude_abs :
  forall v w : Vec2,
    SFabs (x v) = SFabs (x w) -> SFabs (y v) = SFabs (y w) ->
    Magnitude v = Magnitude w.

(** X7. [Distance] is symmetric, [Distance(a, b) = Distance(b, a)] for all
    points (coordinates that are infinite or NaN included), for every
    [Magnitude] that depends on the absolute values of the coordinates
    only. *)
Theorem Distance_symmetric :
  forall a b : Vec2, Distance Magnitude a b = Distance Magnitude b a.
Proof.
  intros a b. unfold Distance.
  apply Magnitude_abs; unfold vec_sub; cbn [x y]; apply F32_sub_swap_abs.
Qed.
End Distance_symmetry.

Lemma Distance_symmetric_witness :
  Distance Magnitude_sqrt (mkVec2 F32.zero F32.zero)
    (mkVec2 (F32.of_Z 3) (F32.of_Z 4))
  = Distance Magnitude_sqrt (mkVec2 (F32.of_Z 3) (F32.of_Z 4))
      (mkVec2 F32.zero F32.zero).
Proof.
  apply Distance_symmetric. intros v w Hx Hy. unfold Magnitude_sqrt.
  now rewrite (F32_mul_self_abs _ _ Hx), (F32_mul_self_abs _ _ Hy).
Defined.

(** ** InterpAngle: the normalization *)

(** X8. What [normalize_angle] returns is left unchanged by
    [normalize_angle], without any iteration; so [InterpAngle] depends on
    [start] and [end] only through their normalizations. *)
Theorem normalize_angle_idempotent :
  forall (fuel : nat) (angle r : float),
    normalize_angle fuel angle = Some r ->
    (forall fuel' : nat, normalize_angle (S fuel') r = Some r) /\
    (forall end_ end' t : float,
       normalize_angle fuel end_ = Some end' ->
       InterpAngle fuel angle end_ t = InterpAngle fuel r end' t).
Proof.
  intros fuel angle r H.
  destruct (normalize_angle_bounds fuel angle r H) as [L G].
  split.
  - intros fuel'. now apply normalize_angle_done.
  - intros end_ end' t He.
    destruct (normalize_angle_bounds fuel end_ end' He) as [Le Ge].
    destruct fuel as [|fuel]; [discriminate|].
    unfold InterpAngle. rewrite H, He.
    now rewrite !normalize_angle_done by assumption.
Qed.

Lemma normalize_angle_idempotent_witness :
  normalize_angle 1 (S754_finite false 13978527 (-23))
  = Some (S754_finite false 13978527 (-23)).
Proof.
  assert (H : normalize_angle 3 (S754_finite true 11429479 (-20))
              = Some (S754_finite false 13978527 (-23)))
    by (vm_compute; reflexivity).
  exact (proj1 (normalize_angle_idempotent 3 _ _ H) 0%nat).
Defined.

(** X9. A NaN among the arguments makes [InterpAngle] return NaN, as soon
    as the normalizations of [start] and [end] return. *)
Theorem InterpAngle_nan_propagates :
  forall (fuel : nat) (start end_ t s' e' : float),
    is_nan start = true \/ is_nan end_ = true \/ is_nan t = true ->
    normalize_angle fuel start = Some s' ->
    normalize_angle fuel end_ = Some e' ->
    InterpAngle fuel start end_ t = Some S754_nan.
Proof.
  intros fuel start end_ t s' e' Hn Hs He.
  unfold InterpAngle. rewrite Hs, He. cbn [bind].
  destruct fuel as [|fuel]; [discriminate|].
  rewrite Interp_angle_nan; [apply normalize_angle_nan|].
  destruct Hn as [N|[N|N]].
  - left. destruct start; try discriminate.
    apply normalize_angle_of_nan in Hs. now subst.
  - right; left. destruct end_; try discriminate.
    apply normalize_angle_of_nan in He. now subst.
  - now right; right.
Qed.

Lemma InterpAngle_nan_propagates_witness :
  InterpAngle 3 (S754_finite true 11429479 (-20)) S754_nan F32.one
  = Some S754_nan.
Proof.
  apply (InterpAngle_nan_propagates 3 (S754_finite true 11429479 (-20))
           S754_nan F32.one (S754_finite false 13978527 (-23)) S754_nan).
  - right; left; reflexivity.
  - vm_compute. reflexivity.
  - reflexivity.
Defined.

(** ** InterpAngle: angles near the interval *)

(** [normalize_angle] returns after at most three iterations of each loop
    for an angle of [[-18, 18]]; the result is a finite number of
    [[0, 2 pi]]. *)
Lemma normalize_angle_near (a : float) :
  fin32 a -> -18 * unit_scaled <= scaled a <= 18 * unit_scaled ->
  exists r : float,
    normalize_angle 4 a = Some r /\ fin32 r /\
    0 <= scaled r <= two_pi_scaled.
Proof.
  intros Fa Ha.
  destruct scaled_constants as (E32 & E64 & U & EU & TP & P3 & P4).
  destruct (raise_angle_terminates 3 a Fa ltac:(lia) ltac:(lia))
    as (a1 & H1 & F1 & L1 & B1).
  destruct (lower_angle_terminates 2 a1 F1 ltac:(lia)) as (r & Hr & Fr).
  { destruct B1 as [->|B1]; lia. }
  assert (Hn : normalize_angle 4 a = Some r).
  { unfold normalize_angle, bind. rewrite H1.
    apply (lower_angle_more_fuel 3 4); [lia | exact Hr]. }
  exists r. split; [exact Hn|]. split; [exact Fr|].
  destruct (normalize_angle_bounds 4 a r Hn) as [L G].
  rewrite (negative_scaled r Fr) in L.
  rewrite (above_two_pi_scaled r Fr) in G.
  apply Z.ltb_ge in L, G. lia.
Qed.

Lemma eighteen_scaled (a : float) :
  F32.valid a = true ->
  leb (F32.of_Z (-18)) a = true -> leb a (F32.of_Z 18) = true ->
  fin32 a /\ -18 * unit_scaled <= scaled a <= 18 * unit_scaled.
Proof.
  intros V L H.
  destruct (between_scaled (F32.of_Z (-18)) (F32.of_Z 18) a) as [Fa Ba];
    try assumption; try (split; reflexivity).
  change (scaled (F32.of_Z (-18))) with (-18 * unit_scaled) in Ba.
  change (scaled (F32.of_Z 18)) with (18 * unit_scaled) in Ba.
  split; [exact Fa | lia].
Qed.

(** X10. [InterpAngle] runs to completion for all [start] and [end]
    between -18 and 18 and every amount, and each of its loops tests its
    condition at most four times. *)
Theorem InterpAngle_returns_near :
  forall start end_ t : float,
    F32.valid start = true -> F32.valid end_ = true -> F32.valid t = true ->
    leb (F32.of_Z (-18)) start = true -> leb start (F32.of_Z 18) = true ->
    leb (F32.of_Z (-18)) end_ = true -> leb end_ (F32.of_Z 18) = true ->
    exists r : float,
      InterpAngle 4 start end_ t = Some r /\
      (forall fuel : nat,
         (4 <= fuel)%nat -> InterpAngle fuel start end_ t = Some r).
Proof.
  intros start end_ t Vs Ve Vt Ls Hs Le He.
  destruct (eighteen_scaled start Vs Ls Hs) as [Fs Bs].
  destruct (eighteen_scaled end_ Ve Le He) as [Fe Be].
  destruct (normalize_angle_near start Fs Bs) as (s' & Ns & Fs' & Bs').
  destruct (normalize_angle_near end_ Fe Be) as (e' & Ne & Fe' & Be').
  assert (H : exists r : float, InterpAngle 4 start end_ t = Some r).
  { unfold InterpAngle. rewrite Ns, Ne. cbn [bind].
    destruct (is_nan t) eqn:Nt;
      [rewrite Interp_angle_nan by auto; eexists; apply normalize_angle_nan|].
    destruct (shorter_arc_end_scaled s' e' Fs' Fe' Bs' Be') as [Fa Ha].
    destruct (Clamp01_scaled t Vt Nt) as [Fc Hc].
    destruct (Interp_scaled s' _ _ Fs' Fa Fc Hc Bs' Ha) as [Fx Hx].
    destruct (normalize_angle_terminates _ Fx Hx) as [r Hr].
    exists r. apply (normalize_angle_more_fuel 2 4); [lia | exact Hr]. }
  destruct H as [r Hr]. exists r. split; [exact Hr|].
  intros fuel Hf. apply (InterpAngle_more_fuel 4 fuel); assumption.
Qed.

Lemma InterpAngle_returns_near_witness :
  exists r : float,
    InterpAngle 4 (F32.of_Z (-18)) (F32.of_Z 18)
      (S754_finite false 8388608 (-24)) = Some r.
Proof.
  destruct (InterpAngle_returns_near (F32.of_Z (-18)) (F32.of_Z 18)
              (S754_finite false 8388608 (-24))
              eq_refl eq_refl eq_refl eq_refl eq_refl eq_refl eq_refl)
    as (r & Hr & _).
  exists r. exact Hr.
Defined.

(** ** InterpAngle: the end points *)

Lemma normalize_angle_zero (fuel : nat) (z : float) :
  is_zero z = true -> normalize_angle (S fuel) z = Some z.
Proof.
  intros Hz. destruct z as [[]| | |]; try discriminate;
    apply normalize_angle_done; reflexivity.
Qed.

Lemma prenormalized_finite (a : float) :
  is_nan a = false ->
  ltb a F32.zero = false -> gtb (to_double a) two_pi = false ->
  is_finite a = true.
Proof.
  intros N L G. destruct a as [s|[]| |s m e]; try reflexivity;
    discriminate.
Qed.

(** The normalization of a value that equals a normalized angle. *)
Lemma normalize_angle_eqb (fuel : nat) (v a : float) :
  ltb a F32.zero = false -> gtb (to_double a) two_pi = false ->
  eqb v a = true -> (is_zero a = false -> v = a) ->
  normalize_angle (S fuel) v = Some v.
Proof.
  intros L G He Hne. destruct (is_zero a) eqn:Z.
  - apply normalize_angle_zero. now apply (eqb_zero_r v a).
  - rewrite (Hne eq_refl). now apply normalize_angle_done.
Qed.

(** X11. For [start] and [end] in [[0, 2 pi]], [InterpAngle] at an amount
    that is zero or negative returns [start] (a zero of either sign when
    [start] is a zero), without iterating. *)
Theorem InterpAngle_at_start :
  forall (fuel : nat) (start end_ t : float),
    F32.valid start = true -> F32.valid end_ = true ->
    is_nan start = false -> is_nan end_ = false ->
    ltb start F32.zero = false -> gtb (to_double start) two_pi = false ->
    ltb end_ F32.zero = false -> gtb (to_double end_) two_pi = false ->
    leb t F32.zero = true ->
    exists r : float,
      InterpAngle (S fuel) start end_ t = Some r /\
      eqb r start = true /\ (is_zero start = false -> r = start).
Proof.
  intros fuel start end_ t Vs Ve Ns Ne S0 S1 E0 E1 Ht.
  rewrite InterpAngle_prenormalized by assumption.
  destruct scaled_constants as (E32 & E64 & U & EU & TP & P3 & P4).
  destruct (prenormalized_fin start Vs Ns S0 S1) as [Fs Hs].
  destruct (prenormalized_fin end_ Ve Ne E0 E1) as [Fe He].
  destruct (shorter_arc_end_scaled start end_ Fs Fe Hs He) as [Fa Ha].
  unfold span_bound in Ha.
  destruct (F32_sub_scaled _ start Fa Fs ltac:(lia)) as [[_ Fd] _].
  destruct (F32_add_mul_zero start _ (Clamp01 t) (proj2 Fs) Fd
              (Clamp01_not_positive t Ht)) as [Heq Hne].
  exists (Interp start (shorter_arc_end start end_) t).
  split; [|split; assumption].
  now apply (normalize_angle_eqb fuel _ start).
Qed.

Lemma InterpAngle_at_start_witness :
  exists r : float,
    InterpAngle 1 F32.one (F32.of_Z 6) (F32.of_Z (-1)) = Some r /\
    r = F32.one.
Proof.
  destruct (InterpAngle_at_start 0 F32.one (F32.of_Z 6) (F32.of_Z (-1))
              eq_refl eq_refl eq_refl eq_refl eq_refl eq_refl eq_refl eq_refl
              eq_refl) as (r & Hr & _ & E).
  exists r. split; [exact Hr | exact (E eq_refl)].
Defined.

(** X12. Between two equal angles of [[0, 2 pi]], [InterpAngle] returns
    that angle (a zero of either sign when the angle is a zero), for every
    amount that is not NaN, infinite amounts included. *)
Theorem InterpAngle_same :
  forall (fuel : nat) (angle t : float),
    is_nan angle = false -> is_nan t = false ->
    ltb angle F32.zero = false -> gtb (to_double angle) two_pi = false ->
    exists r : float,
      InterpAngle (S fuel) angle angle t = Some r /\
      eqb r angle = true /\ (is_zero angle = false -> r = angle).
Proof.
  intros fuel angle t Na Nt L G.
  rewrite InterpAngle_prenormalized by assumption.
  pose proof (prenormalized_finite angle Na L G) as Fa.
  assert (E : shorter_arc_end angle angle = angle).
  { unfold shorter_arc_end. now rewrite F32_sub_self. }
  rewrite E, Interp_float, F32_sub_self by assumption.
  pose proof (Clamp01_finite t Nt) as Fc.
  assert (H : eqb (F32.add angle (F32.mul F32.zero (Clamp01 t))) angle = true /\
              (is_zero angle = false ->
               F32.add angle (F32.mul F32.zero (Clamp01 t)) = angle)).
  { destruct (Clamp01 t) as [sc| | |sc mc ec]; try discriminate;
      destruct angle as [sa| | |sa ma ea]; try discriminate;
      (split; [first [apply SFeqb_refl_finite | now destruct sa, sc]
              | first [discriminate | reflexivity]]). }
  destruct H as [Heq Hne]. eexists. split; [|split; eassumption].
  now apply (normalize_angle_eqb fuel _ angle).
Qed.

Lemma InterpAngle_same_witness :
  exists r : float,
    InterpAngle 1 (F32.of_Z 3) (F32.of_Z 3) (S754_infinity false) = Some r /\
    r = F32.of_Z 3.
Proof.
  destruct (InterpAngle_same 0 (F32.of_Z 3) (S754_infinity false)
              eq_refl eq_refl eq_refl eq_refl) as (r & Hr & _ & E).
  exists r. split; [exact Hr | exact (E eq_refl)].
Defined.

(** ** InterpAngle: the shorter arc *)

(** The normalization of an angle of [[-6, 2 pi + 6]] is the angle itself,
    or the angle one turn up or down, up to rounding. *)
Lemma normalize_angle_turn (a : float) :
  fin32 a ->
  - 6 * unit_scaled <= scaled a <= two_pi_scaled + 6 * unit_scaled ->
  exists r : float,
    normalize_angle 2 a = Some r /\ fin32 r /\
    0 <= scaled r <= two_pi_scaled /\
    (Z.abs (scaled r - scaled a) <= 2 * (err32 + err64) \/
     Z.abs (scaled r - (scaled a + two_pi_scaled)) <= err32 + err64 \/
     Z.abs (scaled r - (scaled a - two_pi_scaled)) <= err32 + err64).
Proof.
  intros Fa Ha.
  destruct scaled_constants as (E32 & E64 & U & EU & TP & P3 & P4).
  assert (H : exists r : float,
             normalize_angle 2 a = Some r /\ fin32 r /\
             (Z.abs (scaled r - scaled a) <= 2 * (err32 + err64) \/
              Z.abs (scaled r - (scaled a + two_pi_scaled)) <= err32 + err64 \/
              Z.abs (scaled r - (scaled a - two_pi_scaled)) <= err32 + err64)).
  { unfold normalize_angle, bind.
    change (raise_angle 2 a)
      with (if ltb a F32.zero then raise_angle 1 (add_two_pi a) else Some a).
    rewrite (negative_scaled a Fa).
    destruct (Z.ltb_spec (scaled a) 0) as [L|L].
    - destruct (add_two_pi_scaled a Fa ltac:(lia)) as [F1 S1].
      cbn [raise_angle]. rewrite (negative_scaled _ F1).
      destruct (Z.ltb_spec (scaled (add_two_pi a)) 0) as [L1|L1]; [lia|].
      change (lower_angle 2 (add_two_pi a))
        with (if gtb (to_double (add_two_pi a)) two_pi
              then lower_angle 1 (sub_two_pi (add_two_pi a))
              else Some (add_two_pi a)).
      rewrite (above_two_pi_scaled _ F1).
      destruct (Z.ltb_spec two_pi_scaled (scaled (add_two_pi a))) as [G|G].
      + destruct (sub_two_pi_scaled _ F1 ltac:(lia)) as [F2 S2].
        cbn [lower_angle]. rewrite (above_two_pi_scaled _ F2).
        destruct (Z.ltb_spec two_pi_scaled
                    (scaled (sub_two_pi (add_two_pi a)))) as [G2|G2]; [lia|].
        eexists. split; [reflexivity|]. split; [exact F2|]. left. lia.
      + eexists. split; [reflexivity|]. split; [exact F1|]. right; left. lia.
    - change (lower_angle 2 a)
        with (if gtb (to_double a) two_pi
              then lower_angle 1 (sub_two_pi a) else Some a).
      rewrite (above_two_pi_scaled _ Fa).
      destruct (Z.ltb_spec two_pi_scaled (scaled a)) as [G|G].
      + destruct (sub_two_pi_scaled _ Fa ltac:(lia)) as [F2 S2].
        cbn [lower_angle]. rewrite (above_two_pi_scaled _ F2).
        destruct (Z.ltb_spec two_pi_scaled (scaled (sub_two_pi a)))
          as [G2|G2]; [lia|].
        eexists. split; [reflexivity|]. split; [exact F2|]. right; right. lia.
      + eexists. split; [reflexivity|]. split; [exact Fa|]. left. lia. }
  destruct H as (r & Hr & Fr & Hk). exists r.
  split; [exact Hr|]. split; [exact Fr|]. split; [|exact Hk].
  destruct (normalize_angle_bounds 2 a r Hr) as [L G].
  rewrite (negative_scaled r Fr) in L.
  rewrite (above_two_pi_scaled r Fr) in G.
  apply Z.ltb_ge in L, G. lia.
Qed.

(** The interpolated angle, before its normalization, lies between [start]
    and the adjusted end, up to rounding. *)
Lemma Interp_angle_between (s ea t : float) :
  fin32 s -> fin32 ea -> F32.valid t = true -> is_nan t = false ->
  0 <= scaled s <= two_pi_scaled ->
  Z.abs (scaled ea - scaled s) <= span_bound ->
  fin32 (Interp s ea t) /\
  - 6 * unit_scaled <= scaled (Interp s ea t)
    <= two_pi_scaled + 6 * unit_scaled /\
  Z.min (scaled s) (scaled ea) - 3 * err32
    <= scaled (Interp s ea t)
    <= Z.max (scaled s) (scaled ea) + 3 * err32.
Proof.
  intros Fs Fe Vt Nt Hs Hd.
  destruct scaled_constants as (E32 & E64 & U & EU & TP & P3 & P4).
  destruct (Clamp01_scaled t Vt Nt) as [Fc Hc].
  destruct (Interp_scaled s ea _ Fs Fe Fc Hc Hs Hd) as [Fx Hx].
  unfold span_bound in Hd.
  assert (P10 : 3 * pi_scaled + 2 * err32 + err64 <= 10 * unit_scaled)
    by (vm_compute; discriminate).
  destruct (Interp_scaled_between s ea t Fs Fe Vt Nt ltac:(lia) ltac:(lia))
    as [_ Bx].
  split; [exact Fx|]. split; [exact Hx | exact Bx].
Qed.

(** The end point [InterpAngle] interpolates to is [end], or [end] one turn
    up or down, according to the two tests of utils.h:86-90. *)
Lemma shorter_arc_end_cases (s e : float) :
  fin32 s -> fin32 e ->
  0 <= scaled s <= two_pi_scaled -> 0 <= scaled e <= two_pi_scaled ->
  (ltb (to_double (F32.sub e s)) neg_pi = true /\
   gtb (to_double (F32.sub e s)) M_PI = false /\
   shorter_arc_end s e = add_two_pi e /\
   Z.abs (scaled (add_two_pi e) - (scaled e + two_pi_scaled))
     <= err32 + err64) \/
  (ltb (to_double (F32.sub e s)) neg_pi = false /\
   gtb (to_double (F32.sub e s)) M_PI = true /\
   shorter_arc_end s e = sub_two_pi e /\
   Z.abs (scaled (sub_two_pi e) - (scaled e - two_pi_scaled))
     <= err32 + err64) \/
  (ltb (to_double (F32.sub e s)) neg_pi = false /\
   gtb (to_double (F32.sub e s)) M_PI = false /\
   shorter_arc_end s e = e).
Proof.
  intros Fs Fe Hs He.
  destruct scaled_constants as (E32 & E64 & U & EU & TP & P3 & P4).
  destruct fin64_neg_pi as [Fn Sn].
  destruct (F32_sub_scaled e s Fe Fs ltac:(lia)) as [Fd Sd].
  destruct (to_double_scaled _ Fd) as [Fd' Sd'].
  unfold shorter_arc_end.
  rewrite (ltb_scaled64 _ neg_pi Fd' Fn), Sd', Sn.
  unfold gtb. change (SFltb M_PI ?d) with (ltb M_PI d).
  rewrite (ltb_scaled64 M_PI _ fin64_M_PI Fd'), Sd'. fold pi_scaled.
  destruct (Z.ltb_spec (scaled (F32.sub e s)) (- pi_scaled)) as [L|L].
  - left. destruct (add_two_pi_scaled e Fe ltac:(lia)) as [_ S'].
    destruct (Z.ltb_spec pi_scaled (scaled (F32.sub e s))); [lia|].
    repeat split; trivial.
  - destruct (Z.ltb_spec pi_scaled (scaled (F32.sub e s))) as [G|G].
    + right; left. destruct (sub_two_pi_scaled e Fe ltac:(lia)) as [_ S'].
      repeat split; trivial.
    + right; right. repeat split.
Qed.

(** X13. For [start] and [end] in [[0, 2 pi]]: when [end - start] exceeds
    [pi], or is below [- pi], [InterpAngle] goes the other way round, and
    its result does not lie strictly between [start] and [end], up to
    rounding (at most [7 * 2^-18]). *)
Theorem InterpAngle_shorter_arc :
  forall start end_ t : float,
    F32.valid start = true -> F32.valid end_ = true -> F32.valid t = true ->
    is_nan start = false -> is_nan end_ = false -> is_nan t = false ->
    ltb start F32.zero = false -> gtb (to_double start) two_pi = false ->
    ltb end_ F32.zero = false -> gtb (to_double end_) two_pi = false ->
    exists r : float,
      InterpAngle 2 start end_ t = Some r /\
      (gtb (to_double (F32.sub end_ start)) M_PI = true ->
         scaled r <= scaled start + 7 * err32 \/
         scaled end_ - 7 * err32 <= scaled r) /\
      (ltb (to_double (F32.sub end_ start)) neg_pi = true ->
         scaled r <= scaled end_ + 7 * err32 \/
         scaled start - 7 * err32 <= scaled r).
Proof.
  intros start end_ t Vs Ve Vt Ns Ne Nt S0 S1 E0 E1.
  rewrite InterpAngle_prenormalized by assumption.
  destruct scaled_constants as (E32 & E64 & U & EU & TP & P3 & P4).
  assert (E6 : 3 * err64 <= err32) by (vm_compute; discriminate).
  destruct (prenormalized_fin start Vs Ns S0 S1) as [Fs Hs].
  destruct (prenormalized_fin end_ Ve Ne E0 E1) as [Fe He].
  destruct (shorter_arc_end_scaled start end_ Fs Fe Hs He) as [Fa Ha].
  destruct (Interp_angle_between start _ t Fs Fa Vt Nt Hs Ha)
    as (Fx & Hx & Bx).
  destruct (normalize_angle_turn _ Fx Hx) as (r & Hr & Fr & Br & Hk).
  exists r. split; [exact Hr|].
  clear Ha Hx Fx Fr Fa Hr.
  destruct (shorter_arc_end_cases start end_ Fs Fe Hs He)
    as [(T1 & T2 & Ea & Sa)|[(T1 & T2 & Ea & Sa)|(T1 & T2 & Ea)]];
    rewrite Ea in Bx, Hk; (split; intros T); try congruence;
    apply Z.abs_le in Sa;
    set (xv := scaled (Interp start _ t)) in *;
    set (av := scaled (_ end_)) in *;
    set (sv := scaled start) in *; set (ev := scaled end_) in *;
    set (rv := scaled r) in *; clearbody xv av sv ev rv;
    (destruct Hk as [K|[K|K]]; apply Z.abs_le in K; lia).
Qed.

Lemma InterpAngle_shorter_arc_witness :
  exists r : float,
    InterpAngle 2 (S754_finite false 13176795 (-24))
      (S754_finite false 11529695 (-21)) (S754_finite false 8388608 (-24))
    = Some r /\
    (scaled r <= scaled (S754_finite false 13176795 (-24)) + 7 * err32 \/
     scaled (S754_finite false 11529695 (-21)) - 7 * err32 <= scaled r).
Proof.
  destruct (InterpAngle_shorter_arc (S754_finite false 13176795 (-24))
              (S754_finite false 11529695 (-21))
              (S754_finite false 8388608 (-24))
              eq_refl eq_refl eq_refl eq_refl eq_refl eq_refl
              eq_refl eq_refl eq_refl eq_refl) as (r & Hr & H1 & _).
  exists r. split; [exact Hr | exact (H1 eq_refl)].
Defined.

(** X14. For [start] and [end] in [[0, 2 pi]], [InterpAngle] at an amount
    of at least 1 returns [end] up to rounding (at most [7 * 2^-18]), or
    the same angle a full turn away when [end] is that close to 0 or to
    [2 pi]. *)
Theorem InterpAngle_at_end :
  forall start end_ t : float,
    F32.valid start = true -> F32.valid end_ = true ->
    is_nan start = false -> is_nan end_ = false ->
    ltb start F32.zero = false -> gtb (to_double start) two_pi = false ->
    ltb end_ F32.zero = false -> gtb (to_double end_) two_pi = false ->
    leb F32.one t = true ->
    exists r : float,
      InterpAngle 2 start end_ t = Some r /\
      (Z.abs (scaled r - scaled end_) <= 7 * err32 \/
       two_pi_scaled - 7 * err32 <= Z.abs (scaled r - scaled end_)).
Proof.
  intros start end_ t Vs Ve Ns Ne S0 S1 E0 E1 Ht.
  rewrite InterpAngle_prenormalized by assumption.
  destruct scaled_constants as (E32 & E64 & U & EU & TP & P3 & P4).
  assert (E6 : 3 * err64 <= err32) by (vm_compute; discriminate).
  destruct (prenormalized_fin start Vs Ns S0 S1) as [Fs Hs].
  destruct (prenormalized_fin end_ Ve Ne E0 E1) as [Fe He].
  destruct (shorter_arc_end_scaled start end_ Fs Fe Hs He) as [Fa Ha].
  rewrite (Interp_amount_one start _ t Vs (proj1 Fa) Ht).
  unfold span_bound in Ha.
  assert (P10 : 3 * pi_scaled + 2 * err32 + err64 <= 10 * unit_scaled)
    by (vm_compute; discriminate).
  destruct (F32_add_sub_scaled start _ Fs Fa ltac:(lia) ltac:(lia))
    as [Fx Sx].
  destruct (normalize_angle_turn _ Fx ltac:(lia)) as (r & Hr & Fr & Br & Hk).
  exists r. split; [exact Hr|].
  apply Z.abs_le in Sx.
  assert (Hk' : - (2 * (err32 + err64)) <= scaled r - scaled
                  (F32.add start (F32.sub (shorter_arc_end start end_) start))
                <= 2 * (err32 + err64) \/
                - (err32 + err64) <= scaled r - (scaled
                  (F32.add start (F32.sub (shorter_arc_end start end_) start))
                  + two_pi_scaled) <= err32 + err64 \/
                - (err32 + err64) <= scaled r - (scaled
                  (F32.add start (F32.sub (shorter_arc_end start end_) start))
                  - two_pi_scaled) <= err32 + err64).
  { destruct Hk as [K|[K|K]]; apply Z.abs_le in K; auto. }
  clear Hk Ha Fx Fr Fa Hr.
  set (xv := scaled (F32.add start
                       (F32.sub (shorter_arc_end start end_) start))) in *.
  destruct (shorter_arc_end_cases start end_ Fs Fe Hs He)
    as [(_ & _ & Ea & Sa)|[(_ & _ & Ea & Sa)|(_ & _ & Ea)]];
    rewrite Ea in Sx; try apply Z.abs_le in Sa;
    set (ev := scaled end_) in *; set (rv := scaled r) in *;
    clearbody xv ev rv;
    destruct Hk' as [K|[K|K]]; lia.
Qed.

Lemma InterpAngle_at_end_witness :
  exists r : float,
    InterpAngle 2 (S754_finite false 13176795 (-24))
      (S754_finite false 11529695 (-21)) (F32.of_Z 2) = Some r /\
    (Z.abs (scaled r - scaled (S754_finite false 11529695 (-21)))
       <= 7 * err32 \/
     two_pi_scaled - 7 * err32
       <= Z.abs (scaled r - scaled (S754_finite false 11529695 (-21)))).
Proof.
  apply (InterpAngle_at_end (S754_finite false 13176795 (-24))
           (S754_finite false 11529695 (-21)) (F32.of_Z 2)); reflexivity.
Defined.

(** ** AbsoluteAngleTo: collinear vectors *)

Lemma SFopp_finite (v : float) : is_finite (SFopp v) = is_finite v.
Proof. now destruct v. Qed.

Lemma SFopp_sign (v : float) :
  is_nan v = false -> sign_bit v = false ->
  is_nan (SFopp v) = false /\ sign_bit (SFopp v) = true.
Proof. destruct v as [[]|[]| |[] m e]; try discriminate; now split. Qed.

Lemma F32_mul_sign (a b : float) :
  is_finite a = true -> is_finite b = true ->
  is_nan (F32.mul a b) = false /\
  sign_bit (F32.mul a b) = xorb (sign_bit a) (sign_bit b).
Proof.
  intros Fa Fb.
  destruct a as [sa| | |sa ma ea]; try discriminate;
    destruct b as [sb| | |sb mb eb]; try discriminate; try (now split).
  unfold F32.mul, SFmul.
  destruct (binary_round_aux_not_nan F32.prec F32.emax (xorb sa sb)
              (Zpos (ma * mb)) (ea + eb) loc_Exact ltac:(lia))
    as (m' & e' & Hm & ->).
  now apply pack_sign.
Qed.

(** The sign of a fused multiply-add whose product and addend have the
    same sign. *)
Lemma fma_same_sign (s : bool) (a b c : float) :
  is_finite a = true -> is_finite b = true ->
  xorb (sign_bit a) (sign_bit b) = s ->
  is_nan c = false -> sign_bit c = s ->
  is_nan (fma a b c) = false /\ sign_bit (fma a b c) = s.
Proof.
  intros Fa Fb Hs Nc Sc.
  destruct (F32_mul_sign a b Fa Fb) as [Nm Sm]. rewrite Hs in Sm.
  destruct a as [sa| | |sa ma ea]; try discriminate;
    destruct b as [sb| | |sb mb eb]; try discriminate;
    try (unfold fma; now apply F32_add_same_sign).
  unfold fma. destruct c as [sc|sc| |sc mc ec]; try discriminate;
    try (now split);
    now apply F32_add_same_sign.
Qed.

Lemma dot_under_self_sign (c : Contraction) (v : Vec2) :
  IsFinite v = true ->
  is_nan (dot_under c v v) = false /\ sign_bit (dot_under c v v) = false.
Proof.
  intros F. pose proof F as F'. apply andb_prop in F'. destruct F' as [Fx Fy].
  destruct (F32_mul_self_sign (x v) Fx) as [Nx Sx].
  destruct (F32_mul_self_sign (y v) Fy) as [Ny Sy].
  destruct c; cbn [dot_under].
  - now apply dot_product_self_sign.
  - apply fma_same_sign; try assumption. apply xorb_nilpotent.
  - apply fma_same_sign; try assumption. apply xorb_nilpotent.
Qed.

Lemma sign_bit_opp (v : float) :
  is_finite v = true -> sign_bit (SFopp v) = negb (sign_bit v).
Proof. now destruct v. Qed.

Lemma dot_under_opposite_sign (c : Contraction) (v : Vec2) :
  IsFinite v = true ->
  is_nan (dot_under c v (mkVec2 (SFopp (x v)) (SFopp (y v)))) = false /\
  sign_bit (dot_under c v (mkVec2 (SFopp (x v)) (SFopp (y v)))) = true.
Proof.
  intros F. pose proof F as F'. apply andb_prop in F'. destruct F' as [Fx Fy].
  destruct (F32_mul_self_sign (x v) Fx) as [Nx Sx].
  destruct (F32_mul_self_sign (y v) Fy) as [Ny Sy].
  destruct (SFopp_sign _ Nx Sx) as [Nx' Sx'].
  destruct (SFopp_sign _ Ny Sy) as [Ny' Sy'].
  assert (X : forall s : bool, xorb s (negb s) = true) by now intros [].
  destruct c; cbn [dot_under x y]; rewrite !F32_mul_opp_r.
  - now apply F32_add_same_sign.
  - apply fma_same_sign; try assumption.
    + now rewrite SFopp_finite.
    + rewrite sign_bit_opp by assumption. apply X.
  - apply fma_same_sign; try assumption.
    + now rewrite SFopp_finite.
    + rewrite sign_bit_opp by assumption. apply X.
Qed.

Section AbsoluteAngleTo_collinear.
Variable atan2 : float -> float -> float.
Variable show : Vec2 -> string.

(** [atan2 (+0, x)] is [+0] when [x] is [+0] or positive, and [pi] when
    [x] is [-0] or negative (C17 F.10.1.4). *)
Hypothesis atan2_zero :
  forall x0 : float,
    is_nan x0 = false ->
    atan2 F32.zero x0 = if sign_bit x0 then pi_f else F32.zero.

(** X15. When the two products of [det] are each rounded before they are
    subtracted (no contraction of [det]), the angle between a finite vector
    and itself is [+0], and the angle between the vector and its opposite
    is [pi], as long as the product of its coordinates does not overflow;
    the zero vector is included, and [dot] may be evaluated in any way. *)
Theorem AbsoluteAngleTo_collinear :
  forall (cdot : Contraction) (v : Vec2),
    IsFinite v = true -> is_finite (F32.mul (x v) (y v)) = true ->
    AbsoluteAngleTo_under atan2 show cdot Separate v v = Value F32.zero /\
    AbsoluteAngleTo_under atan2 show cdot Separate v
      (mkVec2 (SFopp (x v)) (SFopp (y v)))
    = Value pi_f.
Proof.
  intros cdot v F P. split.
  - rewrite AbsoluteAngleTo_under_finite by assumption.
    cbn [det_under].
    replace (F32.mul (y v) (x v)) with (F32.mul (x v) (y v))
      by apply SFmul_comm.
    rewrite F32_sub_self by assumption.
    destruct (dot_under_self_sign cdot v F) as [Nd Sd].
    now rewrite atan2_zero, Sd.
  - rewrite AbsoluteAngleTo_under_finite;
      [|exact F | unfold IsFinite; cbn [x y];
                  apply andb_prop in F; destruct F as [Fx Fy];
                  now rewrite !SFopp_finite, Fx, Fy].
    cbn [det_under x y]. rewrite !F32_mul_opp_r.
    replace (F32.mul (y v) (x v)) with (F32.mul (x v) (y v))
      by apply SFmul_comm.
    rewrite F32_sub_self by (now rewrite SFopp_finite).
    destruct (dot_under_opposite_sign cdot v F) as [Nd Sd].
    rewrite atan2_zero, Sd by exact Nd. vm_compute. reflexivity.
Qed.
End AbsoluteAngleTo_collinear.

Lemma AbsoluteAngleTo_collinear_witness :
  AbsoluteAngleTo_under atan2_axes no_show FuseFirst Separate
    (mkVec2 (F32.of_Z 3) (F32.of_Z (-4))) (mkVec2 (F32.of_Z 3) (F32.of_Z (-4)))
  = Value F32.zero /\
  AbsoluteAngleTo_under atan2_axes no_show FuseFirst Separate
    (mkVec2 (F32.of_Z 3) (F32.of_Z (-4))) (mkVec2 (F32.of_Z (-3)) (F32.of_Z 4))
  = Value pi_f.
Proof.
  apply (AbsoluteAngleTo_collinear atan2_axes no_show);
    try reflexivity.
  intros x0 N. unfold atan2_axes. rewrite N. simpl.
  now destruct (sign_bit x0).
Defined.

(** ** AbsoluteAngleTo: zero vectors *)

Lemma F32_mul_zero_l (z v : float) :
  is_zero z = true -> is_finite v = true -> is_zero (F32.mul z v) = true.
Proof.
  destruct z; try discriminate. destruct v; try discriminate; reflexivity.
Qed.

Lemma F32_sub_zeros (a b : float) :
  is_zero a = true -> is_zero b = true -> is_zero (F32.sub a b) = true.
Proof.
  destruct a as [[]| | |]; try discriminate;
    destruct b as [[]| | |]; try discriminate; reflexivity.
Qed.

Lemma cross_product_zero_l (z v : Vec2) :
  is_zero (x z) = true -> is_zero (y z) = true -> IsFinite v = true ->
  is_zero (cross_product z v) = true.
Proof.
  intros Zx Zy F. apply andb_prop in F. destruct F as [Fx Fy].
  unfold cross_product. apply F32_sub_zeros; now apply F32_mul_zero_l.
Qed.

Lemma zero_vector_finite (z : Vec2) :
  is_zero (x z) = true -> is_zero (y z) = true -> IsFinite z = true.
Proof.
  intros Zx Zy. unfold IsFinite.
  destruct (x z); try discriminate. destruct (y z); try discriminate.
  reflexivity.
Qed.

Section AbsoluteAngleTo_zero.
Variable atan2 : float -> float -> float.
Variable show : Vec2 -> string.

(** On two zeros [atan2] returns a zero or [pi], with the sign of its first
    argument: [atan2 (+-0, +0)] is [+-0] and [atan2 (+-0, -0)] is [+-pi]
    (C17 F.10.1.4). *)
Hypothesis atan2_zeros :
  forall y0 x0 : float,
    is_zero y0 = true -> is_zero x0 = true ->
    atan2 y0 x0 = with_sign_of (if sign_bit x0 then pi_f else F32.zero) y0.

Lemma abs_atan2_zeros (y0 x0 : float) :
  is_zero y0 = true -> is_zero x0 = true ->
  SFabs (atan2 y0 x0) = F32.zero \/ SFabs (atan2 y0 x0) = pi_f.
Proof.
  intros Hy Hx. rewrite atan2_zeros by assumption. unfold with_sign_of.
  destruct (sign_bit x0), (sign_bit y0); (now left) || (now right).
Qed.

(** X16. When one of the two vectors is a zero vector and the other one is
    finite, [AbsoluteAngleTo] succeeds and returns [+0] or [pi]: both [det]
    and [dot] are zeros, whose signs decide. *)
Theorem AbsoluteAngleTo_zero_vector :
  forall z v : Vec2,
    is_zero (x z) = true -> is_zero (y z) = true -> IsFinite v = true ->
    (AbsoluteAngleTo atan2 show z v = Value F32.zero \/
     AbsoluteAngleTo atan2 show z v = Value pi_f) /\
    (AbsoluteAngleTo atan2 show v z = Value F32.zero \/
     AbsoluteAngleTo atan2 show v z = Value pi_f).
Proof.
  intros z v Zx Zy F.
  pose proof (zero_vector_finite z Zx Zy) as Fz.
  pose proof (cross_product_zero_l z v Zx Zy F) as Hc.
  pose proof (dot_product_zero_l z v Zx Zy F) as Hd.
  split.
  - rewrite AbsoluteAngleTo_finite by assumption.
    destruct (abs_atan2_zeros _ _ Hc Hd) as [E|E]; rewrite E; auto.
  - rewrite AbsoluteAngleTo_finite by assumption.
    rewrite (dot_product_comm v z).
    assert (Hc' : is_zero (cross_product v z) = true).
    { destruct (cross_product_swap z v) as [E|E]; rewrite E;
        [now destruct (cross_product z v) | exact Hc]. }
    destruct (abs_atan2_zeros _ _ Hc' Hd) as [E|E]; rewrite E; auto.
Qed.
End AbsoluteAngleTo_zero.

Lemma AbsoluteAngleTo_zero_vector_witness :
  AbsoluteAngleTo atan2_axes no_show (mkVec2 F32.zero F32.zero)
    (mkVec2 (F32.of_Z (-1)) F32.zero) = Value F32.zero /\
  AbsoluteAngleTo atan2_axes no_show
    (mkVec2 (S754_zero true) (S754_zero true)) (mkVec2 F32.one F32.one)
  = Value pi_f.
Proof.
  assert (H : forall y0 x0 : float,
             is_zero y0 = true -> is_zero x0 = true ->
             atan2_axes y0 x0
             = with_sign_of (if sign_bit x0 then pi_f else F32.zero) y0).
  { intros y0 x0 Hy Hx. unfold atan2_axes. rewrite Hy.
    destruct y0 as [sy| | |]; try discriminate.
    destruct x0 as [sx| | |]; try discriminate.
    now destruct sx, sy. }
  split.
  - destruct (AbsoluteAngleTo_zero_vector atan2_axes no_show H
                (mkVec2 F32.zero F32.zero) (mkVec2 (F32.of_Z (-1)) F32.zero)
                eq_refl eq_refl eq_refl) as [[E|E] _];
      [exact E | vm_compute in E; discriminate E].
  - destruct (AbsoluteAngleTo_zero_vector atan2_axes no_show H
                (mkVec2 (S754_zero true) (S754_zero true))
                (mkVec2 F32.one F32.one)
                eq_refl eq_refl eq_refl) as [[E|E] _];
      [vm_compute in E; discriminate E | exact E].
Defined.

(** ** AbsoluteAngleTo: success and failure *)

(** C10. For finite vectors, zero vectors included, [AbsoluteAngleTo]
    succeeds with the value [|atan2(det, dot)|], where [det] and [dot] are
    both zeros when one of the vectors is a zero vector; for a vector that
    is not finite it fails with the invalid-argument error of types.cc:24,
    and in no other case. *)
Theorem AbsoluteAngleTo_fails_iff_non_finite :
  forall (atan2 : float -> float -> float) (show : Vec2 -> string)
         (self other : Vec2),
    (IsFinite self = true /\ IsFinite other = true ->
       AbsoluteAngleTo atan2 show self other
       = Value (SFabs (atan2 (cross_product self other)
                             (dot_product self other)))) /\
    (IsFinite self = true /\ IsFinite other = true ->
       (is_zero (x self) = true /\ is_zero (y self) = true) \/
       (is_zero (x other) = true /\ is_zero (y other) = true) ->
       is_zero (cross_product self other) = true /\
       is_zero (dot_product self other) = true) /\
    (IsFinite self = false \/ IsFinite other = false ->
       AbsoluteAngleTo atan2 show self other
       = Failure (InvalidArgumentError
                    ("Non-finite inputs: this=" ++ show self
                     ++ "; other=" ++ show other)%string)) /\
    ((exists r : float, AbsoluteAngleTo atan2 show self other = Value r) <->
       IsFinite self = true /\ IsFinite other = true) /\
    ((exists st : Status,
        AbsoluteAngleTo atan2 show self other = Failure st) <->
       IsFinite self = false \/ IsFinite other = false).
Proof.
  intros atan2 show self other.
  split; [intros [Hs Ho]; now apply AbsoluteAngleTo_finite|].
  split.
  { intros [Hs Ho] [[Zx Zy]|[Zx Zy]].
    - split; [now apply cross_product_zero_l | now apply dot_product_zero_l].
    - split.
      + destruct (cross_product_swap other self) as [E|E]; rewrite E;
          pose proof (cross_product_zero_l other self Zx Zy Hs) as Hc;
          [now destruct (cross_product other self) | exact Hc].
      + rewrite dot_product_comm. now apply dot_product_zero_l. }
  unfold AbsoluteAngleTo.
  destruct (IsFinite self), (IsFinite other); cbn [negb orb];
    (split; [|split]);
    try (intros [H|H]; discriminate H);
    try (intros _; reflexivity);
    split;
    try (intros [? H]; discriminate H);
    try (intros [H|H]; discriminate H);
    try (intros [H1 H2]; discriminate);
    try (intros _; eexists; reflexivity);
    try (intros _; split; reflexivity);
    try (intros _; auto).
Qed.

Lemma AbsoluteAngleTo_fails_iff_non_finite_witness :
  AbsoluteAngleTo atan2_axes no_show
    (mkVec2 F32.zero F32.zero) (mkVec2 F32.zero F32.zero) = Value F32.zero /\
  AbsoluteAngleTo atan2_axes no_show
    (mkVec2 F32.one (S754_infinity false)) (mkVec2 F32.zero F32.zero)
  = Failure (InvalidArgumentError "Non-finite inputs: this=; other=").
Proof.
  split.
  - apply (proj1 (AbsoluteAngleTo_fails_iff_non_finite atan2_axes no_show
                    (mkVec2 F32.zero F32.zero) (mkVec2 F32.zero F32.zero))).
    split; reflexivity.
  - apply (proj1 (proj2 (proj2
             (AbsoluteAngleTo_fails_iff_non_finite atan2_axes no_show
                (mkVec2 F32.one (S754_infinity false))
                (mkVec2 F32.zero F32.zero))))).
    left. reflexivity.
Defined.

(** ** ValidateInput and AbsoluteAngleTo *)

(** X17. The positions of two inputs that [ValidateInput] accepts never
    make [AbsoluteAngleTo] fail. *)
Theorem ValidateInput_guards_AbsoluteAngleTo :
  forall (atan2 : float -> float -> float) (show : Vec2 -> string)
         (a b : Input),
    ValidateInput a = OkStatus -> ValidateInput b = OkStatus ->
    AbsoluteAngleTo atan2 show (position a) (position b)
    = Value (SFabs (atan2 (cross_product (position a) (position b))
                          (dot_product (position a) (position b)))).
Proof.
  assert (K : forall i : Input,
             ValidateInput i = OkStatus -> IsFinite (position i) = true).
  { intros [et [px py] tm pr ti ori]. unfold ValidateInput, IsFinite. simpl.
    destruct (Z.eqb et kUp || Z.eqb et kMove || Z.eqb et kDown);
      [|discriminate].
    unfold RETURN_IF_ERROR, ValidateIsFiniteNumber.
    destruct (is_finite px), (is_finite py); simpl; try discriminate.
    reflexivity. }
  intros atan2 show a b Ha Hb. apply AbsoluteAngleTo_finite; now apply K.
Qed.

Lemma ValidateInput_guards_AbsoluteAngleTo_witness :
  exists r : float,
    AbsoluteAngleTo atan2_axes no_show (mkVec2 F32.one F32.zero)
      (mkVec2 F32.zero F32.one) = Value r.
Proof.
  eexists.
  apply (ValidateInput_guards_AbsoluteAngleTo atan2_axes no_show
           (mkInput kDown (mkVec2 F32.one F32.zero) F32.zero
              S754_nan S754_nan S754_nan)
           (mkInput kUp (mkVec2 F32.zero F32.one) F32.one
              F32.zero F32.zero F32.zero)); reflexivity.
Defined.


(** ** InterpAngle: the number of iterations *)

(** The conversion [double -> float] of a value below [2^25]. *)
Lemma to_float_scaled_25 (d : double) :
  fin64 d -> Z.abs (scaled d) < 2 ^ (25 + 1074) ->
  fin32 (to_float d) /\
  Z.abs (scaled (to_float d) - scaled d) <= 4 * unit_scaled.
Proof.
  intros Fd H.
  assert (U : 0 < unit_scaled) by now compute.
  destruct d as [s|s| |s m e];
    try (destruct Fd as [_ Fd]; discriminate).
  - split; [split; reflexivity | simpl; lia].
  - pose proof (fin_exponent F64.prec F64.emax ltac:(now compute) s m e Fd)
      as He.
    unfold to_float. rewrite binary_normalize_cond_Zopp.
    cbn [scaled] in *. rewrite cond_Zopp_abs in H.
    assert (P : 0 < 2 ^ (e + 1074)) by (apply pow2_pos; lia).
    rewrite Z.abs_eq in H by lia.
    change (4 * unit_scaled) with (ulp_bound F32.prec 25).
    apply (binary_round_scaled F32.prec F32.emax); try assumption;
      try reflexivity; now compute.
Qed.

Lemma F64_add_scaled_25 (a b : double) :
  fin64 a -> fin64 b -> Z.abs (scaled a + scaled b) < 2 ^ (25 + 1074) ->
  fin64 (F64.add a b) /\
  Z.abs (scaled (F64.add a b) - (scaled a + scaled b))
    <= ulp_bound F64.prec 25.
Proof.
  intros Fa Fb H.
  apply (SFadd_scaled F64.prec F64.emax); try assumption;
    try reflexivity; now compute.
Qed.

Lemma F64_sub_scaled_25 (a b : double) :
  fin64 a -> fin64 b -> Z.abs (scaled a - scaled b) < 2 ^ (25 + 1074) ->
  fin64 (F64.sub a b) /\
  Z.abs (scaled (F64.sub a b) - (scaled a - scaled b))
    <= ulp_bound F64.prec 25.
Proof.
  intros Fa Fb H.
  apply (SFsub_scaled F64.prec F64.emax); try assumption;
    try reflexivity; now compute.
Qed.

Lemma linear_constants :
  2 ^ (25 + 1074) = 2 * 2 ^ (24 + 1074) /\
  16 * unit_scaled < 2 ^ (24 + 1074) /\
  0 < ulp_bound F64.prec 25 /\
  8 * ulp_bound F64.prec 25 < unit_scaled /\
  25 * unit_scaled < 4 * two_pi_scaled.
Proof. repeat split; vm_compute; reflexivity. Qed.

(** One step of either loop moves an angle below [2^24] in absolute value
    by one turn, up to two units of its last place: by more than 2. *)
Lemma two_pi_step_scaled (a : float) :
  fin32 a -> Z.abs (scaled a) <= 2 ^ (24 + 1074) ->
  (fin32 (add_two_pi a) /\
   Z.abs (scaled (add_two_pi a) - (scaled a + two_pi_scaled))
     <= 4 * unit_scaled + ulp_bound F64.prec 25) /\
  (fin32 (sub_two_pi a) /\
   Z.abs (scaled (sub_two_pi a) - (scaled a - two_pi_scaled))
     <= 4 * unit_scaled + ulp_bound F64.prec 25).
Proof.
  intros Fa Ha.
  destruct scaled_constants as (E32 & E64 & U & EU & TP & P3 & P4).
  destruct linear_constants as (C1 & C2 & C3 & C4 & C5).
  destruct (to_double_scaled a Fa) as [Fd Sd].
  split.
  - destruct (F64_add_scaled_25 (to_double a) two_pi Fd fin64_two_pi)
      as [F1 S1].
    { rewrite Sd. fold two_pi_scaled. lia. }
    fold two_pi_scaled in S1. rewrite Sd in S1.
    destruct (to_float_scaled_25 _ F1) as [F2 S2]; [lia|].
    split; [exact F2 | unfold add_two_pi; lia].
  - destruct (F64_sub_scaled_25 (to_double a) two_pi Fd fin64_two_pi)
      as [F1 S1].
    { rewrite Sd. fold two_pi_scaled. lia. }
    fold two_pi_scaled in S1. rewrite Sd in S1.
    destruct (to_float_scaled_25 _ F1) as [F2 S2]; [lia|].
    split; [exact F2 | unfold sub_two_pi; lia].
Qed.

(** The first loop ends after at most [n] iterations when the angle is at
    least [-2 n]. *)
Lemma raise_angle_linear (n : nat) :
  forall a : float,
    fin32 a -> Z.abs (scaled a) <= 2 ^ (24 + 1074) ->
    - (2 * unit_scaled) * Z.of_nat n <= scaled a ->
    exists r : float,
      raise_angle (S n) a = Some r /\ fin32 r /\ 0 <= scaled r /\
      (r = a \/
       scaled r <= two_pi_scaled + 4 * unit_scaled + ulp_bound F64.prec 25).
Proof.
  destruct scaled_constants as (E32 & E64 & U & EU & TP & P3 & P4).
  induction n as [|n IH]; intros a Fa Ba Ha.
  - cbn [raise_angle]. rewrite (negative_scaled a Fa).
    destruct (Z.ltb_spec (scaled a) 0) as [L|G]; [simpl in Ha; lia|].
    exists a. repeat split; try assumption; try lia; apply Fa || now left.
  - change (raise_angle (S (S n)) a)
      with (if ltb a F32.zero then raise_angle (S n) (add_two_pi a)
            else Some a).
    rewrite (negative_scaled a Fa).
    destruct (Z.ltb_spec (scaled a) 0) as [L|G].
    + destruct (two_pi_step_scaled a Fa Ba) as [[F' S'] _].
      destruct linear_constants as (C1 & C2 & C3 & C4 & C5).
      rewrite Nat2Z.inj_succ, Z.mul_succ_r in Ha.
      set (K := - (2 * unit_scaled) * Z.of_nat n) in *. clearbody K.
      destruct (IH (add_two_pi a) F' ltac:(lia) ltac:(lia))
        as (r & Hr & Fr & R0 & R1).
      exists r. repeat split; try assumption; try apply Fr.
      right. destruct R1 as [->|R1]; lia.
    + exists a. repeat split; try assumption; try lia; apply Fa || now left.
Qed.

(** The second loop ends after at most [n] iterations when the angle is at
    most [2 pi + 2 n]. *)
Lemma lower_angle_linear (n : nat) :
  forall a : float,
    fin32 a -> 0 <= scaled a <= 2 ^ (24 + 1074) ->
    scaled a <= two_pi_scaled + (2 * unit_scaled) * Z.of_nat n ->
    exists r : float, lower_angle (S n) a = Some r /\ fin32 r.
Proof.
  destruct scaled_constants as (E32 & E64 & U & EU & TP & P3 & P4).
  induction n as [|n IH]; intros a Fa Ba Ha.
  - cbn [lower_angle]. rewrite (above_two_pi_scaled a Fa).
    destruct (Z.ltb_spec two_pi_scaled (scaled a)) as [L|G];
      [simpl in Ha; lia|].
    exists a. split; [reflexivity | exact Fa].
  - change (lower_angle (S (S n)) a)
      with (if gtb (to_double a) two_pi
            then lower_angle (S n) (sub_two_pi a) else Some a).
    pose proof (above_two_pi_scaled a Fa) as G.
    destruct (gtb (to_double a) two_pi) eqn:Eg.
    + symmetry in G. apply Z.ltb_lt in G.
      destruct (two_pi_step_scaled a Fa ltac:(lia)) as [_ [F' S']].
      destruct linear_constants as (C1 & C2 & C3 & C4 & C5).
      destruct (sub_two_pi_sign a Eg) as [_ Sg].
      destruct (scaled_sign (sub_two_pi a)) as [S0 _]. specialize (S0 Sg).
      rewrite Nat2Z.inj_succ, Z.mul_succ_r in Ha.
      set (K := (2 * unit_scaled) * Z.of_nat n) in *. clearbody K.
      apply (IH (sub_two_pi a) F'); lia.
    + exists a. split; [reflexivity | exact Fa].
Qed.

(** [normalize_angle] returns for every angle of at most [2^24] in absolute
    value, after a number of iterations that is linear in the angle. *)
Lemma normalize_angle_linear (n : nat) (a : float) :
  fin32 a -> Z.abs (scaled a) <= 2 ^ (24 + 1074) ->
  Z.abs (scaled a) <= (2 * unit_scaled) * Z.of_nat n ->
  exists r : float,
    normalize_angle (n + 3) a = Some r /\ fin32 r /\
    0 <= scaled r <= two_pi_scaled.
Proof.
  intros Fa Ba Ha.
  destruct scaled_constants as (E32 & E64 & U & EU & TP & P3 & P4).
  destruct linear_constants as (C1 & C2 & C3 & C4 & C5).
  destruct (raise_angle_linear n a Fa Ba ltac:(lia))
    as (a1 & H1 & F1 & L1 & B1).
  assert (K0 : 0 <= 2 * unit_scaled * Z.of_nat n)
    by (apply Z.mul_nonneg_nonneg; lia).
  destruct (lower_angle_linear (n + 2) a1 F1) as (r & Hr & Fr).
  { apply Z.abs_le in Ba. destruct B1 as [->|B1]; lia. }
  { rewrite Nat2Z.inj_add, Z.mul_add_distr_l.
    change (Z.of_nat 2) with 2. apply Z.abs_le in Ha.
    assert (K1 : a1 = a \/ 2 * unit_scaled <= 2 * unit_scaled * Z.of_nat n).
    { destruct n as [|n].
      - left. cbn [raise_angle] in H1.
        destruct (ltb a F32.zero); [discriminate | now injection H1].
      - right. rewrite Nat2Z.inj_succ, Z.mul_succ_r.
        assert (0 <= 2 * unit_scaled * Z.of_nat n)
          by (apply Z.mul_nonneg_nonneg; lia).
        lia. }
    set (K := 2 * unit_scaled * Z.of_nat n) in *. clearbody K.
    destruct K1 as [->|K1]; [lia|]. destruct B1 as [->|B1]; lia. }
  assert (Hn : normalize_angle (n + 3) a = Some r).
  { unfold normalize_angle, bind.
    rewrite (raise_angle_more_fuel (S n) (n + 3) a a1) by (trivial; lia).
    now replace (n + 3)%nat with (S (n + 2)) by lia. }
  exists r. split; [exact Hn|]. split; [exact Fr|].
  destruct (normalize_angle_bounds (n + 3) a r Hn) as [L G].
  rewrite (negative_scaled r Fr) in L.
  rewrite (above_two_pi_scaled r Fr) in G.
  apply Z.ltb_ge in L, G. lia.
Qed.

Lemma two_pow_24_scaled (a : float) :
  F32.valid a = true ->
  leb (F32.of_Z (-16777216)) a = true -> leb a (F32.of_Z 16777216) = true ->
  fin32 a /\ Z.abs (scaled a) <= 2 ^ (24 + 1074).
Proof.
  intros V L H.
  destruct (between_scaled (F32.of_Z (-16777216)) (F32.of_Z 16777216) a)
    as [Fa Ba]; try assumption; try (split; reflexivity).
  change (scaled (F32.of_Z (-16777216))) with (- 2 ^ (24 + 1074)) in Ba.
  change (scaled (F32.of_Z 16777216)) with (2 ^ (24 + 1074)) in Ba.
  split; [exact Fa | lia].
Qed.

(** X20. [InterpAngle] runs to completion for all [start] and [end] of at
    most [2^24] in absolute value and every amount.  When both are at most
    [2 n] in absolute value, each loop tests its condition at most [n + 3]
    times: the number of iterations grows at most linearly with the
    angles. *)
Theorem InterpAngle_returns_linear :
  forall (n : nat) (start end_ t : float),
    F32.valid start = true -> F32.valid end_ = true -> F32.valid t = true ->
    leb (F32.of_Z (-16777216)) start = true ->
    leb start (F32.of_Z 16777216) = true ->
    leb (F32.of_Z (-16777216)) end_ = true ->
    leb end_ (F32.of_Z 16777216) = true ->
    Z.abs (scaled start) <= (2 * unit_scaled) * Z.of_nat n ->
    Z.abs (scaled end_) <= (2 * unit_scaled) * Z.of_nat n ->
    exists r : float, InterpAngle (n + 3) start end_ t = Some r.
Proof.
  intros n start end_ t Vs Ve Vt Ls Hs Le He Ns Ne.
  destruct (two_pow_24_scaled start Vs Ls Hs) as [Fs Bs].
  destruct (two_pow_24_scaled end_ Ve Le He) as [Fe Be].
  destruct (normalize_angle_linear n start Fs Bs Ns) as (s' & Hs' & Fs' & Bs').
  destruct (normalize_angle_linear n end_ Fe Be Ne) as (e' & He' & Fe' & Be').
  unfold InterpAngle. rewrite Hs', He'. cbn [bind].
  destruct (is_nan t) eqn:Nt.
  - rewrite Interp_angle_nan by auto. exists S754_nan.
    replace (n + 3)%nat with (S (n + 2)) by lia. apply normalize_angle_nan.
  - destruct (shorter_arc_end_scaled s' e' Fs' Fe' Bs' Be') as [Fa Ha].
    destruct (Clamp01_scaled t Vt Nt) as [Fc Hc].
    destruct (Interp_scaled s' _ _ Fs' Fa Fc Hc Bs' Ha) as [Fx Hx].
    destruct (normalize_angle_terminates _ Fx Hx) as [r Hr].
    exists r. apply (normalize_angle_more_fuel 2 (n + 3)); [lia | exact Hr].
Qed.

Lemma InterpAngle_returns_linear_witness :
  exists r : float,
    InterpAngle (50 + 3) (F32.of_Z (-100)) (F32.of_Z 100) F32.one = Some r.
Proof.
  apply (InterpAngle_returns_linear 50 (F32.of_Z (-100)) (F32.of_Z 100)
           F32.one); try reflexivity; vm_compute; discriminate.
Defined.

(** ** Rounding to nearest *)

(** The round bit and the sticky bit of a shifted mantissa tell where the
    remainder [M - m * 2^k] lies with respect to half of [2^k]. *)
Lemma shr_1_location (M k : Z) (mrs : shr_record) :
  0 <= k ->
  quotient_of M k mrs /\
  (if shr_r mrs then 2 ^ k <= 2 * (M - shr_m mrs * 2 ^ k)
   else 2 * (M - shr_m mrs * 2 ^ k) < 2 ^ k) /\
  (if shr_s mrs
   then M - shr_m mrs * 2 ^ k <> 0 /\ 2 * (M - shr_m mrs * 2 ^ k) <> 2 ^ k
   else M - shr_m mrs * 2 ^ k = 0 \/ 2 * (M - shr_m mrs * 2 ^ k) = 2 ^ k) ->
  quotient_of M (k + 1) (shr_1 mrs) /\
  (if shr_r (shr_1 mrs)
   then 2 ^ (k + 1) <= 2 * (M - shr_m (shr_1 mrs) * 2 ^ (k + 1))
   else 2 * (M - shr_m (shr_1 mrs) * 2 ^ (k + 1)) < 2 ^ (k + 1)) /\
  (if shr_s (shr_1 mrs)
   then M - shr_m (shr_1 mrs) * 2 ^ (k + 1) <> 0 /\
        2 * (M - shr_m (shr_1 mrs) * 2 ^ (k + 1)) <> 2 ^ (k + 1)
   else M - shr_m (shr_1 mrs) * 2 ^ (k + 1) = 0 \/
        2 * (M - shr_m (shr_1 mrs) * 2 ^ (k + 1)) = 2 ^ (k + 1)).
Proof.
  intros Hk (Q & Hr & Hs).
  split; [now apply shr_1_quotient|].
  destruct Q as [Hm [Hlo Hhi]].
  rewrite Z.pow_add_r by lia. change (2 ^ 1) with 2.
  assert (0 < 2 ^ k) by (apply Z.pow_pos_nonneg; lia).
  destruct mrs as [m r s]. cbn [shr_m shr_r shr_s] in *.
  set (q := 2 ^ k) in *. clearbody q.
  destruct m as [|[p|p|]|p]; cbn [shr_1 shr_m shr_r shr_s]; try lia;
    destruct r, s; cbn [orb]; split; lia.
Qed.

(** The mantissa after a shift by [n] bits and its rounding to nearest:
    down when the remainder is below half of [2^n], up when it is above. *)
Lemma shr_round (m : positive) (e : Z) (n : positive) :
  0 <= shr_m (fst (shr (shr_record_of_loc (Zpos m) loc_Exact) e (Zpos n))) /\
  shr_m (fst (shr (shr_record_of_loc (Zpos m) loc_Exact) e (Zpos n)))
    * 2 ^ Zpos n <= Zpos m
  < (shr_m (fst (shr (shr_record_of_loc (Zpos m) loc_Exact) e (Zpos n))) + 1)
    * 2 ^ Zpos n /\
  (2 * (Zpos m
        - shr_m (fst (shr (shr_record_of_loc (Zpos m) loc_Exact) e (Zpos n)))
          * 2 ^ Zpos n) < 2 ^ Zpos n ->
   round_nearest_even
     (shr_m (fst (shr (shr_record_of_loc (Zpos m) loc_Exact) e (Zpos n))))
     (loc_of_shr_record
        (fst (shr (shr_record_of_loc (Zpos m) loc_Exact) e (Zpos n))))
   = shr_m (fst (shr (shr_record_of_loc (Zpos m) loc_Exact) e (Zpos n)))) /\
  (2 ^ Zpos n
   < 2 * (Zpos m
          - shr_m (fst (shr (shr_record_of_loc (Zpos m) loc_Exact) e (Zpos n)))
            * 2 ^ Zpos n) ->
   round_nearest_even
     (shr_m (fst (shr (shr_record_of_loc (Zpos m) loc_Exact) e (Zpos n))))
     (loc_of_shr_record
        (fst (shr (shr_record_of_loc (Zpos m) loc_Exact) e (Zpos n))))
   = shr_m (fst (shr (shr_record_of_loc (Zpos m) loc_Exact) e (Zpos n)))
     + 1) /\
  snd (shr (shr_record_of_loc (Zpos m) loc_Exact) e (Zpos n)) = e + Zpos n.
Proof.
  cbn [shr fst snd].
  pose proof (iter_pos_invariant shr_1
    (fun k mrs =>
       quotient_of (Zpos m) k mrs /\
       (if shr_r mrs then 2 ^ k <= 2 * (Zpos m - shr_m mrs * 2 ^ k)
        else 2 * (Zpos m - shr_m mrs * 2 ^ k) < 2 ^ k) /\
       (if shr_s mrs
        then Zpos m - shr_m mrs * 2 ^ k <> 0 /\
             2 * (Zpos m - shr_m mrs * 2 ^ k) <> 2 ^ k
        else Zpos m - shr_m mrs * 2 ^ k = 0 \/
             2 * (Zpos m - shr_m mrs * 2 ^ k) = 2 ^ k))) as I.
  specialize (I (fun k x Hk Hx => shr_1_location (Zpos m) k x Hk Hx)
                n 0 (shr_record_of_loc (Zpos m) loc_Exact) ltac:(lia)).
  cbv beta in I. change (0 + Zpos n) with (Zpos n) in I.
  destruct I as ((Q0 & Qlo & Qhi) & Hr & Hs).
  { cbn [shr_record_of_loc shr_m shr_r shr_s]. unfold quotient_of.
    cbn [shr_m]. change (2 ^ 0) with 1. lia. }
  set (mrs := iter_pos shr_1 n (shr_record_of_loc (Zpos m) loc_Exact)) in *.
  assert (0 < 2 ^ Zpos n) by (apply pow2_pos; lia).
  split; [exact Q0|]. split; [split; assumption|].
  split; [|split; [|reflexivity]]; destruct mrs as [q r s];
    cbn [shr_m shr_r shr_s loc_of_shr_record round_nearest_even] in *;
    intros Hq; destruct r, s; try reflexivity; lia.
Qed.

Lemma pow2_sum (a b c : Z) :
  0 <= a -> 0 <= b -> c = a + b -> 2 ^ c = 2 ^ a * 2 ^ b.
Proof. intros Ha Hb ->. now apply pow2_split. Qed.

Section Nearest.
Variables prec emax : Z.
Hypothesis Hprec : 0 < prec.

Local Abbreviation fexp := (SpecFloat.fexp prec emax).

(** A value that lies within a quarter of a unit in the last place of a
    normal number [mt * 2^et] is rounded to this number; within half a unit
    when [mt] is not a power of two. *)
Lemma binary_round_near (s : bool) (m : positive) (e : Z)
    (mt : positive) (et : Z) :
  digits mt = prec -> SpecFloat.emin prec emax < et -> 2 <= et - e ->
  Z.abs (Zpos m - Zpos mt * 2 ^ (et - e)) < 2 ^ (et - e - 2) \/
  (2 ^ (prec - 1) < Zpos mt /\
   Z.abs (Zpos m - Zpos mt * 2 ^ (et - e)) < 2 ^ (et - e - 1)) ->
  binary_round prec emax s m e = pack prec emax s (Zpos mt) et.
Proof.
  intros Dt Het Hj Hnear.
  pose proof (digits_bounds mt) as [Tlo Thi]. rewrite Dt in Tlo, Thi.
  set (j := et - e) in *.
  assert (Ft : fexp (prec + et) = et)
    by (unfold SpecFloat.fexp, SpecFloat.emin in *; lia).
  assert (Ft' : fexp (prec - 1 + et) = et - 1)
    by (unfold SpecFloat.fexp, SpecFloat.emin in *; lia).
  assert (Pj : 2 ^ j = 2 ^ (j - 2) * 4)
    by (apply (pow2_sum (j - 2) 2); lia).
  assert (Pj1 : 2 ^ (j - 1) = 2 ^ (j - 2) * 2)
    by (apply (pow2_sum (j - 2) 1); lia).
  assert (Pq : 0 < 2 ^ (j - 2)) by (apply pow2_pos; lia).
  assert (Pp : 2 ^ prec = 2 ^ (prec - 1) * 2)
    by (apply (pow2_sum (prec - 1) 1); lia).
  assert (Pp0 : 0 < 2 ^ (prec - 1)) by (apply pow2_pos; lia).
  assert (E1 : 2 ^ (prec - 1 + j) = 2 ^ (prec - 1) * 2 ^ j)
    by (apply pow2_split; lia).
  assert (E2 : 2 ^ (prec + j) = 2 ^ prec * 2 ^ j) by (apply pow2_split; lia).
  assert (Hm : Z.abs (Zpos m - Zpos mt * 2 ^ j) < 2 ^ (j - 1))
    by (destruct Hnear as [H|[_ H]]; lia).
  apply Z.abs_lt in Hm.
  assert (Fit : shr_fexp prec emax (Zpos mt) et loc_Exact
                = (shr_record_of_loc (Zpos mt) loc_Exact, et))
    by (apply shr_fexp_fits; rewrite Dt; lia).
  destruct (Z_lt_le_dec (Zpos m) (2 ^ (prec - 1 + j))) as [Hlow|Hhigh].
  - (* below the binade of [mt]: [mt] is a power of two *)
    assert (Emt : Zpos mt = 2 ^ (prec - 1)).
    { set (A := 2 ^ (prec - 1)) in *. set (B := 2 ^ (j - 2)) in *. nia. }
    assert (Hq : Z.abs (Zpos m - Zpos mt * 2 ^ j) < 2 ^ (j - 2))
      by (destruct Hnear as [H|[H _]]; [exact H | lia]).
    apply Z.abs_lt in Hq. rewrite Emt in Hq.
    assert (E3 : 2 ^ (prec + j - 2) = 2 ^ (prec - 1) * (2 ^ (j - 2) * 2)).
    { rewrite <- Pj1. apply pow2_sum; lia. }
    assert (Dm : digits m = prec + j - 1).
    { apply digits_unique.
      replace (prec + j - 1 - 1) with (prec + j - 2) by lia.
      replace (prec + j - 1) with (prec - 1 + j) by lia.
      set (A := 2 ^ (prec - 1)) in *. set (B := 2 ^ (j - 2)) in *. nia. }
    assert (Fm : fexp (digits m + e) = et - 1).
    { rewrite Dm. replace (prec + j - 1 + e) with (prec - 1 + et)
        by (unfold j; lia). exact Ft'. }
    rewrite binary_round_no_align by lia.
    rewrite binary_round_aux_pack.
    assert (S1 : shr_fexp prec emax (Zpos m) e loc_Exact
                 = shr (shr_record_of_loc (Zpos m) loc_Exact) e (j - 1)).
    { unfold shr_fexp. rewrite Zdigits2_pos, Fm. f_equal. unfold j. lia. }
    rewrite S1.
    assert (En : exists n, j - 1 = Zpos n)
      by (exists (Z.to_pos (j - 1)); rewrite Z2Pos.id; lia).
    destruct En as [n En]. pose proof (shr_round m e n) as R.
    rewrite <- En in R. destruct R as (Q0 & [Qlo Qhi] & _ & Rup & Rsnd).
    rewrite Rsnd.
    set (q := shr_m (fst (shr (shr_record_of_loc (Zpos m) loc_Exact) e
                            (j - 1)))) in *.
    assert (Eq : q = 2 ^ prec - 1 /\
                 2 ^ (j - 1) < 2 * (Zpos m - q * 2 ^ (j - 1))).
    { rewrite E1, Pj in Hlow. rewrite Pj in Hq. rewrite Pj1 in Qlo, Qhi.
      rewrite Pj1, Pp.
      set (A := 2 ^ (prec - 1)) in *. set (B := 2 ^ (j - 2)) in *.
      clearbody q A B.
      assert (q < 2 * A)
        by (apply (Z.mul_lt_mono_pos_r (2 * B)); lia).
      assert (2 * A - 1 < q + 1)
        by (apply (Z.mul_lt_mono_pos_r (2 * B)); lia).
      assert (q = 2 * A - 1) as -> by lia. lia. }
    destruct Eq as [Eq Hup]. rewrite (Rup Hup).
    rewrite Eq. replace (2 ^ prec - 1 + 1) with (2 ^ prec) by lia.
    assert (Ee : e + (j - 1) = et - 1) by (unfold j in *; lia).
    rewrite Ee.
    destruct (shr_fexp_carry prec emax prec (et - 1) ltac:(lia)) as [Cm Ce].
    { replace (prec + 1 + (et - 1)) with (prec + et) by lia. lia. }
    rewrite Cm, Ce. rewrite <- Emt.
    replace (et - 1 + 1) with et by lia. reflexivity.
  - (* in the binade of [mt] *)
    assert (Dm : digits m = prec + j).
    { apply digits_unique.
      replace (prec + j - 1) with (prec - 1 + j) by lia.
      set (A := 2 ^ (prec - 1)) in *. set (B := 2 ^ (j - 2)) in *. nia. }
    assert (Fm : fexp (digits m + e) = et).
    { rewrite Dm. replace (prec + j + e) with (prec + et)
        by (unfold j; lia). exact Ft. }
    rewrite binary_round_no_align by lia.
    rewrite binary_round_aux_pack.
    assert (S1 : shr_fexp prec emax (Zpos m) e loc_Exact
                 = shr (shr_record_of_loc (Zpos m) loc_Exact) e j).
    { unfold shr_fexp. rewrite Zdigits2_pos, Fm. reflexivity. }
    rewrite S1.
    assert (En : exists n, j = Zpos n)
      by (exists (Z.to_pos j); rewrite Z2Pos.id; lia).
    destruct En as [n En]. pose proof (shr_round m e n) as R.
    rewrite <- En in R.
    destruct R as (Q0 & [Qlo Qhi] & Rdown & Rup & Rsnd).
    rewrite Rsnd.
    set (q := shr_m (fst (shr (shr_record_of_loc (Zpos m) loc_Exact) e
                            j))) in *.
    assert (Ee : e + j = et) by (unfold j in *; lia).
    assert (Hq : (q = Zpos mt /\ 2 * (Zpos m - q * 2 ^ j) < 2 ^ j) \/
                 (q = Zpos mt - 1 /\ 2 ^ j < 2 * (Zpos m - q * 2 ^ j))).
    { rewrite Pj in Hm, Qlo, Qhi. rewrite Pj1 in Hm. rewrite Pj.
      set (B := 2 ^ (j - 2)) in *. clearbody q B.
      assert (q < Zpos mt + 1)
        by (apply (Z.mul_lt_mono_pos_r (4 * B)); lia).
      assert (Zpos mt - 1 < q + 1)
        by (apply (Z.mul_lt_mono_pos_r (4 * B)); lia).
      assert (Hq : q = Zpos mt \/ q = Zpos mt - 1) by lia.
      destruct Hq as [-> | ->]; [left|right]; (split; [reflexivity|lia]). }
    destruct Hq as [[Eq H]|[Eq H]].
    + rewrite (Rdown H).
      rewrite Eq, Ee, Fit. reflexivity.
    + rewrite (Rup H).
      rewrite Eq. replace (Zpos mt - 1 + 1) with (Zpos mt) by lia.
      rewrite Ee, Fit. reflexivity.
Qed.
End Nearest.

(** ** InterpAngle: angles above [2^27] *)

Lemma F64_sub_scaled_below (a b : double) (B : Z) :
  fin64 a -> fin64 b -> -1021 <= B < 1024 ->
  Z.abs (scaled a - scaled b) < 2 ^ (B + 1074) ->
  fin64 (F64.sub a b) /\
  Z.abs (scaled (F64.sub a b) - (scaled a - scaled b))
    <= ulp_bound F64.prec B.
Proof.
  intros Fa Fb HB H.
  apply (SFsub_scaled F64.prec F64.emax); try assumption;
    try reflexivity; try (now compute);
    unfold SpecFloat.emin, F64.prec, F64.emax; lia.
Qed.

Lemma F64_add_scaled_below (a b : double) (B : Z) :
  fin64 a -> fin64 b -> -1021 <= B < 1024 ->
  Z.abs (scaled a + scaled b) < 2 ^ (B + 1074) ->
  fin64 (F64.add a b) /\
  Z.abs (scaled (F64.add a b) - (scaled a + scaled b))
    <= ulp_bound F64.prec B.
Proof.
  intros Fa Fb HB H.
  apply (SFadd_scaled F64.prec F64.emax); try assumption;
    try reflexivity; try (now compute);
    unfold SpecFloat.emin, F64.prec, F64.emax; lia.
Qed.

Lemma fin64_exponent (s : bool) (m : positive) (e : Z) :
  fin64 (S754_finite s m e) -> -1074 <= e.
Proof. apply fin_exponent. now compute. Qed.

Lemma two_pi_below_seven : 0 < two_pi_scaled < 7 * unit_scaled.
Proof. split; vm_compute; reflexivity. Qed.

(** Above [2^27] the distance between two neighbouring binary32 numbers is
    16 or more, and [2 * M_PI] is less than half of it: the step of either
    loop, [angle -= 2 * M_PI] for a positive angle and [angle += 2 * M_PI]
    for a negative one, gives the angle back. *)
Lemma two_pi_step_stuck (s : bool) (m : positive) (e : Z) :
  F32.valid (S754_finite s m e) = true ->
  4 < e \/ (e = 4 /\ (8388608 < m)%positive) ->
  (if s then add_two_pi else sub_two_pi) (S754_finite s m e)
  = S754_finite s m e.
Proof.
  intros V H.
  assert (Fa : fin32 (S754_finite s m e))
    by (split; [exact V | reflexivity]).
  pose proof V as V'. simpl in V'. unfold bounded in V'.
  apply andb_prop in V'. destruct V' as [C Hb]. apply Z.leb_le in Hb.
  apply canonical_iff in C.
  assert (Dm : digits m = 24)
    by (unfold SpecFloat.fexp, SpecFloat.emin, F32.prec, F32.emax in C; lia).
  unfold F32.prec, F32.emax in Hb.
  pose proof (digits_bounds m) as [Mlo Mhi]. rewrite Dm in Mlo, Mhi.
  change (2 ^ (24 - 1)) with 8388608 in Mlo.
  change (2 ^ 24) with 16777216 in Mhi.
  destruct (to_double_scaled _ Fa) as [Fd Sd].
  pose proof two_pi_below_seven as [P0 P7].
  assert (W0 : 0 < 2 ^ (e - 28 + 1074)) by (apply pow2_pos; lia).
  assert (EX : 2 ^ (e + 1074) = 2 ^ (e - 28 + 1074) * 2 ^ 28)
    by (apply pow2_sum; lia).
  assert (EB : 2 ^ (e + 24 + 1074) = 2 ^ (e - 28 + 1074) * 2 ^ 52)
    by (apply pow2_sum; lia).
  assert (EQ : 2 ^ (e - 2 + 1074) = 2 ^ (e - 28 + 1074) * 2 ^ 26)
    by (apply pow2_sum; lia).
  assert (EH : 2 ^ (e - 1 + 1074) = 2 ^ (e - 28 + 1074) * 2 ^ 27)
    by (apply pow2_sum; lia).
  assert (EU : unit_scaled <= 2 ^ (e - 28 + 1074) * 2 ^ 24).
  { rewrite <- (pow2_sum (e - 28 + 1074) 24 (e - 4 + 1074)) by lia.
    apply pow2_le. lia. }
  assert (EU' : 4 < e -> unit_scaled <= 2 ^ (e - 28 + 1074) * 2 ^ 23).
  { intros He. rewrite <- (pow2_sum (e - 28 + 1074) 23 (e - 5 + 1074)) by lia.
    apply pow2_le. lia. }
  assert (EW : ulp_bound F64.prec (e + 24) = 2 ^ (e - 28 + 1074))
    by (unfold ulp_bound, F64.prec; f_equal; lia).
  change (2 ^ 28) with 268435456 in EX.
  change (2 ^ 52) with 4503599627370496 in EB.
  change (2 ^ 26) with 67108864 in EQ.
  change (2 ^ 27) with 134217728 in EH.
  change (2 ^ 24) with 16777216 in EU.
  change (2 ^ 23) with 8388608 in EU'.
  assert (Sa : scaled (S754_finite s m e)
               = cond_Zopp s (Zpos m * 2 ^ (e + 1074)))
    by reflexivity.
  assert (U0 : 0 < unit_scaled) by now compute.
  set (d := (if s then F64.add else F64.sub)
              (to_double (S754_finite s m e)) two_pi).
  assert (near :
    0 < cond_Zopp s (scaled d) < 2 ^ (e + 24 + 1074) /\
    fin64 d /\
    (Z.abs (cond_Zopp s (scaled d) - Zpos m * 2 ^ (e + 1074))
       < 2 ^ (e - 2 + 1074) \/
     (2 ^ (24 - 1) < Zpos m /\
      Z.abs (cond_Zopp s (scaled d) - Zpos m * 2 ^ (e + 1074))
        < 2 ^ (e - 1 + 1074)))).
  { assert (Hd : fin64 d /\
                 Z.abs (cond_Zopp s (scaled d)
                        - (Zpos m * 2 ^ (e + 1074) - two_pi_scaled))
                   <= 2 ^ (e - 28 + 1074)).
    { assert (Hv : Z.abs (Zpos m * 2 ^ (e + 1074) - two_pi_scaled)
                   < 2 ^ (e + 24 + 1074)).
      { rewrite EX, EB.
        set (W := 2 ^ (e - 28 + 1074)) in *. clearbody W.
        assert (8388608 * W <= Zpos m * W)
          by (apply Z.mul_le_mono_nonneg_r; lia).
        assert (Zpos m * W <= 16777215 * W)
          by (apply Z.mul_le_mono_nonneg_r; lia).
        lia. }
      unfold d. rewrite <- EW. destruct s; cbn [cond_Zopp] in *.
      - destruct (F64_add_scaled_below (to_double (S754_finite true m e))
                    two_pi (e + 24) Fd fin64_two_pi ltac:(lia)) as [Fr Sr].
        + rewrite Sd, Sa. fold two_pi_scaled. lia.
        + rewrite Sd, Sa in Sr. fold two_pi_scaled in Sr.
          split; [exact Fr | lia].
      - destruct (F64_sub_scaled_below (to_double (S754_finite false m e))
                    two_pi (e + 24) Fd fin64_two_pi ltac:(lia)) as [Fr Sr].
        + rewrite Sd, Sa. fold two_pi_scaled. lia.
        + rewrite Sd, Sa in Sr. fold two_pi_scaled in Sr.
          split; [exact Fr | lia]. }
    destruct Hd as [Fr Sr].
    set (r := cond_Zopp s (scaled d)) in *.
    change (2 ^ (24 - 1)) with 8388608.
    rewrite EX, EB, EQ, EH. rewrite EX in Sr.
    set (W := 2 ^ (e - 28 + 1074)) in *. clearbody W r.
    assert (8388608 * W <= Zpos m * W)
      by (apply Z.mul_le_mono_nonneg_r; lia).
    assert (Zpos m * W <= 16777215 * W)
      by (apply Z.mul_le_mono_nonneg_r; lia).
    apply Z.abs_le in Sr.
    split; [lia|]. split; [exact Fr|].
    destruct H as [He|[He Hm]].
    + left. specialize (EU' He). apply Z.abs_lt. lia.
    + right. split; [lia|]. apply Z.abs_lt. lia. }
  assert (Hstep : to_float d = S754_finite s m e).
  { clearbody d.
    destruct d as [s'|s'| |s' m' e'];
      try (destruct near as ([N _] & _); destruct s; simpl in N; lia).
    destruct near as ([Rpos Rhi] & Fr & Hnear).
    pose proof (fin64_exponent s' m' e' Fr) as He'.
    assert (Y0 : 0 < 2 ^ (e' + 1074)) by (apply pow2_pos; lia).
    assert (Mp : 0 < Zpos m' * 2 ^ (e' + 1074)) by lia.
    assert (Es : s' = s)
      by (destruct s, s'; cbn [scaled cond_Zopp] in Rpos; try reflexivity;
          lia).
    subst s'.
    assert (Er : cond_Zopp s (scaled (S754_finite s m' e'))
                 = Zpos m' * 2 ^ (e' + 1074))
      by (destruct s; cbn [scaled cond_Zopp]; lia).
    rewrite Er in Rpos, Rhi, Hnear.
    (* the exponent of the result of the double operation *)
    destruct Fr as [Vr _]. simpl in Vr. unfold bounded in Vr.
    apply andb_prop in Vr. destruct Vr as [Cr _]. apply canonical_iff in Cr.
    assert (Hd : digits m' + e' <= 24 + e).
    { pose proof (digits_bounds m') as [Dlo _]. pose proof (digits_pos m').
      assert (Hp : 2 ^ (digits m' - 1) * 2 ^ (e' + 1074)
                   < 2 ^ (e + 24 + 1074)).
      { apply Z.le_lt_trans with (2 := Rhi).
        apply Z.mul_le_mono_nonneg_r; lia. }
      rewrite <- pow2_split in Hp by lia.
      apply Z.pow_lt_mono_r_iff in Hp; lia. }
    assert (Hj : 2 <= e - e')
      by (unfold SpecFloat.fexp, SpecFloat.emin, F64.prec, F64.emax in Cr;
          lia).
    unfold to_float. rewrite binary_normalize_cond_Zopp.
    rewrite (binary_round_near F32.prec F32.emax eq_refl s m' e' m e).
    - unfold pack. unfold F32.emax, F32.prec.
      destruct (Z.leb_spec e (128 - 24)); [reflexivity | lia].
    - exact Dm.
    - unfold SpecFloat.emin, F32.prec, F32.emax. lia.
    - exact Hj.
    - assert (EY : 2 ^ (e + 1074) = 2 ^ (e - e') * 2 ^ (e' + 1074))
        by (apply pow2_sum; lia).
      assert (EY2 : 2 ^ (e - 2 + 1074) = 2 ^ (e - e' - 2) * 2 ^ (e' + 1074))
        by (apply pow2_sum; lia).
      assert (EY1 : 2 ^ (e - 1 + 1074) = 2 ^ (e - e' - 1) * 2 ^ (e' + 1074))
        by (apply pow2_sum; lia).
      rewrite EY, EY2, EY1, Z.mul_assoc, <- Z.mul_sub_distr_r in Hnear.
      rewrite Z.abs_mul, (Z.abs_eq (2 ^ (e' + 1074))) in Hnear by lia.
      unfold F32.prec.
      destruct Hnear as [N|[N1 N]]; [left|right; split; [exact N1|]];
        apply (Z.mul_lt_mono_pos_r (2 ^ (e' + 1074))); assumption. }
  destruct s; exact Hstep.
Qed.

Lemma raise_angle_stuck (angle : float) :
  ltb angle F32.zero = true -> add_two_pi angle = angle ->
  forall fuel : nat, raise_angle fuel angle = None.
Proof.
  intros Hlt Hfix fuel. induction fuel as [|fuel IH]; simpl.
  - reflexivity.
  - now rewrite Hlt, Hfix.
Qed.

Lemma ltb_negative (m1 m2 : positive) (e1 e2 : Z) :
  ltb (S754_finite true m1 e1) (S754_finite true m2 e2) = true <->
  e2 < e1 \/ (e1 = e2 /\ (m2 < m1)%positive).
Proof.
  unfold ltb, SFltb. simpl.
  change (PosDef.Pos.compare_cont Eq m1 m2) with (Pos.compare m1 m2).
  destruct (Z.compare_spec e1 e2).
  - destruct (Pos.compare_spec m1 m2); simpl; split; try discriminate;
      try lia; reflexivity.
  - split; [discriminate | lia].
  - split; [lia | reflexivity].
Qed.

(** Neither loop of [normalize_angle] ends for an angle above [2^27] in
    absolute value, infinite angles included. *)
Lemma normalize_angle_above (angle : float) :
  F32.valid angle = true ->
  ltb (F32.of_Z 134217728) angle = true \/
  ltb angle (F32.of_Z (-134217728)) = true ->
  forall fuel : nat, normalize_angle fuel angle = None.
Proof.
  intros V H fuel.
  change (F32.of_Z 134217728) with (S754_finite false 8388608 4) in H.
  change (F32.of_Z (-134217728)) with (S754_finite true 8388608 4) in H.
  destruct angle as [s|s| |s m e].
  - destruct s, H as [H|H]; discriminate H.
  - destruct s.
    + unfold normalize_angle.
      rewrite (raise_angle_stuck (S754_infinity true)); reflexivity.
    + apply normalize_angle_stuck; reflexivity.
  - destruct H as [H|H]; discriminate H.
  - destruct s.
    + destruct H as [H|H]; [discriminate H|].
      apply ltb_negative in H.
      unfold normalize_angle.
      rewrite raise_angle_stuck; [reflexivity | reflexivity |].
      apply (two_pi_step_stuck true m e V). lia.
    + destruct H as [H|H]; [|discriminate H].
      apply ltb_positive in H.
      assert (Fa : fin32 (S754_finite false m e))
        by (split; [exact V | reflexivity]).
      apply normalize_angle_stuck.
      * reflexivity.
      * rewrite (above_two_pi_scaled _ Fa). apply Z.ltb_lt.
        cbn [scaled cond_Zopp].
        pose proof two_pi_below_seven as [_ P7].
        assert (E : 2 ^ (4 + 1074) = 16 * unit_scaled)
          by (vm_compute; reflexivity).
        assert (L : 2 ^ (4 + 1074) <= 2 ^ (e + 1074))
          by (apply pow2_le; lia).
        assert (U0 : 0 < unit_scaled) by now compute.
        assert (2 ^ (e + 1074) <= Zpos m * 2 ^ (e + 1074)) by nia.
        lia.
      * apply (two_pi_step_stuck false m e V). lia.
Qed.

(** X21.  [InterpAngle] does not return when the start angle or the end
    angle is greater than [2^27] in absolute value: above [2^27] adding or
    subtracting [2 * M_PI] rounds back to the angle itself, and the loop of
    [normalize_angle] makes no progress. *)
Theorem InterpAngle_diverges_above :
  forall (fuel : nat) (start end_ interp_amount : float),
    (F32.valid start = true /\
     (ltb (F32.of_Z 134217728) start = true \/
      ltb start (F32.of_Z (-134217728)) = true)) \/
    (F32.valid end_ = true /\
     (ltb (F32.of_Z 134217728) end_ = true \/
      ltb end_ (F32.of_Z (-134217728)) = true)) ->
    InterpAngle fuel start end_ interp_amount = None.
Proof.
  intros fuel start end_ t [[V H]|[V H]]; unfold InterpAngle.
  - now rewrite (normalize_angle_above start V H fuel).
  - rewrite (normalize_angle_above end_ V H fuel).
    now destruct (normalize_angle fuel start).
Qed.

Lemma InterpAngle_diverges_above_witness :
  InterpAngle 1000 (F32.of_Z 134217744) F32.zero F32.one = None /\
  InterpAngle 1000 F32.zero (F32.of_Z (-300000000)) F32.one = None.
Proof.
  split.
  - apply InterpAngle_diverges_above. left.
    split; [reflexivity | left; reflexivity].
  - apply InterpAngle_diverges_above. right.
    split; [reflexivity | right; reflexivity].
Defined.
